(** * Security utilities of the anniversary site: a shallow embedding

    The development follows the four helper modules of the repository:
    - [rate_limit] : src/lib/security/rate-limit.ts
    - [ssrf]       : src/lib/security/ssrf.ts
    - [logger]     : src/lib/logger.ts
    - [errors]     : the error envelope (createErrorResponse)
    and, beside them, what else these files hold and what calls them:
    - [rate_limit_response] : checkRateLimit, createRateLimiter
    - [csrf]          : the CSRF tokens of rate-limit.ts
    - [cookies]       : the cookie configurations of logger.ts
    - [safe_fetch]    : safeFetch and safeFetchJson of ssrf.ts
    - [error_helpers] : createSuccessResponse, AppError and the shortcuts
    - [validation]    : the validators that answer with the envelope

    Conventions.  A JavaScript string is its sequence of UTF-16 code units
    ([list N]).  A JavaScript number that holds a count, a status code or a
    millisecond timestamp is an integer ([Z]).  [Date.now()], the process
    environment and [crypto.randomUUID()] are read by the code from its
    surroundings; here they are explicit arguments.  A thrown exception is
    the [inl] side of a sum. *)

From Stdlib Require Import ZArith NArith List String Ascii Bool Lia DecimalString.
From stdpp Require Import base option list gmap sorting.

Local Open Scope Z_scope.

(* ===================================================================== *)
(** ** JavaScript strings *)
(* ===================================================================== *)

Module JS.

(** A string is a list of code units; [js "abc"] writes an ASCII literal. *)
Abbreviation jsstring := (list N).

Fixpoint js (s : string) : jsstring :=
  match s with
  | EmptyString => []
  | String a s' => N_of_ascii a :: js s'
  end.

(** ECMAScript [WhiteSpace] and [LineTerminator] code units: what the
    regular-expression class [\s] matches and what [String.prototype.trim]
    strips. *)
Definition is_space (c : N) : bool :=
  ((9 <=? c) && (c <=? 13) || (c =? 32) || (c =? 160) || (c =? 5760)
   || (8192 <=? c) && (c <=? 8202) || (c =? 8232) || (c =? 8233)
   || (c =? 8239) || (c =? 8287) || (c =? 12288) || (c =? 65279))%N.

(** ASCII lower-casing of one code unit.  The strings lower-cased by the
    code are host names, which the URL parser has already made ASCII. *)
Definition lower (c : N) : N :=
  if ((65 <=? c) && (c <=? 90))%N then (c + 32)%N else c.

Definition toLowerCase (s : jsstring) : jsstring := map lower s.

(** Comparison of a pattern character with an input character under the
    [i] flag of a regular expression without the [u] flag: the two are
    canonicalised by upper-casing, and a code unit outside ASCII is never
    mapped into ASCII, so for the ASCII pattern characters used here it
    is ASCII case folding. *)
Definition ci_eqb (p c : N) : bool := (lower p =? lower c)%N.

(** [s.startsWith(p)], case-sensitive, returning what follows [p]. *)
Fixpoint strip_prefix (p s : jsstring) : option jsstring :=
  match p with
  | [] => Some s
  | a :: p' =>
      match s with
      | c :: s' => if (a =? c)%N then strip_prefix p' s' else None
      | [] => None
      end
  end.

Definition starts_with (p s : jsstring) : bool :=
  match strip_prefix p s with Some _ => true | None => false end.

(** Strict equality [===] of two strings. *)
Definition str_eqb (a b : jsstring) : bool := bool_decide (a = b).

(** [s.includes(p)]. *)
Fixpoint includes (p s : jsstring) : bool :=
  starts_with p s ||
  match s with
  | [] => false
  | _ :: s' => includes p s'
  end.

(** [s.split(',')[0]]: the text before the first comma. *)
Fixpoint before_comma (s : jsstring) : jsstring :=
  match s with
  | [] => []
  | c :: s' => if (c =? 44)%N then [] else c :: before_comma s'
  end.

Fixpoint trim_start (s : jsstring) : jsstring :=
  match s with
  | c :: s' => if is_space c then trim_start s' else s
  | [] => []
  end.

Definition trim (s : jsstring) : jsstring :=
  rev (trim_start (rev (trim_start s))).

(** Truthiness of a string: only the empty string is falsy. *)
Definition truthy (s : jsstring) : bool :=
  match s with [] => false | _ => true end.

(** *** Regular expressions

    The part of the pattern syntax that the repository uses: literal
    text, character classes, a class under [*] or [+], an optional
    group, alternatives, concatenation and the end of input.  A leading
    [^] is not a node: the patterns that have one are only used with
    [test], which tries them at the start of the text. *)
#[warnings="-register-all"]
Inductive regex :=
| Str (p : jsstring)
| Cls (f : N → bool)
| Star (f : N → bool)
| Plus (f : N → bool)
| Opt (r : regex)
| Alt (rs : list regex)
| Cat (rs : list regex)
| Eos.

(** A regular-expression literal with its [i] flag. *)
Record RegExp := { source : regex; ignoreCase : bool }.

(** The result of matching at a position: the text left after the
    match, if there is one. *)
Definition matcher := jsstring → option jsstring.

(** A literal; [ci] is the [i] flag. *)
Fixpoint lit (ci : bool) (p : jsstring) : matcher := λ s,
  match p with
  | [] => Some s
  | a :: p' =>
      match s with
      | c :: s' =>
          if (if ci then ci_eqb a c else (a =? c)%N) then lit ci p' s' else None
      | [] => None
      end
  end.

(** The matcher of the language definition: a pattern is matched at the
    current position with a continuation for what follows it.
    Alternatives are tried in order; a greedy repetition takes the
    longest run first and gives characters back one at a time while the
    continuation fails. *)
Definition continuation := jsstring → option jsstring.

Fixpoint star_bt (f : N → bool) (s : jsstring) (k : continuation)
  : option jsstring :=
  match s with
  | c :: s' =>
      if f c
      then match star_bt f s' k with Some e => Some e | None => k s end
      else k s
  | [] => k []
  end.

Fixpoint bt (ci : bool) (r : regex) (s : jsstring) (k : continuation)
  {struct r} : option jsstring :=
  match r with
  | Str p => match lit ci p s with Some s' => k s' | None => None end
  | Cls f =>
      match s with
      | c :: s' => if f c then k s' else None
      | [] => None
      end
  | Star f => star_bt f s k
  | Plus f =>
      match s with
      | c :: s' => if f c then star_bt f s' k else None
      | [] => None
      end
  | Opt r => match bt ci r s k with Some e => Some e | None => k s end
  | Alt rs =>
      (fix alts (rs : list regex) : option jsstring :=
         match rs with
         | [] => None
         | r :: rs' =>
             match bt ci r s k with Some e => Some e | None => alts rs' end
         end) rs
  | Cat rs =>
      (fix cats (rs : list regex) (s : jsstring) : option jsstring :=
         match rs with
         | [] => k s
         | r :: rs' => bt ci r s (λ s', cats rs' s')
         end) rs s
  | Eos => match s with [] => k [] | _ :: _ => None end
  end.

(** The match of [re] that starts at the first character of [s]. *)
Definition exec (re : RegExp) : matcher := λ s,
  bt (ignoreCase re) (source re) s Some.

(** [re.test(s)] for a pattern that begins with [^] and has no [g]
    flag. *)
Definition test (re : RegExp) (s : jsstring) : bool :=
  match exec re s with Some _ => true | None => false end.

(** [s.replace(/.../g, replacement)] for a replacement text without [$]:
    matches are taken from left to right, each search starting where the
    previous match ended (one character further after an empty match).
    [pending] counts the characters of the current match still to drop. *)
Fixpoint replace_from (m : matcher) (replacement : jsstring)
    (pending : nat) (s : jsstring) : jsstring :=
  match pending with
  | S k =>
      match s with
      | [] => []
      | _ :: s' => replace_from m replacement k s'
      end
  | O =>
      match m s with
      | Some rest =>
          replacement ++
          match s with
          | [] => []
          | c :: s' =>
              match (length s - length rest)%nat with
              | O => c :: replace_from m replacement 0 s'
              | S k => replace_from m replacement k s'
              end
          end
      | None =>
          match s with
          | [] => []
          | c :: s' => c :: replace_from m replacement 0 s'
          end
      end
  end.

Definition replace (m : matcher) (replacement : jsstring) (s : jsstring)
  : jsstring := replace_from m replacement 0 s.

(** *** Values

    A value of type [unknown]; an array is not distinguished from an
    object with index keys. *)
#[warnings="-register-all"]
Inductive JSValue :=
| JUndefined
| JNull
| JBool (b : bool)
| JNumber (z : Z)
| JString (s : jsstring)
| JObject (fields : list (jsstring * JSValue)).

(** [typeof v === 'string']. *)
Definition is_string (v : JSValue) : bool :=
  match v with JString _ => true | _ => false end.

(** [process.env.NODE_ENV]: unset, or a string. *)
Definition Env := option jsstring.

Definition is_production (NODE_ENV : Env) : bool :=
  bool_decide (NODE_ENV = Some (js "production")).

Global Arguments js : simpl never.

End JS.

Import JS.

(* ===================================================================== *)
(** ** Rate limiter (rate-limit.ts) *)
(* ===================================================================== *)

Module rate_limit.

Record RateLimitResult := {
  allowed : bool;
  remaining : Z;
  reset : Z;
  limit : Z
}.

(** The private fields of the class.  [requests] is the [Map] from
    identifier to the array of request timestamps. *)
Record Limiter := {
  maxRequests : Z;
  windowMs : Z;
  requests : gmap jsstring (list Z)
}.

Definition with_requests (l : Limiter) (m : gmap jsstring (list Z)) : Limiter :=
  {| maxRequests := maxRequests l; windowMs := windowMs l; requests := m |}.

Module InMemoryRateLimiter.

(** [new InMemoryRateLimiter(maxRequests, windowMs)]. *)
Definition new (maxRequests windowMs : Z) : Limiter :=
  {| maxRequests := maxRequests; windowMs := windowMs; requests := ∅ |}.

(** [check(identifier)], with [now] the value of [Date.now()]. *)
Definition check (now : Z) (identifier : jsstring) (l : Limiter)
  : RateLimitResult * Limiter :=
  let windowStart := now - windowMs l in
  let timestamps := default [] (requests l !! identifier) in
  let validTimestamps := filter (λ ts, windowStart < ts) timestamps in
  let allowed := Z.of_nat (length validTimestamps) <? maxRequests l in
  let validTimestamps' :=
    if allowed then validTimestamps ++ [now] else validTimestamps in
  let l' :=
    if allowed
    then with_requests l (<[identifier := validTimestamps']> (requests l))
    else l in
  ({| allowed := allowed;
      remaining := Z.max 0 (maxRequests l - Z.of_nat (length validTimestamps'));
      reset := windowStart + windowMs l;
      limit := maxRequests l |}, l').

(** [reset(identifier)]. *)
Definition reset (identifier : jsstring) (l : Limiter) : Limiter :=
  with_requests l (delete identifier (requests l)).

(** One iteration of the loop of [cleanup()], on the entry [key],
    [timestamps], acting on the map [m]. *)
Definition cleanup_entry (now windowMs : Z)
    (key : jsstring) (timestamps : list Z) (m : gmap jsstring (list Z))
  : gmap jsstring (list Z) :=
  let valid := filter (λ ts, now - windowMs < ts) timestamps in
  if (length valid =? 0)%nat then delete key m else <[key := valid]> m.

(** [cleanup()]: the loop over the entries of the map, which deletes or
    overwrites the entry it is visiting. *)
Definition cleanup (now : Z) (l : Limiter) : Limiter :=
  with_requests l
    (map_fold (cleanup_entry now (windowMs l)) (requests l) (requests l)).

End InMemoryRateLimiter.

Import InMemoryRateLimiter.

(** The headers of a [Request], under their lower-case names;
    [request.headers.get(name)] is the lookup. *)
Record Request := { headers : gmap jsstring jsstring }.

Definition getClientIdentifier (request : Request) : jsstring :=
  let forwarded := headers request !! js "x-forwarded-for" in
  let realIp := headers request !! js "x-real-ip" in
  let otherwise :=
    match realIp with
    | Some r => if truthy r then r else js "unknown"
    | None => js "unknown"
    end in
  match forwarded with
  | Some f => if truthy f then trim (before_comma f) else otherwise
  | None => otherwise
  end.

(** A run of [check] calls for one identifier at the given clock values. *)
Fixpoint check_seq (times : list Z) (identifier : jsstring) (l : Limiter)
  : list RateLimitResult * Limiter :=
  match times with
  | [] => ([], l)
  | now :: times' =>
      let '(r, l1) := check now identifier l in
      let '(rs, l2) := check_seq times' identifier l1 in
      (r :: rs, l2)
  end.

(** The results of a run of allowed checks that starts with [a] retained
    timestamps. *)
Fixpoint allowed_results (mx : Z) (a : nat) (times : list Z)
  : list RateLimitResult :=
  match times with
  | [] => []
  | now :: times' =>
      {| allowed := true; remaining := mx - Z.of_nat (S a);
         rate_limit.reset := now; limit := mx |} :: allowed_results mx (S a) times'
  end.

(** The operations that act on a limiter after its construction. *)
Inductive Op :=
| OpCheck (identifier : jsstring)
| OpReset (identifier : jsstring)
| OpCleanup.

Definition step (now : Z) (op : Op) (l : Limiter) : Limiter :=
  match op with
  | OpCheck identifier => snd (check now identifier l)
  | OpReset identifier => reset identifier l
  | OpCleanup => cleanup now l
  end.

(** States reached from the constructor by operations performed at
    non-decreasing clock values; the index is the time of the last one. *)
Inductive reachable (mx w : Z) : Z → Limiter → Prop :=
| reach_new now : reachable mx w now (new mx w)
| reach_step now now' op l :
    reachable mx w now l → now ≤ now' → reachable mx w now' (step now' op l).

(** The invariant as the data model words it: every retained timestamp
    lies in [[now - windowMs, now]]. *)
Definition all_in_window (now : Z) (l : Limiter) : Prop :=
  ∀ identifier tss, requests l !! identifier = Some tss →
    Forall (λ ts, now - windowMs l ≤ ts ≤ now) tss.

End rate_limit.

(* ===================================================================== *)
(** ** SSRF guard (ssrf.ts) *)
(* ===================================================================== *)

Module ssrf.

(** The fields of a parsed [URL] object that the guard reads. *)
Record URL := {
  protocol : jsstring;
  hostname : jsstring
}.

Record SSRFError := { message : jsstring }.

Definition digit_between (lo hi : N) (c : N) : bool :=
  ((48 + lo <=? c) && (c <=? 48 + hi))%N.

(** [[0-9a-f]] under the [i] flag. *)
Definition hex_ci (c : N) : bool :=
  digit_between 0 9 c || ((97 <=? lower c) && (lower c <=? 102))%N.

Definition re (source : regex) : RegExp :=
  {| source := source; ignoreCase := false |}.

Definition re_i (source : regex) : RegExp :=
  {| source := source; ignoreCase := true |}.

Definition PRIVATE_IP_RANGES : list RegExp := [
  (* IPv4 *)
  re (Str (js "127."));                                    (* /^127\./ *)
  re (Str (js "10."));                                     (* /^10\./ *)
  re (Cat [Str (js "172.");                                (* /^172\.(1[6-9]|2[0-9]|3[01])\./ *)
           Alt [Cat [Str (js "1"); Cls (digit_between 6 9)];
                Cat [Str (js "2"); Cls (digit_between 0 9)];
                Cat [Str (js "3"); Cls (digit_between 0 1)]];
           Str (js ".")]);
  re (Str (js "192.168."));                                (* /^192\.168\./ *)
  re (Str (js "169.254."));                                (* /^169\.254\./ *)
  re (Str (js "0."));                                      (* /^0\./ *)
  (* IPv6 *)
  re (Cat [Str (js "::1"); Eos]);                          (* /^::1$/ *)
  re_i (Str (js "fe80:"));                                 (* /^fe80:/i *)
  re_i (Str (js "fc00:"));                                 (* /^fc00:/i *)
  re_i (Cat [Str (js "fd"); Cls hex_ci; Cls hex_ci;        (* /^fd[0-9a-f]{2}:/i *)
             Str (js ":")]);
  re (Cat [Str (js "::"); Eos])                            (* /^::$/ *)
].

Definition ALLOWED_PROTOCOLS : list jsstring := [js "http:"; js "https:"].

Section Guard.

(** [new URL(urlString)] of the runtime: [None] when it throws. *)
Variable URL_new : jsstring → option URL.

Definition validateUrl (urlString : jsstring) : SSRFError + URL :=
  match URL_new urlString with
  | None => inl {| message := js "Invalid URL format" |}
  | Some url =>
      if negb (bool_decide (protocol url ∈ ALLOWED_PROTOCOLS)) then
        inl {| message := js "Protocol '" ++ protocol url ++
                          js "' is not allowed. Use HTTP or HTTPS." |}
      else
        let hostname := toLowerCase (hostname url) in
        if str_eqb hostname (js "localhost") || str_eqb hostname (js "0.0.0.0")
        then inl {| message := js "Localhost access is not allowed" |}
        else if existsb (λ range, test range hostname) PRIVATE_IP_RANGES
        then inl {| message := js "Private IP range access is not allowed" |}
        else if str_eqb hostname (js "[::1]") || str_eqb hostname (js "::1")
        then inl {| message := js "IPv6 localhost access is not allowed" |}
        else inr url
  end.

Definition isUrlSafe (urlString : jsstring) : bool :=
  match validateUrl urlString with
  | inr _ => true
  | inl _ => false
  end.

End Guard.

(** *** The URL parser on plain inputs

    [URL_plain] gives the answer of the runtime's [new URL] on inputs of
    the form [scheme://host[:port][/path]] and [scheme:rest], where the
    host is written as the parser prints it back: a domain name of
    letters, digits, hyphens and dots, an IPv4 address as four decimal
    numbers, or an IPv6 address in brackets in its canonical text.  The
    parser prints an IPv6 host with its brackets.  Inputs outside this
    form (credentials, percent-escapes, numeric hosts in another
    notation, ...) are not covered and give [None]. *)

Definition is_alpha (c : N) : bool :=
  ((97 <=? lower c) && (lower c <=? 122))%N.

Definition is_digit (c : N) : bool := digit_between 0 9 c.

Definition is_scheme_char (c : N) : bool :=
  is_alpha c || is_digit c || (c =? 43)%N || (c =? 45)%N || (c =? 46)%N.

Definition is_host_char (c : N) : bool :=
  is_alpha c || is_digit c || (c =? 45)%N || (c =? 46)%N.

Definition is_ip6_char (c : N) : bool := hex_ci c || (c =? 58)%N.

(** The text before the first character of class [f], and the rest. *)
Fixpoint break (f : N → bool) (s : jsstring) : jsstring * jsstring :=
  match s with
  | [] => ([], [])
  | c :: s' =>
      if f c then ([], s)
      else let '(a, b) := break f s' in (c :: a, b)
  end.

(** The labels of a host name. *)
Fixpoint labels (s : jsstring) : list jsstring :=
  match s with
  | [] => [[]]
  | c :: s' =>
      if (c =? 46)%N then [] :: labels s'
      else match labels s' with
           | l :: ls => (c :: l) :: ls
           | [] => [[c]]
           end
  end.

(** A decimal number from 0 to 255 without a leading zero. *)
Definition is_octet (l : jsstring) : bool :=
  match l with
  | [a] => is_digit a
  | [a; b] => digit_between 1 9 a && is_digit b
  | [a; b; c] =>
      (a =? 49)%N && is_digit b && is_digit c
      || (a =? 50)%N && digit_between 0 4 b && is_digit c
      || (a =? 50)%N && (b =? 53)%N && digit_between 0 5 c
  | _ => false
  end.

Definition plain_host (h : jsstring) : option jsstring :=
  match h with
  | [] => None
  | 91%N (* [ *) :: h' =>
      match rev h' with
      | 93%N (* ] *) :: body =>
          if forallb is_ip6_char body && negb (bool_decide (body = []))
          then Some (toLowerCase h) else None
      | _ => None
      end
  | _ =>
      let ls := labels h in
      if negb (forallb is_host_char h)
         || existsb (λ l, bool_decide (l = [])) ls then None
      else match last ls with
           | Some (c :: _) =>
               if is_digit c
               then if (length ls =? 4)%nat && forallb is_octet ls
                    then Some h else None
               else Some (toLowerCase h)
           | _ => None
           end
  end.

Definition is_http_scheme (scheme : jsstring) : bool :=
  str_eqb scheme (js "http") || str_eqb scheme (js "https").

Definition URL_plain (s : jsstring) : option URL :=
  let '(scheme, rest) := break (λ c, (c =? 58)%N) s in
  match scheme, rest with
  | c :: _, _ :: after =>
      if is_alpha c && forallb is_scheme_char scheme then
        let scheme := toLowerCase scheme in
        match strip_prefix (js "//") after with
        | Some r =>
            let authority :=
              fst (break (λ c, (c =? 47)%N || (c =? 63)%N || (c =? 35)%N) r) in
            let '(host, port) :=
              match authority with
              | 91%N :: _ =>
                  let '(h, p) := break (λ c, (c =? 93)%N) authority in
                  (h ++ firstn 1 p, skipn 1 p)
              | _ => break (λ c, (c =? 58)%N) authority
              end in
            if negb (forallb is_digit (skipn 1 port))
            then None
            else if is_http_scheme scheme then
              match plain_host host with
              | Some h =>
                  Some {| protocol := scheme ++ js ":"; hostname := h |}
              | None => None
              end
            else if forallb is_host_char host then
              Some {| protocol := scheme ++ js ":"; hostname := toLowerCase host |}
            else None
        | None =>
            if is_http_scheme scheme then None
            else Some {| protocol := scheme ++ js ":"; hostname := [] |}
        end
      else None
  | _, _ => None
  end.

(** *** Host names as the properties word them *)

(** The decimal text of a number below 100. *)
Definition dec2 (n : N) : jsstring :=
  if (n <? 10)%N then [48 + n]%N else [48 + n / 10; 48 + n mod 10]%N.

(** The text patterns [10.*], [172.16-31.*], [192.168.*], [169.254.*],
    [127.*] and [0.*]. *)
Definition private_ipv4_prefixes : list jsstring :=
  [js "10."; js "192.168."; js "169.254."; js "127."; js "0."]
  ++ map (λ b, js "172." ++ dec2 (N.of_nat b) ++ js ".") (seq 16 16).

Definition private_ipv4_text (h : jsstring) : bool :=
  existsb (λ p, starts_with p h) private_ipv4_prefixes.

(** A public domain name: at least two labels of letters, digits and
    hyphens, none empty or bounded by a hyphen, the last one (the
    top-level domain) made of letters. *)
Definition is_label (l : jsstring) : bool :=
  match l with
  | [] => false
  | c :: _ =>
      forallb (λ c, is_alpha c || is_digit c || (c =? 45)%N) l
      && negb (c =? 45)%N
      && negb (bool_decide (last l = Some 45%N))
  end.

Definition public_domain (h : jsstring) : bool :=
  let ls := labels h in
  (2 <=? length ls)%nat && forallb is_label ls
  && match last ls with
     | Some tld => forallb is_alpha tld
     | None => false
     end.

End ssrf.

(* ===================================================================== *)
(** ** Secret redaction and logger (logger.ts) *)
(* ===================================================================== *)

Module logger.

(** The separator class of the key-value patterns: a double quote, white
    space, a colon or an equals sign. *)
Definition is_sep (c : N) : bool :=
  (c =? 34)%N || is_space c || (c =? 58)%N || (c =? 61)%N.

(** The value class of the key-value patterns: anything but white space,
    a double quote, a comma or a closing brace. *)
Definition is_value (c : N) : bool :=
  negb (is_space c || (c =? 34)%N || (c =? 44)%N || (c =? 125)%N).

(** The class [\S]. *)
Definition non_space (c : N) : bool := negb (is_space c).

(** The class [[^@\s]]. *)
Definition is_cred (c : N) : bool := negb ((c =? 64)%N || is_space c).

(** The class [[_-]]. *)
Definition is_joiner (c : N) : bool := (c =? 95)%N || (c =? 45)%N.

(** A pattern with the flags [gi]. *)
Definition re_gi (source : regex) : RegExp :=
  {| source := source; ignoreCase := true |}.

Definition SENSITIVE_PATTERNS : list RegExp := [
  (* Key-value patterns *)
  re_gi (Cat [Str (js "password"); Plus is_sep; Star is_value]);
  re_gi (Cat [Str (js "token"); Plus is_sep; Star is_value]);
  re_gi (Cat [Str (js "api"); Opt (Cls is_joiner); Str (js "key");
              Plus is_sep; Star is_value]);
  re_gi (Cat [Str (js "secret"); Plus is_sep; Star is_value]);
  re_gi (Cat [Str (js "credential"); Plus is_sep; Star is_value]);
  (* Authorization headers *)
  re_gi (Cat [Str (js "authorization:"); Star is_space; Str (js "bearer");
              Plus is_space; Plus non_space]);
  re_gi (Cat [Str (js "authorization:"); Star is_space; Str (js "basic");
              Plus is_space; Plus non_space]);
  (* Connection strings *)
  re_gi (Cat [Str (js "postgresq"); Opt (Str (js "l")); Str (js "://");
              Plus is_cred; Str (js "@")]);
  re_gi (Cat [Str (js "mysql://"); Plus is_cred; Str (js "@")]);
  re_gi (Cat [Str (js "mongodb"); Opt (Str (js "+srv")); Str (js "://");
              Plus is_cred; Str (js "@")])
].

Definition REDACTED : jsstring := js "[REDACTED]".

Definition redactSecrets (message : jsstring) : jsstring :=
  fold_left (λ redacted pattern, replace (exec pattern) REDACTED redacted)
            SENSITIVE_PATTERNS message.

(** [generateRequestId()]: the identifier drawn by [crypto.randomUUID()]. *)
Definition generateRequestId (randomUUID : jsstring) : jsstring := randomUUID.

Abbreviation LogContext := (list (jsstring * JSValue)).

Inductive LogLevel := level_debug | level_info | level_warn | level_error.

Definition level_name (level : LogLevel) : jsstring :=
  match level with
  | level_debug => js "debug"
  | level_info => js "info"
  | level_warn => js "warn"
  | level_error => js "error"
  end.

Definition upper (c : N) : N :=
  if ((97 <=? c) && (c <=? 122))%N then (c - 32)%N else c.

Definition toUpperCase (s : jsstring) : jsstring := map upper s.

(** Writing a property of an object: an existing key keeps its place. *)
Fixpoint set_property (k : jsstring) (v : JSValue) (o : LogContext) : LogContext :=
  match o with
  | [] => [(k, v)]
  | (k', v') :: o' =>
      if bool_decide (k = k') then (k, v) :: o'
      else (k', v') :: set_property k v o'
  end.

(** [{ ...o, ...extra }]. *)
Definition spread (o extra : LogContext) : LogContext :=
  fold_left (λ acc kv, set_property (fst kv) (snd kv) acc) extra o.

(** One call of a method of [console]. *)
Inductive ConsoleCall :=
| console_log (line : jsstring)
| console_warn (line : jsstring)
| console_error (line : jsstring)
| console_debug (line : jsstring).

Section Logger.

(** [JSON.stringify] on a log entry, and the text of
    [new Date().toISOString()] at the time of the call. *)
Variable JSON_stringify : LogContext → jsstring.
Variable isoNow : jsstring.
(** [process.env.NODE_ENV]. *)
Variable NODE_ENV : Env.

Record Logger := { context : LogContext }.

Definition createLogger (context : LogContext) : Logger :=
  {| context := context |}.

Definition format (this : Logger) (level : LogLevel) (message : jsstring)
    (meta : JSValue) : jsstring :=
  let entry :=
    spread
      (spread
         [(js "timestamp", JString isoNow);
          (js "level", JString (toUpperCase (level_name level)));
          (js "message", JString message)]
         (context this))
      (match meta with
       | JObject fields => fields
       | _ => [(js "data", meta)]
       end) in
  redactSecrets (JSON_stringify entry).

(** Each method returns the calls it makes on [console]. *)
Definition info (this : Logger) (message : jsstring) (meta : JSValue)
  : list ConsoleCall :=
  [console_log (format this level_info message meta)].

Definition warn (this : Logger) (message : jsstring) (meta : JSValue)
  : list ConsoleCall :=
  [console_warn (format this level_warn message meta)].

Definition error (this : Logger) (message : jsstring) (meta : JSValue)
  : list ConsoleCall :=
  [console_error (format this level_error message meta)].

Definition debug (this : Logger) (message : jsstring) (meta : JSValue)
  : list ConsoleCall :=
  if negb (is_production NODE_ENV)
  then [console_debug (format this level_debug message meta)]
  else [].

Definition child (this : Logger) (additionalContext : LogContext) : Logger :=
  {| context := spread (context this) additionalContext |}.

End Logger.

End logger.

(* ===================================================================== *)
(** ** Error envelope (errors) *)
(* ===================================================================== *)

Module errors.

(** The [error] member of the body; [details] is the optional field. *)
Record ErrorInfo := {
  code : jsstring;
  message : jsstring;
  requestId : jsstring;
  details : option JSValue
}.

Record ErrorResponse := { error : ErrorInfo }.

(** What [new Response(body, { status, headers })] is given. *)
Record Response := {
  status : Z;
  headers : list (jsstring * jsstring);
  body : jsstring
}.

(** [response.headers.get(name)] for a name written as in the code. *)
Definition header (name : jsstring) (r : Response) : option jsstring :=
  snd <$> find (λ kv, bool_decide (fst kv = name)) (headers r).

Section Envelope.

Variable JSON_stringify : ErrorResponse → jsstring.
Variable NODE_ENV : Env.
(** The identifier that [crypto.randomUUID()] returns if it is called. *)
Variable randomUUID : jsstring.

(** [status] and [requestId] are the optional parameters: [None] when
    the argument is omitted. *)
Definition createErrorResponse (code : jsstring) (message : JSValue)
    (status : option Z) (requestId : option jsstring) : Response :=
  let status := default 500 status in
  let id :=
    match requestId with
    | Some r => if truthy r then r else logger.generateRequestId randomUUID
    | None => logger.generateRequestId randomUUID
    end in
  let isProduction := is_production NODE_ENV in
  let body :=
    {| error :=
         {| code := code;
            message := match message with
                       | JString m => m
                       | _ => js "An error occurred"
                       end;
            requestId := id;
            details := None |} |} in
  let body :=
    if negb isProduction && negb (is_string message)
    then {| error := {| code := errors.code (error body);
                        message := errors.message (error body);
                        requestId := errors.requestId (error body);
                        details := Some message |} |}
    else body in
  {| status := status;
     headers := [(js "Content-Type", js "application/json");
                 (js "X-Request-ID", id)];
     body := JSON_stringify body |}.

End Envelope.

(** The request identifier of a response: the argument when it is a
    non-empty string, otherwise the generated one. *)
Definition effective_id (randomUUID : jsstring) (requestId : option jsstring)
  : jsstring :=
  match requestId with
  | Some (c :: r) => c :: r
  | _ => randomUUID
  end.

End errors.

(* ===================================================================== *)
(** ** Notions used in the analysis of the patterns *)
(* ===================================================================== *)

Module analysis.

Import logger.

(** *** Matching without giving back

    The patterns of the repository are analysed through matchers that
    never give a character back.  The agreement of the two on every
    pattern of the code is proved below. *)

(** One character of a class. *)
Definition one (f : N → bool) : matcher := λ s,
  match s with
  | c :: s' => if f c then Some s' else None
  | [] => None
  end.

(** The text after the longest run of a class. *)
Fixpoint skip (f : N → bool) (s : jsstring) : jsstring :=
  match s with
  | c :: s' => if f c then skip f s' else s
  | [] => []
  end.

Definition star (f : N → bool) : matcher := λ s, Some (skip f s).

Definition plus (f : N → bool) : matcher := λ s,
  match s with
  | c :: s' => if f c then Some (skip f s') else None
  | [] => None
  end.

Definition opt (m : matcher) : matcher := λ s,
  match m s with Some r => Some r | None => Some s end.

Fixpoint alt (ms : list matcher) : matcher := λ s,
  match ms with
  | [] => None
  | m :: ms' => match m s with Some r => Some r | None => alt ms' s end
  end.

Fixpoint cat (ms : list matcher) : matcher := λ s,
  match ms with
  | [] => Some s
  | m :: ms' => match m s with Some r => cat ms' r | None => None end
  end.

Definition eos : matcher := λ s,
  match s with [] => Some [] | _ => None end.

Definition test_anchored (m : matcher) (s : jsstring) : bool :=
  match m s with Some _ => true | None => false end.

Fixpoint possessive (ci : bool) (r : regex) : matcher :=
  match r with
  | Str p => lit ci p
  | Cls f => one f
  | Star f => star f
  | Plus f => plus f
  | Opt r => opt (possessive ci r)
  | Alt rs => alt (map (possessive ci) rs)
  | Cat rs => cat (map (possessive ci) rs)
  | Eos => eos
  end.

Definition possessive_of (re : RegExp) : matcher :=
  possessive (ignoreCase re) (source re).

(** Backtracking into [r] before the continuation [K] finds nothing
    new. *)
Definition follows (ci : bool) (r : regex) (K : continuation) : Prop :=
  ∀ s k, (∀ x, k x = K x) → bt ci r s k = possessive ci r s ≫= K.

(** The two situations in which a greedy repetition of the class [f]
    gives nothing back: what follows always matches, or what follows
    never matches at a character of the class. *)
Definition settled (f : N → bool) (K : continuation) : Prop :=
  (∀ x, K x ≠ None) ∨ (∀ c x, f c = true → K (c :: x) = None).

Definition PRIVATE_IP_MATCHERS : list matcher :=
  map possessive_of ssrf.PRIVATE_IP_RANGES.

Definition SENSITIVE_MATCHERS : list matcher :=
  map possessive_of SENSITIVE_PATTERNS.

(** A pattern that consumes at least one character when it matches. *)
Definition consuming (m : matcher) : Prop :=
  ∀ s r, m s = Some r → ∃ pre, pre ≠ [] ∧ s = pre ++ r.

(** No match of [m] starts anywhere in [s]. *)
Definition clean (m : matcher) (s : jsstring) : Prop :=
  ∀ x, x `suffix_of` s → m x = None.

(** Where the text and its replacement first differ, the text has a match
    and the replacement has the marker. *)
Definition diverge (p : matcher) (R s t : jsstring) : Prop :=
  t = s ∨ ∃ w x t2, s = w ++ x ∧ p x ≠ None ∧ t = w ++ R ++ t2.

(** [K] is not affected when the opening bracket of a marker that follows
    [w] is replaced by a character of class [A]. *)
Definition stable (A : N → Prop) (K : matcher) : Prop :=
  ∀ w t2 r, K (w ++ 91%N :: t2) = Some r →
    ∃ w', r = w' ++ 91%N :: t2
          ∧ ∀ a z, A a → K (w ++ a :: z) = Some (w' ++ a :: z).

Definition failstable (A : N → Prop) (K : matcher) : Prop :=
  ∀ w t2, K (w ++ 91%N :: t2) = None →
    ∀ a z, A a → K (w ++ a :: z) = None.

(** First characters of matches: of any pattern, and of the
    connection-string patterns. *)
Definition is_initial (a : N) : bool :=
  existsb (λ l, ci_eqb l a) (js "ptascm").

Definition is_conn_initial (a : N) : bool :=
  existsb (λ l, ci_eqb l a) (js "pm").

Definition kv_tail : list matcher := [plus is_sep; star is_value].
Definition auth_tail : list matcher := [plus non_space].
Definition conn_tail : list matcher := [plus is_cred; lit true (js "@")].

Definition reflects (q p : matcher) : Prop :=
  ∀ s t, diverge p REDACTED s t → q t ≠ None → q s ≠ None.

Definition head_in (A : N → Prop) (p : matcher) : Prop :=
  ∀ x, p x ≠ None → ∃ a x', x = a :: x' ∧ A a.

(** A match is a run of credential characters closed by an at sign. *)
Definition cred_match (p : matcher) : Prop :=
  ∀ x, p x ≠ None →
    ∃ run s3, x = run ++ 64%N :: s3 ∧ run ≠ [] ∧ forallb is_cred run = true.

Definition advancing (m : matcher) : Prop :=
  ∀ s r, m s = Some r → ∃ pre, s = pre ++ r.

(** A pattern that consumes credential characters only. *)
Definition cred_only (m : matcher) : Prop :=
  ∀ s r, m s = Some r → ∃ pre, s = pre ++ r ∧ forallb is_cred pre = true.

(** A pattern character whose matches are credential characters. *)
Definition cred_lit (l : N) : bool :=
  is_cred l
  && (if ((97 <=? l) && (l <=? 122))%N then is_cred (l - 32) else true)
  && negb ((65 <=? l) && (l <=? 90))%N.

(** No match of [q] starts inside the marker. *)
Definition avoids_marker (q : matcher) : Prop :=
  ∀ T x, x `suffix_of` REDACTED ++ T → x `suffix_of` T ∨ q x = None.

(** The key-value and authorization patterns, and the connection-string
    patterns. *)
Definition early (q : matcher) : Prop :=
  consuming q ∧ avoids_marker q ∧ head_in (λ a, is_initial a = true) q
  ∧ ∃ Ks, (q = cat (Ks ++ kv_tail) ∨ q = cat (Ks ++ auth_tail))
          ∧ stable (λ a, is_initial a = true) (cat Ks).

Definition late (q : matcher) : Prop :=
  consuming q ∧ avoids_marker q ∧ head_in (λ a, is_conn_initial a = true) q
  ∧ cred_match q
  ∧ ∃ Ks, q = cat (Ks ++ conn_tail)
          ∧ stable (λ a, is_conn_initial a = true) (cat Ks).

(** A match of [p] ends at the end of the text or before a character
    outside the value class. *)
Definition ends_value (p : matcher) : Prop :=
  ∀ x r, p x = Some r →
    match r with [] => True | d :: _ => is_value d = false end.

(** No character of [v] occurs in [s]. *)
Definition absent (v s : jsstring) : bool :=
  forallb (λ c, negb (includes [c] s)) v.

Definition free (v s : jsstring) : Prop := ∀ c, c ∈ v → c ∉ s.

(** The text holds the key followed by a run of value characters, and
    no character of [v] outside that run. *)
Definition held (v key t : jsstring) : Prop :=
  ∃ l u b, t = l ++ key ++ u ++ b ∧ free v l ∧ free v b
           ∧ forallb is_value u = true.

Definition redact_with (ps : list matcher) (s : jsstring) : jsstring :=
  fold_left (λ redacted pattern, replace pattern REDACTED redacted) ps s.

End analysis.

(* ===================================================================== *)
(** ** Numbers and their texts *)
(* ===================================================================== *)

Module JSNumber.

(** The numbers of the code are counts, status codes, byte sizes and
    millisecond clock values: integers, far inside the range in which a
    JavaScript number is exact and is printed in plain decimal. *)

(** [String(n)] and [`${n}`] for an integer [n]. *)
Definition NumberToString (n : Z) : jsstring :=
  js (NilZero.string_of_int (Z.to_int n)).

(** [Math.ceil(a / b)] for integers [a] and [b] with [b] positive. *)
Definition ceil_div (a b : Z) : Z := - ((- a) / b).

(** The value of the longest run of decimal digits at the start of [s],
    after the digits read so far. *)
Fixpoint digits_value (acc : Z) (s : jsstring) : Z :=
  match s with
  | c :: s' =>
      if ssrf.is_digit c
      then digits_value (10 * acc + Z.of_N (c - 48)) s'
      else acc
  | [] => acc
  end.

(** [parseInt(s, 10)]: leading white space is skipped, a sign is read,
    then the longest run of digits; [None] is [NaN]. *)
Definition parseInt (s : jsstring) : option Z :=
  let s := trim_start s in
  let '(sign, s) :=
    match s with
    | 45%N :: s' => (-1, s')
    | 43%N :: s' => (1, s')
    | _ => (1, s)
    end in
  match s with
  | c :: _ => if ssrf.is_digit c then Some (sign * digits_value 0 s) else None
  | [] => None
  end.

End JSNumber.

(* ===================================================================== *)
(** ** Rate-limit response (rate-limit.ts) *)
(* ===================================================================== *)

Module rate_limit_response.

Import JSNumber rate_limit rate_limit.InMemoryRateLimiter errors.

Record RateLimitConfig := { config_maxRequests : Z; config_windowMs : Z }.

Module RateLimitConfigs.
Definition standard := {| config_maxRequests := 100; config_windowMs := 60 * 1000 |}.
Definition strict := {| config_maxRequests := 10; config_windowMs := 60 * 1000 |}.
Definition relaxed := {| config_maxRequests := 1000; config_windowMs := 60 * 1000 |}.
Definition auth := {| config_maxRequests := 5; config_windowMs := 15 * 60 * 1000 |}.
End RateLimitConfigs.

(** [createRateLimiter(config)]; [None] is the omitted argument. *)
Definition createRateLimiter (config : option RateLimitConfig) : Limiter :=
  let config := default RateLimitConfigs.standard config in
  new (config_maxRequests config) (config_windowMs config).

Section CheckRateLimit.

Variable JSON_stringify : JSValue → jsstring.

(** [checkRateLimit(request, limiter)].  [now] is the clock read by
    [check], [later] the clock read for the [Retry-After] header; the
    result is [None] for [null]. *)
Definition checkRateLimit (now later : Z) (request : Request) (limiter : Limiter)
  : option Response * Limiter :=
  let identifier := getClientIdentifier request in
  let '(result, limiter) := check now identifier limiter in
  if negb (allowed result) then
    let retryAfter := ceil_div (rate_limit.reset result - later) 1000 in
    (Some {| status := 429;
             headers := [
               (js "Content-Type", js "application/json");
               (js "Retry-After", NumberToString (Z.max 1 retryAfter));
               (js "X-RateLimit-Limit", NumberToString (limit result));
               (js "X-RateLimit-Remaining", NumberToString (remaining result));
               (js "X-RateLimit-Reset", NumberToString (rate_limit.reset result))];
             body := JSON_stringify (JObject [
               (js "error", JObject [
                  (js "code", JString (js "RATE_LIMIT_EXCEEDED"));
                  (js "message",
                   JString (js "Too many requests. Please try again later."))])])
          |}, limiter)
  else (None, limiter).

End CheckRateLimit.

(** What an operation at clock value [now] adds to the log of allowed
    checks: the clock value and the identifier of a check that is
    allowed. *)
Definition logged (now : Z) (op : Op) (l : Limiter) : list (Z * jsstring) :=
  match op with
  | OpCheck identifier =>
      if allowed (fst (check now identifier l)) then [(now, identifier)] else []
  | _ => []
  end.

(** A run of operations at the given clock values, with the log of its
    allowed checks. *)
Fixpoint run (ops : list (Z * Op)) (l : Limiter)
  : list (Z * jsstring) * Limiter :=
  match ops with
  | [] => ([], l)
  | (now, op) :: ops' =>
      let '(log, l') := run ops' (step now op l) in
      (logged now op l ++ log, l')
  end.

(** The allowed checks of [identifier] in the log whose clock value lies
    in the window of length [w] that ends at [t]. *)
Definition allowed_in_window (w t : Z) (identifier : jsstring)
    (log : list (Z * jsstring)) : list (Z * jsstring) :=
  filter (λ e, e.2 = identifier ∧ t - w < e.1 ≤ t) log.

(** The log and the limiter agree at clock value [t0]: no logged check
    is later than [t0], the stored list of [identifier] and its logged
    checks hold the same clock values above every bound from
    [t0 - w] on, and no window holds more than the quota. *)
Definition tracks (mx w : Z) (identifier : jsstring) (t0 : Z)
    (l : Limiter) (log : list (Z * jsstring)) : Prop :=
  maxRequests l = mx ∧ windowMs l = w
  ∧ Forall (λ e, e.1 ≤ t0) log
  ∧ (∀ bound, t0 - w ≤ bound →
       filter (λ ts, bound < ts) (default [] (requests l !! identifier))
       = (filter (λ e, e.2 = identifier ∧ bound < e.1) log).*1)
  ∧ (∀ t, Z.of_nat (length (allowed_in_window w t identifier log))
          ≤ Z.max 0 mx).

(** The shape of a stored list: not empty, within the quota, in the
    order of the clock and not later than [now]. *)
Definition well_stored (mx now : Z) (tss : list Z) : Prop :=
  tss ≠ [] ∧ Z.of_nat (length tss) ≤ mx
  ∧ StronglySorted Z.le tss ∧ Forall (λ ts, ts ≤ now) tss.

End rate_limit_response.

(* ===================================================================== *)
(** ** CSRF tokens (rate-limit.ts) *)
(* ===================================================================== *)

Module csrf.

Definition TOKEN_LENGTH : nat := 32.

Definition is_high_surrogate (c : N) : bool := ((55296 <=? c) && (c <=? 56319))%N.
Definition is_low_surrogate (c : N) : bool := ((56320 <=? c) && (c <=? 57343))%N.

(** The UTF-8 bytes of a code point. *)
Definition utf8_of_code_point (cp : N) : list N :=
  (if cp <? 128 then [cp]
   else if cp <? 2048 then [192 + cp / 64; 128 + cp mod 64]
   else if cp <? 65536 then
     [224 + cp / 4096; 128 + (cp / 64) mod 64; 128 + cp mod 64]
   else [240 + cp / 262144; 128 + (cp / 4096) mod 64;
         128 + (cp / 64) mod 64; 128 + cp mod 64])%N.

(** The bytes of U+FFFD, written for a surrogate without its partner. *)
Definition replacement_bytes : list N := [239; 191; 189]%N.

(** [Buffer.from(s, 'utf-8')]. *)
Fixpoint Buffer_from (s : jsstring) : list N :=
  match s with
  | [] => []
  | c :: s' =>
      if is_high_surrogate c then
        match s' with
        | d :: s'' =>
            if is_low_surrogate d
            then utf8_of_code_point
                   (65536 + (c - 55296) * 1024 + (d - 56320))%N
                 ++ Buffer_from s''
            else replacement_bytes ++ Buffer_from s'
        | [] => replacement_bytes
        end
      else if is_low_surrogate c then replacement_bytes ++ Buffer_from s'
      else utf8_of_code_point c ++ Buffer_from s'
  end.

(** [timingSafeEqual(a, b)]: [None] when it throws, which it does for
    buffers of different lengths. *)
Definition timingSafeEqual (a b : list N) : option bool :=
  if (length a =? length b)%nat then Some (bool_decide (a = b)) else None.

Definition validateCsrfToken (token expected : jsstring) : bool :=
  if negb (truthy token) || negb (truthy expected) then false
  else if negb (length token =? length expected)%nat then false
  else
    let tokenBuffer := Buffer_from token in
    let expectedBuffer := Buffer_from expected in
    match timingSafeEqual tokenBuffer expectedBuffer with
    | Some equal => equal
    | None => false
    end.

(** A hexadecimal digit, in lower case. *)
Definition hex_digit (n : N) : N :=
  (if n <? 10 then 48 + n else 87 + n)%N.

(** [buffer.toString('hex')]. *)
Definition toString_hex (bytes : list N) : jsstring :=
  flat_map (λ b, [hex_digit (b / 16); hex_digit (b mod 16)]%N) bytes.

(** [generateCsrfToken()], with [random] the bytes that
    [randomBytes(TOKEN_LENGTH)] returns. *)
Definition generateCsrfToken (random : list N) : jsstring :=
  toString_hex random.

End csrf.

(* ===================================================================== *)
(** ** Cookie configuration (logger.ts) *)
(* ===================================================================== *)

Module cookies.

Inductive SameSite := strict | lax | none.

(** The [sameSite] member of a [ResponseCookie]: a boolean or one of the
    three texts. *)
Inductive SameSiteValue :=
| SameSiteBool (b : bool)
| SameSiteText (s : SameSite).

Module SecureCookieOptions.
Record t := {
  value : jsstring;
  maxAge : option Z;
  path : option jsstring;
  domain : option jsstring;
  sameSite : option SameSite;
  httpOnly : option bool
}.
End SecureCookieOptions.

(** A cookie configuration; a member that is absent is [None]. *)
Module ResponseCookie.
Record t := {
  name : option jsstring;
  value : option jsstring;
  httpOnly : option bool;
  secure : option bool;
  sameSite : option SameSiteValue;
  path : option jsstring;
  maxAge : option Z;
  domain : option jsstring
}.
End ResponseCookie.

Import ResponseCookie.

Section Cookies.

Variable NODE_ENV : Env.

Definition getSecureCookieConfig (options : SecureCookieOptions.t) : t :=
  let isProduction := is_production NODE_ENV in
  {| name := Some [];
     value := Some (SecureCookieOptions.value options);
     httpOnly := Some (default true (SecureCookieOptions.httpOnly options));
     secure := Some isProduction;
     sameSite :=
       Some (SameSiteText (default lax (SecureCookieOptions.sameSite options)));
     path := Some (default (js "/") (SecureCookieOptions.path options));
     maxAge := Some (default (60 * 60 * 24) (SecureCookieOptions.maxAge options));
     domain :=
       match SecureCookieOptions.domain options with
       | Some d => if truthy d then Some d else None
       | None => None
       end |}.

Definition createSessionCookie (value : jsstring) : t :=
  let isProduction := is_production NODE_ENV in
  {| name := None;
     value := Some value;
     httpOnly := Some true;
     secure := Some isProduction;
     sameSite := Some (SameSiteText lax);
     path := Some (js "/");
     maxAge := None;
     domain := None |}.

(** [maxAgeDays] is [None] when the argument is omitted. *)
Definition createPersistentCookie (value : jsstring) (maxAgeDays : option Z) : t :=
  let maxAgeDays := default 30 maxAgeDays in
  let isProduction := is_production NODE_ENV in
  {| name := None;
     value := Some value;
     httpOnly := Some true;
     secure := Some isProduction;
     sameSite := Some (SameSiteText lax);
     path := Some (js "/");
     maxAge := Some (maxAgeDays * 24 * 60 * 60);
     domain := None |}.

Definition createStrictCookie (value : jsstring) (maxAge : option Z) : t :=
  let maxAge := default (60 * 60) maxAge in
  let isProduction := is_production NODE_ENV in
  {| name := None;
     value := Some value;
     httpOnly := Some true;
     secure := Some isProduction;
     sameSite := Some (SameSiteText strict);
     path := Some (js "/");
     maxAge := Some maxAge;
     domain := None |}.

Definition createDeleteCookie : t :=
  {| name := None;
     value := Some [];
     httpOnly := Some true;
     secure := Some (is_production NODE_ENV);
     sameSite := Some (SameSiteText lax);
     path := Some (js "/");
     maxAge := Some 0;
     domain := None |}.

(** Truthiness of an optional boolean member. *)
Definition flag (b : option bool) : bool := default false b.

(** Truthiness of the [sameSite] member: the three texts are truthy. *)
Definition sameSite_truthy (s : option SameSiteValue) : bool :=
  match s with
  | Some (SameSiteBool b) => b
  | Some (SameSiteText _) => true
  | None => false
  end.

(** [sameSite === 'none']. *)
Definition is_none (s : option SameSiteValue) : bool :=
  match s with
  | Some (SameSiteText none) => true
  | _ => false
  end.

Definition warning_httpOnly : jsstring :=
  js "Cookie should have HttpOnly flag to prevent XSS attacks".
Definition warning_secure : jsstring :=
  js "Cookie should have Secure flag in production".
Definition warning_sameSite : jsstring :=
  js "Cookie should have SameSite attribute (use " ++ [34%N] ++ js "lax"
  ++ [34%N] ++ js " or " ++ [34%N] ++ js "strict" ++ [34%N] ++ js ")".
Definition warning_none : jsstring :=
  js "SameSite=None requires Secure flag".

Definition validateCookieSecurity (cookie : t) : list jsstring :=
  let warnings := [] in
  let isProduction := is_production NODE_ENV in
  let warnings :=
    if negb (flag (httpOnly cookie))
    then warnings ++ [warning_httpOnly] else warnings in
  let warnings :=
    if isProduction && negb (flag (secure cookie))
    then warnings ++ [warning_secure] else warnings in
  let warnings :=
    if negb (sameSite_truthy (sameSite cookie))
    then warnings ++ [warning_sameSite] else warnings in
  let warnings :=
    if is_none (sameSite cookie) && negb (flag (secure cookie))
    then warnings ++ [warning_none] else warnings in
  warnings.

End Cookies.

End cookies.

(* ===================================================================== *)
(** ** Objects *)
(* ===================================================================== *)

Module JSObject.

Import JSNumber.

(** Reading a member of an object: [undefined] when it is absent. *)
Definition get_property (k : jsstring) (o : list (jsstring * JSValue)) : JSValue :=
  from_option snd JUndefined (find (λ kv, bool_decide (fst kv = k)) o).

(** The members that [{ ...v }] copies from a value: those of an object,
    the characters of a string under their indices, nothing otherwise. *)
Definition own_properties (v : JSValue) : list (jsstring * JSValue) :=
  match v with
  | JObject fields => fields
  | JString s => imap (λ i c, (NumberToString (Z.of_nat i), JString [c])) s
  | _ => []
  end.

(** The text that a call of [console] writes. *)
Definition line (call : logger.ConsoleCall) : jsstring :=
  match call with
  | logger.console_log text | logger.console_warn text
  | logger.console_error text | logger.console_debug text => text
  end.

(** The member [k] of the first of the objects that has one. *)
Fixpoint first_of (k : jsstring) (objects : list (list (jsstring * JSValue)))
  : JSValue :=
  match objects with
  | [] => JUndefined
  | o :: objects' =>
      if bool_decide (k ∈ o.*1) then get_property k o else first_of k objects'
  end.

(** The members that a log entry takes from [meta]: those of an object,
    and the value itself under [data] otherwise. *)
Definition meta_members (meta : JSValue) : list (jsstring * JSValue) :=
  match meta with
  | JObject fields => fields
  | _ => [(js "data", meta)]
  end.

End JSObject.

(* ===================================================================== *)
(** ** Guarded fetch (ssrf.ts) *)
(* ===================================================================== *)

Module safe_fetch.

Import JSNumber JSObject ssrf.

(** A [RequestInit] object, as its list of members. *)
Abbreviation RequestInit := (list (jsstring * JSValue)).

(** The options of a guarded fetch; a member that is absent is [None]. *)
Record SafeFetchOptions := {
  timeout : option Z;
  maxSize : option Z;
  maxRedirects : option Z;
  fetchOptions : option RequestInit
}.

Definition DEFAULT_OPTIONS : SafeFetchOptions :=
  {| timeout := Some 5000;
     maxSize := Some (10 * 1024 * 1024);
     maxRedirects := Some 5;
     fetchOptions := Some [] |}.

(** [{ ...defaults, ...options }]. *)
Definition merge (defaults options : SafeFetchOptions) : SafeFetchOptions :=
  {| timeout := from_option Some (timeout defaults) (timeout options);
     maxSize := from_option Some (maxSize defaults) (maxSize options);
     maxRedirects :=
       from_option Some (maxRedirects defaults) (maxRedirects options);
     fetchOptions :=
       from_option Some (fetchOptions defaults) (fetchOptions options) |}.

(** What a promise of the runtime is rejected with: an [Error] object
    with its name and message, or a value that is not an [Error]. *)
Inductive Thrown :=
| ThrownError (name message : jsstring)
| ThrownValue.

(** The members of a fetch response that the code reads.  The headers
    are stored under their lower-case names; [json] is the outcome of
    [response.json()]. *)
Record FetchResponse := {
  status : Z;
  statusText : jsstring;
  headers : gmap jsstring jsstring;
  json : Thrown + JSValue
}.

(** [response.ok]. *)
Definition ok (response : FetchResponse) : bool :=
  (200 <=? status response) && (status response <=? 299).

(** One call of [fetch]: the address and the options it is given.  The
    [signal] member, which [safeFetch] always sets to the signal of its
    own timer, is not listed: the timer is the [timeout] given to the
    network below. *)
Record FetchCall := { call_url : jsstring; call_init : RequestInit }.

(** [{ ...fetchOptions, signal, redirect: 'manual' }] without its
    [signal] member. *)
Definition fetch_init (fetchOptions : RequestInit) : RequestInit :=
  logger.spread
    (filter (λ member, member.1 ≠ js "signal") fetchOptions)
    [(js "redirect", JString (js "manual"))].

(** The [catch] clause of [safeFetch] on an error that is not an
    [SSRFError]. *)
Definition rethrow (timeout : Z) (error : Thrown) : SSRFError :=
  match error with
  | ThrownError name message =>
      if str_eqb name (js "AbortError")
      then {| ssrf.message :=
                js "Request timeout after " ++ NumberToString timeout ++ js "ms" |}
      else {| ssrf.message := js "Fetch failed: " ++ message |}
  | ThrownValue => {| ssrf.message := js "Fetch failed: Unknown error" |}
  end.

Section SafeFetch.

(** [new URL(s)] and [url.toString()] of the runtime. *)
Variable URL_new : jsstring → option URL.
Variable URL_toString : URL → jsstring.
(** [new URL(location, base).toString()]; [inl message] when the
    constructor throws its [TypeError]. *)
Variable URL_resolve : jsstring → URL → jsstring + jsstring.

(** The network.  [fetch world url init timeout] is the outcome of
    awaiting [fetch(url, init)] with a signal that is aborted after
    [timeout] milliseconds, and the network after the call. *)
Variable World : Type.
Variable fetch :
  World → jsstring → RequestInit → Z → (Thrown + FetchResponse) * World.

(** The body of [safeFetch].  The result is the rejection or the
    response of the returned promise, the calls of [fetch] in order and
    the network afterwards.  [steps] bounds the depth of the recursion;
    [None] is returned when it is exhausted. *)
Fixpoint safeFetch_steps (steps : nat) (world : World) (urlString : jsstring)
    (options : SafeFetchOptions)
  : option ((SSRFError + FetchResponse) * list FetchCall * World) :=
  match steps with
  | O => None
  | S steps' =>
      let merged := merge DEFAULT_OPTIONS options in
      let timeout := default 0 (timeout merged) in
      let maxSize := default 0 (maxSize merged) in
      let maxRedirects := default 0 (maxRedirects merged) in
      let fetchOptions := default [] (fetchOptions merged) in
      match validateUrl URL_new urlString with
      | inl error => Some (inl error, [], world)
      | inr url =>
          let init := fetch_init fetchOptions in
          let call := {| call_url := URL_toString url; call_init := init |} in
          let '(settled, world) := fetch world (URL_toString url) init timeout in
          match settled with
          | inl error => Some (inl (rethrow timeout error), [call], world)
          | inr response =>
              if (300 <=? status response) && (status response <? 400) then
                let location := headers response !! js "location" in
                if negb (from_option truthy false location) then
                  Some (inl {| ssrf.message :=
                                 js "Redirect without location header" |},
                        [call], world)
                else if maxRedirects <=? 0 then
                  Some (inl {| ssrf.message := js "Too many redirects" |},
                        [call], world)
                else
                  match URL_resolve (default [] location) url with
                  | inl message =>
                      Some (inl (rethrow timeout
                                   (ThrownError (js "TypeError") message)),
                            [call], world)
                  | inr redirectUrl =>
                      match
                        safeFetch_steps steps' world redirectUrl
                          {| safe_fetch.timeout := safe_fetch.timeout options;
                             safe_fetch.maxSize := safe_fetch.maxSize options;
                             safe_fetch.maxRedirects := Some (maxRedirects - 1);
                             safe_fetch.fetchOptions :=
                               safe_fetch.fetchOptions options |}
                      with
                      | Some (result, calls, world) =>
                          Some (result, call :: calls, world)
                      | None => None
                      end
                  end
              else
                let contentLength := headers response !! js "content-length" in
                let too_large :=
                  if from_option truthy false contentLength then
                    match parseInt (default [] contentLength) with
                    | Some size =>
                        if maxSize <? size then Some size else None
                    | None => None
                    end
                  else None in
                match too_large with
                | Some size =>
                    Some (inl {| ssrf.message :=
                                   js "Response too large: "
                                   ++ NumberToString size
                                   ++ js " bytes (max: "
                                   ++ NumberToString maxSize ++ js " bytes)" |},
                          [call], world)
                | None => Some (inr response, [call], world)
                end
          end
      end
  end.

(** [safeFetch(urlString, options)]: every redirect that is followed
    lowers [maxRedirects] by one, so one step more than its value is
    enough. *)
Definition safeFetch (world : World) (urlString : jsstring)
    (options : SafeFetchOptions)
  : option ((SSRFError + FetchResponse) * list FetchCall * World) :=
  safeFetch_steps
    (S (Z.to_nat (default 0 (maxRedirects (merge DEFAULT_OPTIONS options)))))
    world urlString options.

(** The options that [safeFetchJson] passes on: those it is given, with
    an [Accept] header put before the headers of the caller. *)
Definition json_options (options : SafeFetchOptions) : SafeFetchOptions :=
  let given := default [] (fetchOptions options) in
  let headers :=
    logger.spread [(js "Accept", JString (js "application/json"))]
      (match fetchOptions options with
       | Some init => own_properties (get_property (js "headers") init)
       | None => []
       end) in
  {| timeout := timeout options;
     maxSize := maxSize options;
     maxRedirects := maxRedirects options;
     fetchOptions :=
       Some (logger.spread given [(js "headers", JObject headers)]) |}.

(** The outcome of [safeFetchJson]: rejected with an [SSRFError],
    rejected by [response.json()], or the parsed data. *)
Inductive JsonOutcome :=
| JsonRefused (error : SSRFError)
| JsonRejected (error : Thrown)
| JsonData (data : JSValue).

Definition safeFetchJson (world : World) (urlString : jsstring)
    (options : SafeFetchOptions)
  : option (JsonOutcome * list FetchCall * World) :=
  match safeFetch world urlString (json_options options) with
  | Some (inl error, calls, world) => Some (JsonRefused error, calls, world)
  | Some (inr response, calls, world) =>
      if negb (ok response) then
        Some (JsonRefused
                {| ssrf.message :=
                     js "HTTP error: " ++ NumberToString (status response)
                     ++ js " " ++ statusText response |},
              calls, world)
      else
        Some (match json response with
              | inl error => JsonRejected error
              | inr data => JsonData data
              end, calls, world)
  | None => None
  end.

End SafeFetch.

(** The options that every call of [fetch] of a run is given. *)
Definition init_of (options : SafeFetchOptions) : RequestInit :=
  fetch_init (default [] (fetchOptions (merge DEFAULT_OPTIONS options))).

(** The number of redirects that the options allow, and the options of
    the call that follows a redirect. *)
Definition redirects_allowed (options : SafeFetchOptions) : Z :=
  default 0 (maxRedirects (merge DEFAULT_OPTIONS options)).

Definition followed (options : SafeFetchOptions) : SafeFetchOptions :=
  {| timeout := timeout options;
     maxSize := maxSize options;
     maxRedirects := Some (redirects_allowed options - 1);
     fetchOptions := fetchOptions options |}.

(** The size that a response declares is at most [limit], when it
    declares one. *)
Definition declares_at_most (limit : Z) (response : FetchResponse) : Prop :=
  ∀ text size,
    headers response !! js "content-length" = Some text →
    text ≠ [] → parseInt text = Some size → size ≤ limit.

Section Guarded.

Variable URL_new : jsstring → option URL.
Variable URL_toString : URL → jsstring.

(** A call of [fetch] made on an address that the guard has accepted,
    without following redirects. *)
Definition guarded (call : FetchCall) : Prop :=
  (∃ urlString url,
     validateUrl URL_new urlString = inr url
     ∧ call_url call = URL_toString url)
  ∧ get_property (js "redirect") (call_init call) = JString (js "manual").

End Guarded.

End safe_fetch.

(* ===================================================================== *)
(** ** Responses and error shortcuts (errors) *)
(* ===================================================================== *)

Module error_helpers.

Import JSNumber errors.

Module ErrorCodes.
Definition VALIDATION_ERROR := js "VALIDATION_ERROR".
Definition INVALID_JSON := js "INVALID_JSON".
Definition INVALID_PARAMS := js "INVALID_PARAMS".
Definition UNAUTHORIZED := js "UNAUTHORIZED".
Definition FORBIDDEN := js "FORBIDDEN".
Definition NOT_FOUND := js "NOT_FOUND".
Definition RATE_LIMIT_EXCEEDED := js "RATE_LIMIT_EXCEEDED".
Definition CSRF_VALIDATION_FAILED := js "CSRF_VALIDATION_FAILED".
Definition INTERNAL_ERROR := js "INTERNAL_ERROR".
Definition DATABASE_ERROR := js "DATABASE_ERROR".
Definition SSRF_VIOLATION := js "SSRF_VIOLATION".
End ErrorCodes.

(** [AppError]: [statusCode] is [None] in the constructor when the
    argument is omitted. *)
Record AppError := {
  app_code : jsstring;
  app_message : jsstring;
  statusCode : Z
}.

Definition AppError_new (code message : jsstring) (statusCode : option Z)
  : AppError :=
  {| app_code := code; app_message := message;
     statusCode := default 500 statusCode |}.

Section Helpers.

Variable JSON_stringify : ErrorResponse → jsstring.
(** [JSON.stringify] on the other bodies. *)
Variable JSON_stringify_value : JSValue → jsstring.
Variable NODE_ENV : Env.
Variable randomUUID : jsstring.

Definition createSuccessResponse (data : JSValue) (status : option Z)
    (requestId : option jsstring) : Response :=
  let status := default 200 status in
  let id :=
    match requestId with
    | Some r => if truthy r then r else logger.generateRequestId randomUUID
    | None => logger.generateRequestId randomUUID
    end in
  {| status := status;
     headers := [(js "Content-Type", js "application/json");
                 (js "X-Request-ID", id)];
     body := JSON_stringify_value (JObject [(js "data", data)]) |}.

Definition toResponse (this : AppError) (requestId : option jsstring)
  : Response :=
  createErrorResponse JSON_stringify NODE_ENV randomUUID
    (app_code this) (JString (app_message this)) (Some (statusCode this))
    requestId.

(** The shortcuts of [Errors]. *)

Definition Errors_validation (details : JSValue) : Response :=
  createErrorResponse JSON_stringify NODE_ENV randomUUID
    ErrorCodes.VALIDATION_ERROR details (Some 400) None.

(** The message is [None] when the argument is omitted. *)
Definition Errors_unauthorized (message : option jsstring) : Response :=
  createErrorResponse JSON_stringify NODE_ENV randomUUID
    ErrorCodes.UNAUTHORIZED
    (JString (default (js "Authentication required") message)) (Some 401) None.

Definition Errors_forbidden (message : option jsstring) : Response :=
  createErrorResponse JSON_stringify NODE_ENV randomUUID
    ErrorCodes.FORBIDDEN
    (JString (default (js "Access denied") message)) (Some 403) None.

Definition Errors_notFound (message : option jsstring) : Response :=
  createErrorResponse JSON_stringify NODE_ENV randomUUID
    ErrorCodes.NOT_FOUND
    (JString (default (js "Resource not found") message)) (Some 404) None.

Definition Errors_rateLimit (retryAfter : Z) : Response :=
  {| status := 429;
     headers := [(js "Content-Type", js "application/json");
                 (js "Retry-After", NumberToString retryAfter)];
     body := JSON_stringify_value (JObject [
               (js "error", JObject [
                  (js "code", JString ErrorCodes.RATE_LIMIT_EXCEEDED);
                  (js "message", JString (js "Too many requests"))])]) |}.

Definition Errors_internal (requestId : option jsstring) : Response :=
  createErrorResponse JSON_stringify NODE_ENV randomUUID
    ErrorCodes.INTERNAL_ERROR
    (JString (js "An unexpected error occurred")) (Some 500) requestId.

End Helpers.

End error_helpers.

(* ===================================================================== *)
(** ** Input validation (validation.ts) *)
(* ===================================================================== *)

Module validation.

Import JSNumber errors error_helpers.

(** One element of the path of an issue: a member name or an index. *)
Inductive PathSegment :=
| PathKey (key : jsstring)
| PathIndex (index : Z).

(** The members of a Zod issue that the code reads. *)
Record ZodIssue := { path : list PathSegment; message : jsstring }.

Definition segment_text (segment : PathSegment) : jsstring :=
  match segment with
  | PathKey key => key
  | PathIndex index => NumberToString index
  end.

(** [parts.join(separator)]. *)
Fixpoint join (separator : jsstring) (parts : list jsstring) : jsstring :=
  match parts with
  | [] => []
  | [part] => part
  | part :: parts' => part ++ separator ++ join separator parts'
  end.

(** The members that every object inherits from [Object.prototype].
    Each is a function, or for [__proto__] the prototype itself: truthy,
    and without a [push] method. *)
Definition Object_prototype_names : list jsstring := [
  js "constructor"; js "__defineGetter__"; js "__defineSetter__";
  js "hasOwnProperty"; js "__lookupGetter__"; js "__lookupSetter__";
  js "isPrototypeOf"; js "propertyIsEnumerable"; js "toString";
  js "valueOf"; js "__proto__"; js "toLocaleString"
].

(** The own members of [formatted]: the messages under each path. *)
Abbreviation Formatted := (gmap jsstring (list jsstring)).

Definition issue_key (issue : ZodIssue) : jsstring :=
  let joined := join (js ".") (map segment_text (path issue)) in
  if truthy joined then joined else js "value".

(** The body of the loop of [formatZodErrors]; [None] when it throws a
    [TypeError], which it does when [formatted[path]] is an inherited
    member. *)
Definition formatZodErrors_issue (formatted : Formatted) (issue : ZodIssue)
  : option Formatted :=
  let path := issue_key issue in
  match formatted !! path with
  | Some messages => Some (<[path := messages ++ [message issue]]> formatted)
  | None =>
      if bool_decide (path ∈ Object_prototype_names) then None
      else Some (<[path := [message issue]]> formatted)
  end.

Fixpoint formatZodErrors_from (formatted : Formatted) (issues : list ZodIssue)
  : option Formatted :=
  match issues with
  | [] => Some formatted
  | issue :: issues' =>
      match formatZodErrors_issue formatted issue with
      | Some formatted => formatZodErrors_from formatted issues'
      | None => None
      end
  end.

Definition formatZodErrors (issues : list ZodIssue) : option Formatted :=
  formatZodErrors_from ∅ issues.

(** The messages of the issues filed under [path], in their order. *)
Definition messages_at (path : jsstring) (issues : list ZodIssue) : list jsstring :=
  message <$> filter (λ issue, issue_key issue = path) issues.

(** The record holds the messages of the issues [seen], by path. *)
Definition groups (seen : list ZodIssue) (formatted : Formatted) : Prop :=
  ∀ path, formatted !! path =
          if decide (messages_at path seen = []) then None
          else Some (messages_at path seen).

(** What [schema.parse] does: it returns the data, throws a [ZodError]
    with its issues, or throws something else, which may be a
    [SyntaxError]. *)
Inductive ParseOutcome (T : Type) :=
| Parsed (data : T)
| ThrowsZodError (issues : list ZodIssue)
| ThrowsSyntaxError
| ThrowsOther.

Arguments Parsed {T} data.
Arguments ThrowsZodError {T} issues.
Arguments ThrowsSyntaxError {T}.
Arguments ThrowsOther {T}.

Inductive ValidationResult (T : Type) :=
| Success (data : T)
| Failure (response : Response).

Arguments Success {T} data.
Arguments Failure {T} response.

(** What [request.json()] does. *)
Inductive BodyOutcome :=
| BodyJson (body : JSValue)
| BodySyntaxError
| BodyOtherError.

Section Validation.

Variable JSON_stringify : ErrorResponse → jsstring.
Variable NODE_ENV : Env.
Variable randomUUID : jsstring.
(** The members of the formatted record in the order of the runtime,
    each list of messages as an array. *)
Variable members : Formatted → list (jsstring * JSValue).

Context {T : Type}.
Variable schema_parse : JSValue → ParseOutcome T.

(** The response for a [ZodError]; [None] when [formatZodErrors]
    throws. *)
Definition zod_failure (issues : list ZodIssue) : option (ValidationResult T) :=
  match formatZodErrors issues with
  | Some formatted =>
      Some (Failure
              (createErrorResponse JSON_stringify NODE_ENV randomUUID
                 ErrorCodes.VALIDATION_ERROR (JObject (members formatted))
                 (Some 400) None))
  | None => None
  end.

Definition failure (code message : jsstring) : ValidationResult T :=
  Failure (createErrorResponse JSON_stringify NODE_ENV randomUUID
             code (JString message) (Some 400) None).

(** [validateBody(request, schema)], with [body] the outcome of
    [request.json()].  [None]: a [TypeError] leaves the function. *)
Definition validateBody (body : BodyOutcome) : option (ValidationResult T) :=
  match body with
  | BodyJson body =>
      match schema_parse body with
      | Parsed validated => Some (Success validated)
      | ThrowsZodError issues => zod_failure issues
      | ThrowsSyntaxError =>
          Some (failure ErrorCodes.INVALID_JSON
                  (js "Request body must be valid JSON"))
      | ThrowsOther =>
          Some (failure ErrorCodes.INVALID_JSON
                  (js "Failed to parse request body"))
      end
  | BodySyntaxError =>
      Some (failure ErrorCodes.INVALID_JSON
              (js "Request body must be valid JSON"))
  | BodyOtherError =>
      Some (failure ErrorCodes.INVALID_JSON (js "Failed to parse request body"))
  end.

(** [validateQuery(request, schema)], with [params] the object made from
    the search parameters of [request.url], [None] when [new URL]
    throws. *)
Definition validateQuery (params : option JSValue) : option (ValidationResult T) :=
  match params with
  | Some params =>
      match schema_parse params with
      | Parsed validated => Some (Success validated)
      | ThrowsZodError issues => zod_failure issues
      | ThrowsSyntaxError | ThrowsOther =>
          Some (failure ErrorCodes.INVALID_PARAMS (js "Invalid query parameters"))
      end
  | None =>
      Some (failure ErrorCodes.INVALID_PARAMS (js "Invalid query parameters"))
  end.

Definition validateParams (params : JSValue) : option (ValidationResult T) :=
  match schema_parse params with
  | Parsed validated => Some (Success validated)
  | ThrowsZodError issues => zod_failure issues
  | ThrowsSyntaxError | ThrowsOther =>
      Some (failure ErrorCodes.INVALID_PARAMS (js "Invalid route parameters"))
  end.

End Validation.

End validation.

(* ===================================================================== *)
(** * Properties *)
(* ===================================================================== *)

(** ** Rate limiter *)

Section RateLimiter.

Import rate_limit rate_limit.InMemoryRateLimiter.

Implicit Types (l : Limiter) (identifier : jsstring) (tss : list Z).

Lemma filter_window_id (w t0 now : Z) tss :
  Forall (λ ts, t0 ≤ ts) tss → now < t0 + w →
  filter (λ ts, now - w < ts) tss = tss.
Proof.
  intros Hall Hnow. induction Hall as [|ts tss Hts _ IH]; [done|].
  rewrite filter_cons_True by lia. by rewrite IH.
Qed.

Lemma check_in_window (w t0 now : Z) identifier l tss :
  windowMs l = w →
  default [] (requests l !! identifier) = tss →
  Forall (λ ts, t0 ≤ ts) tss → now < t0 + w →
  check now identifier l =
    if Z.of_nat (length tss) <? maxRequests l
    then ({| allowed := true;
             remaining := Z.max 0 (maxRequests l - Z.of_nat (length (tss ++ [now])));
             rate_limit.reset := now; limit := maxRequests l |},
          with_requests l (<[identifier := tss ++ [now]]> (requests l)))
    else ({| allowed := false;
             remaining := Z.max 0 (maxRequests l - Z.of_nat (length tss));
             rate_limit.reset := now; limit := maxRequests l |}, l).
Proof.
  intros Hw Hts Hall Hnow. unfold check. rewrite Hts, Hw.
  rewrite (filter_window_id w t0 now tss Hall Hnow).
  replace (now - w + w) with now by lia.
  by destruct (Z.of_nat (length tss) <? maxRequests l).
Qed.

Lemma check_seq_allowed (w t0 : Z) identifier times : ∀ l tss,
  windowMs l = w →
  default [] (requests l !! identifier) = tss →
  Forall (λ ts, t0 ≤ ts < t0 + w) tss →
  Forall (λ t, t0 ≤ t < t0 + w) times →
  Z.of_nat (length tss + length times) ≤ maxRequests l →
  ∃ l', check_seq times identifier l
          = (allowed_results (maxRequests l) (length tss) times, l')
        ∧ maxRequests l' = maxRequests l ∧ windowMs l' = w
        ∧ default [] (requests l' !! identifier) = tss ++ times.
Proof.
  induction times as [|now times IH]; intros l tss Hw Hts Hall Htimes Hlen.
  - exists l. by rewrite app_nil_r.
  - apply Forall_cons in Htimes as [Hnow Htimes]. simpl in Hlen.
    cbn [check_seq].
    rewrite (check_in_window w t0 now identifier l tss Hw Hts)
      by (try (eapply Forall_impl; [exact Hall|]); simpl; lia).
    destruct (Z.ltb_spec (Z.of_nat (length tss)) (maxRequests l)); [|lia].
    set (l1 := with_requests l _).
    destruct (IH l1 (tss ++ [now])) as (l' & Hrun & Hmx & Hw' & Hreq).
    + done.
    + unfold l1. simpl. by rewrite lookup_insert_eq.
    + apply Forall_app; split; [done|]. by constructor.
    + done.
    + rewrite length_app. simpl. unfold l1. simpl. lia.
    + exists l'. rewrite Hrun. rewrite length_app in *. simpl in *.
      replace (length tss + 1)%nat with (S (length tss)) by lia.
      rewrite Z.max_r by lia. repeat split; try done.
      by rewrite Hreq, <- app_assoc.
Qed.

Lemma allowed_results_allowed mx a times :
  allowed <$> allowed_results mx a times = replicate (length times) true.
Proof.
  revert a. induction times as [|t times IH]; intros a; [done|].
  simpl. by rewrite IH.
Qed.

Lemma allowed_results_remaining mx a times :
  remaining <$> allowed_results mx a times
  = (λ k, mx - Z.of_nat a - 1 - k) <$> seqZ 0 (Z.of_nat (length times)).
Proof.
  revert a. induction times as [|t times IH]; intros a; [done|].
  cbn [allowed_results fmap list_fmap length].
  rewrite seqZ_cons by lia. cbn [fmap list_fmap remaining].
  f_equal; [lia|].
  fold (fmap (M:=list) remaining (allowed_results mx (S a) times)).
  rewrite IH. replace (Z.pred (Z.of_nat (S (length times))))
    with (Z.of_nat (length times)) by lia.
  change (Z.succ 0) with (1 + 0). rewrite <- fmap_add_seqZ, <- list_fmap_compose.
  apply list_fmap_ext. intros _ k _. simpl. lia.
Qed.

Lemma descending_remaining (n : nat) :
  (λ k, Z.of_nat n - Z.of_nat 0 - 1 - k) <$> seqZ 0 (Z.of_nat n)
  = reverse (seqZ 0 (Z.of_nat n)).
Proof.
  apply list_eq. intros i.
  rewrite list_lookup_fmap.
  destruct (decide (i < n)%nat) as [Hi|Hi].
  - rewrite lookup_seqZ_lt by lia. simpl.
    rewrite reverse_lookup by (rewrite length_seqZ; lia).
    rewrite length_seqZ, lookup_seqZ_lt by lia. f_equal. lia.
  - rewrite lookup_seqZ_ge by lia. simpl. symmetry.
    apply lookup_ge_None. rewrite length_reverse, length_seqZ. lia.
Qed.

(** C1, as amended.  A limiter with [maxRequests = N] and no history for
    an identifier, checked [N] times and once more at clock values that
    all lie within one window length: the first [N] checks are allowed
    with [remaining] running from [N-1] down to [0], the next one is
    refused with [remaining = 0], and after [reset] the following check
    is allowed provided [N] is at least 1. *)
Theorem check_sequence_then_refusal
    (N : nat) (w t0 : Z) identifier l (times : list Z) (t_next t_after : Z) :
  maxRequests l = Z.of_nat N →
  windowMs l = w →
  default [] (requests l !! identifier) = [] →
  length times = N →
  Forall (λ t, t0 ≤ t < t0 + w) (times ++ [t_next]) →
  let '(rs, l1) := check_seq times identifier l in
  let '(r, l2) := check t_next identifier l1 in
  allowed <$> rs = replicate N true
  ∧ remaining <$> rs = reverse (seqZ 0 (Z.of_nat N))
  ∧ allowed r = false
  ∧ remaining r = 0
  ∧ (1 ≤ Z.of_nat N →
     allowed (fst (check t_after identifier
                     (InMemoryRateLimiter.reset identifier l2))) = true).
Proof.
  intros Hmx Hw Hempty Hlen Hall.
  apply Forall_app in Hall as [Htimes Hnext].
  rewrite Forall_singleton in Hnext.
  destruct (check_seq_allowed w t0 identifier times l [] Hw Hempty)
    as (l1 & Hrun & Hmx1 & Hw1 & Hreq1); [by constructor|done|simpl; lia|].
  rewrite Hrun.
  rewrite (check_in_window w t0 t_next identifier l1 times Hw1 Hreq1)
    by (try (eapply Forall_impl; [exact Htimes|]); simpl; lia).
  rewrite Hmx1, Hmx, Hlen, Z.ltb_irrefl.
  rewrite allowed_results_allowed, allowed_results_remaining, Hlen.
  rewrite descending_remaining. cbn [allowed remaining].
  repeat split; [lia|].
  intros HN. unfold check, InMemoryRateLimiter.reset. cbn.
  rewrite lookup_delete_eq. cbn. rewrite Hmx1, Hmx.
  apply Z.ltb_lt. lia.
Qed.

(** The strict limiter of the example scenario: ten checks for one key
    within a minute, an eleventh, a reset and one more check. *)
Lemma check_sequence_then_refusal_witness :
  let '(rs, l1) :=
    check_seq (seqZ 1000 10) (js "u1") (new 10 60000) in
  let '(r, l2) := check 1010 (js "u1") l1 in
  allowed <$> rs = replicate 10 true
  ∧ remaining <$> rs = reverse (seqZ 0 10)
  ∧ allowed r = false
  ∧ remaining r = 0
  ∧ (1 ≤ 10 →
     allowed (fst (check 1011 (js "u1")
                     (InMemoryRateLimiter.reset (js "u1") l2))) = true).
Proof.
  apply (check_sequence_then_refusal 10 60000 1000 (js "u1") (new 10 60000)
           (seqZ 1000 10) 1010 1011).
  - reflexivity.
  - reflexivity.
  - reflexivity.
  - reflexivity.
  - vm_compute. repeat constructor; discriminate.
Defined.

(** C1 as stated fails for a limiter configured with [maxRequests = 0]:
    the first check is refused with [remaining = 0], as stated, but the
    check that follows [reset] is refused as well. *)
Lemma zero_limit_refuses_after_reset :
  let '(r, l2) := check 1000 (js "u1") (new 0 60000) in
  allowed r = false
  ∧ remaining r = 0
  ∧ allowed (fst (check 1001 (js "u1")
                    (InMemoryRateLimiter.reset (js "u1") l2))) = false.
Proof. vm_compute. done. Qed.

(** C5.  A refused check leaves the limiter as it was: the stored
    timestamps of every identifier are unchanged. *)
Theorem check_refused_frame (now : Z) identifier l :
  allowed (fst (check now identifier l)) = false →
  snd (check now identifier l) = l.
Proof.
  unfold check. cbn.
  destruct (Z.of_nat _ <? maxRequests l); [discriminate|done].
Qed.

Lemma check_refused_frame_witness :
  let l1 := snd (check 0 (js "a") (new 1 10)) in
  snd (check 5 (js "a") l1) = l1.
Proof.
  apply (check_refused_frame 5 (js "a") (snd (check 0 (js "a") (new 1 10)))).
  vm_compute. reflexivity.
Defined.

(** What the sweep leaves under each key. *)
Lemma cleanup_lookup (now : Z) l identifier :
  requests (cleanup now l) !! identifier =
  requests l !! identifier ≫= λ tss,
    let valid := filter (λ ts, now - windowMs l < ts) tss in
    if decide (valid = []) then None else Some valid.
Proof.
  unfold cleanup. cbn [requests with_requests].
  set (m0 := requests l). set (w := windowMs l).
  pose (swept := λ tss : list Z,
    let valid := filter (λ ts, now - w < ts) tss in
    if decide (valid = []) then None else Some valid).
  enough (Hfold : ∀ m, ∀ k,
    map_fold (cleanup_entry now w) m0 m !! k =
    match m !! k with Some tss => swept tss | None => m0 !! k end).
  { rewrite Hfold. by destruct (m0 !! identifier). }
  intros m. apply (map_fold_weak_ind (λ r m, ∀ k,
    r !! k = match m !! k with Some tss => swept tss | None => m0 !! k end)).
  - intros k. by rewrite lookup_empty.
  - intros i tss m' r Hi IH k. unfold cleanup_entry.
    destruct (decide (i = k)) as [->|Hne].
    + rewrite lookup_insert_eq. unfold swept. cbn zeta.
      destruct (filter _ tss) as [|ts valid] eqn:Hvalid; cbn.
      * by rewrite lookup_delete_eq.
      * by rewrite lookup_insert_eq.
    + rewrite (lookup_insert_ne m') by done. rewrite <- IH.
      destruct (length _ =? 0)%nat.
      * by rewrite lookup_delete_ne.
      * by rewrite lookup_insert_ne.
Qed.

Lemma cleanup_config (now : Z) l :
  maxRequests (cleanup now l) = maxRequests l
  ∧ windowMs (cleanup now l) = windowMs l.
Proof. done. Qed.

(** What a check leaves under its key when it is allowed. *)
Lemma check_allowed_lookup (now : Z) identifier l :
  allowed (fst (check now identifier l)) = true →
  requests (snd (check now identifier l)) !! identifier =
  Some (filter (λ ts, now - windowMs l < ts)
               (default [] (requests l !! identifier)) ++ [now]).
Proof.
  unfold check. cbn.
  destruct (Z.of_nat _ <? maxRequests l); [|discriminate].
  intros _. cbn. by rewrite lookup_insert_eq.
Qed.

Lemma step_config (now : Z) (op : Op) l :
  maxRequests (step now op l) = maxRequests l
  ∧ windowMs (step now op l) = windowMs l.
Proof.
  destruct op as [identifier|identifier|]; cbn; try done.
  unfold check. cbn. by destruct (Z.of_nat _ <? maxRequests l).
Qed.

(** Every clock value stored by [step] is at most the clock, when the
    ones already stored are. *)
Lemma step_not_in_future (now now' : Z) (op : Op) l :
  now ≤ now' →
  (∀ identifier tss, requests l !! identifier = Some tss →
     Forall (λ ts, ts ≤ now) tss) →
  ∀ identifier tss, requests (step now' op l) !! identifier = Some tss →
    Forall (λ ts, ts ≤ now') tss.
Proof.
  intros Hle Hl identifier tss.
  assert (Hold : ∀ k old, requests l !! k = Some old →
                          Forall (λ ts, ts ≤ now') old).
  { intros k old Hk. eapply Forall_impl; [exact (Hl k old Hk)|].
    simpl. lia. }
  destruct op as [k|k|]; cbn [step].
  - unfold check. cbn.
    destruct (Z.of_nat _ <? maxRequests l); cbn; [|by apply Hold].
    destruct (decide (k = identifier)) as [->|Hne].
    + rewrite lookup_insert_eq. intros [= <-].
      apply Forall_app; split; [|by repeat constructor].
      apply Forall_forall. intros ts [_ Hts]%list_elem_of_filter.
      destruct (requests l !! identifier) as [old|] eqn:Hk;
        [|by apply elem_of_nil in Hts].
      pose proof (Hold identifier old Hk) as Hall.
      rewrite Forall_forall in Hall. by apply Hall.
    + rewrite lookup_insert_ne by done. apply Hold.
  - unfold InMemoryRateLimiter.reset. cbn.
    intros [_ Hk]%lookup_delete_Some. by apply (Hold identifier).
  - rewrite cleanup_lookup.
    destruct (requests l !! identifier) as [old|] eqn:Hk; [|done].
    cbn. case_decide; [done|]. intros [= <-].
    apply Forall_forall. intros ts [_ Hts]%list_elem_of_filter.
    pose proof (Hold identifier old Hk) as Hall.
    rewrite Forall_forall in Hall. by apply Hall.
Qed.

Lemma reachable_not_in_future (mx w now : Z) l :
  reachable mx w now l →
  maxRequests l = mx ∧ windowMs l = w
  ∧ ∀ identifier tss, requests l !! identifier = Some tss →
      Forall (λ ts, ts ≤ now) tss.
Proof.
  induction 1 as [now|now now' op l Hreach (Hmx & Hw & IH) Hle].
  - repeat split. intros identifier tss. cbn. by rewrite lookup_empty.
  - destruct (step_config now' op l) as [-> ->].
    repeat split; [done..|].
    by apply (step_not_in_future now).
Qed.

(** C4, as amended.  In a limiter built by the constructor and driven by
    any sequence of [check], [reset] and [cleanup] at non-decreasing clock
    values: no stored timestamp is later than the clock; right after a
    sweep a key is present exactly when its list had a timestamp inside
    the window, and then holds exactly those timestamps, so every list is
    non-empty and within the window; right after an allowed check the
    list of the checked identifier is the clock value of that check
    preceded by timestamps within the window.  (Lists of
    other identifiers are pruned only by their own next allowed check or
    by the next sweep.) *)
Theorem retained_timestamps (mx w now now' : Z) (op : Op) l :
  reachable mx w now l →
  now ≤ now' →
  let l' := step now' op l in
  (∀ identifier tss, requests l' !! identifier = Some tss →
     Forall (λ ts, ts ≤ now') tss)
  ∧ (op = OpCleanup →
     ∀ identifier,
       requests l' !! identifier =
       requests l !! identifier ≫= λ tss,
         let valid := filter (λ ts, now' - w < ts) tss in
         if decide (valid = []) then None else Some valid)
  ∧ (op = OpCleanup →
     ∀ identifier tss, requests l' !! identifier = Some tss →
       tss ≠ [] ∧ Forall (λ ts, now' - w < ts ≤ now') tss)
  ∧ (∀ identifier,
       op = OpCheck identifier →
       allowed (fst (check now' identifier l)) = true →
       ∃ valid, requests l' !! identifier = Some (valid ++ [now'])
                ∧ Forall (λ ts, now' - w < ts ≤ now') valid).
Proof.
  intros Hreach Hle l'.
  destruct (reachable_not_in_future mx w now l Hreach) as (Hmx & Hw & Hold).
  assert (Hnew : ∀ identifier tss, requests l' !! identifier = Some tss →
                 Forall (λ ts, ts ≤ now') tss)
    by (by apply (step_not_in_future now)).
  split; [exact Hnew|]. split; [|split].
  - intros -> identifier. subst l'. cbn [step].
    by rewrite cleanup_lookup, Hw.
  - intros -> identifier tss Hk.
    pose proof (Hnew identifier tss Hk) as Hfut.
    subst l'. cbn [step] in Hk. rewrite cleanup_lookup, Hw in Hk.
    destruct (requests l !! identifier) as [old|]; [|done].
    cbn in Hk. case_decide as Hne; [done|]. injection Hk as <-.
    split; [done|].
    apply Forall_forall. intros ts Hts.
    rewrite Forall_forall in Hfut. specialize (Hfut ts Hts).
    apply list_elem_of_filter in Hts as [Hin _]. lia.
  - intros identifier -> Hallowed.
    pose proof (check_allowed_lookup now' identifier l Hallowed) as Hk.
    eexists. split; [exact Hk|].
    pose proof (Hnew identifier _ Hk) as Hfut.
    apply Forall_app in Hfut as [Hfut _].
    apply Forall_forall. intros ts Hts.
    rewrite Forall_forall in Hfut. specialize (Hfut ts Hts).
    rewrite Hw in Hts.
    apply list_elem_of_filter in Hts as [Hin _]. lia.
Qed.

(** A sweep at time 100 of a limiter with a window of 10 that recorded
    one request at time 0: the key is removed. *)
Lemma retained_timestamps_witness :
  let l := step 0 (OpCheck (js "a")) (new 1 10) in
  requests l !! js "a" = Some [0]
  ∧ requests (step 100 OpCleanup l) !! js "a" = None.
Proof.
  split; [reflexivity|].
  pose proof (retained_timestamps 1 10 0 100 OpCleanup
                (step 0 (OpCheck (js "a")) (new 1 10))) as Hinv.
  destruct Hinv as (_ & Hsweep & _).
  - apply (reach_step 1 10 0 0 (OpCheck (js "a")) (new 1 10)); [|lia].
    apply reach_new.
  - lia.
  - rewrite (Hsweep eq_refl (js "a")). reflexivity.
Defined.

(** C4 as stated fails: a check for one identifier does not prune the
    list of another.  With a window of 10, a request of "a" at time 0 is
    still stored after a request of "b" at time 100. *)
Lemma stale_timestamps_of_other_identifiers :
  let l := step 100 (OpCheck (js "b"))
             (step 0 (OpCheck (js "a")) (new 1 10)) in
  reachable 1 10 100 l
  ∧ requests l !! js "a" = Some [0]
  ∧ ¬ all_in_window 100 l.
Proof.
  cbv zeta. split; [|split].
  - apply (reach_step 1 10 0 100); [|lia].
    apply (reach_step 1 10 0 0); [|lia]. apply reach_new.
  - reflexivity.
  - intros Hall. specialize (Hall (js "a") [0] eq_refl).
    apply Forall_cons in Hall as [Hts _]. vm_compute in Hts.
    destruct Hts as [Hts _]. by apply Hts.
Qed.

(** C10, as amended.  Without an [x-forwarded-for] and an [x-real-ip]
    header the identifier is the text [unknown]; with a non-empty
    [x-forwarded-for] header it is the text before the first comma of
    that header, trimmed. *)
Theorem getClientIdentifier_spec (request : Request) :
  (headers request !! js "x-forwarded-for" = None →
   headers request !! js "x-real-ip" = None →
   getClientIdentifier request = js "unknown")
  ∧ (∀ first rest : jsstring,
       44%N ∉ first →
       first ≠ [] ∨ rest ≠ [] →
       headers request !! js "x-forwarded-for" = Some (first ++ rest) →
       rest = [] ∨ (∃ rest', rest = 44%N :: rest') →
       getClientIdentifier request = trim first).
Proof.
  unfold getClientIdentifier. split.
  - by intros -> ->.
  - intros first rest Hcomma Hne -> Hrest.
    assert (Hbefore : before_comma (first ++ rest) = first).
    { clear Hne. induction first as [|c first IH].
      - destruct Hrest as [->|[rest' ->]]; done.
      - cbn. apply not_elem_of_cons in Hcomma as [Hc Hfirst].
        destruct (N.eqb_spec c 44); [congruence|]. by rewrite IH. }
    rewrite Hbefore.
    destruct first; [destruct rest; [by destruct Hne|]|]; done.
Qed.

Lemma getClientIdentifier_spec_witness :
  getClientIdentifier {| headers := ∅ |} = js "unknown"
  ∧ getClientIdentifier
      {| headers := {[ js "x-forwarded-for" := js " 1.2.3.4 , 5.6.7.8" ]} |}
    = js "1.2.3.4".
Proof.
  split.
  - apply (proj1 (getClientIdentifier_spec {| headers := ∅ |}));
      reflexivity.
  - rewrite (proj2 (getClientIdentifier_spec
               {| headers := {[ js "x-forwarded-for" := js " 1.2.3.4 , 5.6.7.8" ]} |})
               (js " 1.2.3.4 ") (js ", 5.6.7.8")).
    + reflexivity.
    + vm_compute. intros Hin.
      repeat (apply elem_of_cons in Hin as [Hin|Hin]; [discriminate|]).
      by apply elem_of_nil in Hin.
    + by left.
    + reflexivity.
    + right. eexists. reflexivity.
Defined.

(** C10 as stated fails for a header that is present but empty: an empty
    [x-forwarded-for] is passed over and the [x-real-ip] header (or
    [unknown]) is returned, not the empty first entry. *)
Lemma empty_forwarded_header_is_skipped :
  let request :=
    {| headers := {[ js "x-forwarded-for" := [];
                     js "x-real-ip" := js "203.0.113.9" ]} |} in
  headers request !! js "x-forwarded-for" = Some []
  ∧ trim (before_comma []) = []
  ∧ getClientIdentifier request = js "203.0.113.9"
  ∧ getClientIdentifier {| headers := {[ js "x-forwarded-for" := [] ]} |}
    = js "unknown".
Proof. vm_compute. done. Qed.

End RateLimiter.

(** ** Logger and error envelope *)

Section Envelope.

Import logger errors.

Lemma is_production_true (NODE_ENV : Env) :
  is_production NODE_ENV = true ↔ NODE_ENV = Some (js "production").
Proof. unfold is_production. apply bool_decide_eq_true. Qed.

Lemma is_production_false (NODE_ENV : Env) :
  is_production NODE_ENV = false ↔ NODE_ENV ≠ Some (js "production").
Proof. unfold is_production. apply bool_decide_eq_false. Qed.

(** C9, as amended.  [debug] writes one line with [console.debug] in
    every environment other than production, and nothing in production. *)
Theorem debug_suppressed_in_production
    (JSON_stringify : LogContext → jsstring) (isoNow : jsstring)
    (NODE_ENV : Env) (this : Logger) (message : jsstring) (meta : JSValue) :
  (NODE_ENV ≠ Some (js "production") →
   debug JSON_stringify isoNow NODE_ENV this message meta =
   [console_debug (format JSON_stringify isoNow this level_debug message meta)])
  ∧ (NODE_ENV = Some (js "production") →
     debug JSON_stringify isoNow NODE_ENV this message meta = []).
Proof.
  unfold debug. split.
  - intros Henv%is_production_false. by rewrite Henv.
  - intros Henv%is_production_true. by rewrite Henv.
Qed.

Lemma debug_suppressed_in_production_witness :
  length (debug (λ _, js "{}") (js "2026-01-01T00:00:00.000Z")
            (Some (js "development")) (createLogger []) (js "cache miss")
            JUndefined) = 1%nat
  ∧ debug (λ _, js "{}") (js "2026-01-01T00:00:00.000Z")
      (Some (js "production")) (createLogger []) (js "cache miss")
      JUndefined = [].
Proof.
  split.
  - rewrite (proj1 (debug_suppressed_in_production (λ _, js "{}")
               (js "2026-01-01T00:00:00.000Z") (Some (js "development"))
               (createLogger []) (js "cache miss") JUndefined)).
    + reflexivity.
    + discriminate.
  - apply (proj2 (debug_suppressed_in_production (λ _, js "{}")
             (js "2026-01-01T00:00:00.000Z") (Some (js "production"))
             (createLogger []) (js "cache miss") JUndefined)).
    reflexivity.
Defined.

(** C9 as stated fails outside development: under [NODE_ENV = test], and
    with [NODE_ENV] unset, [debug] writes its line, whatever the
    serializer prints. *)
Lemma debug_writes_under_test :
  debug (λ _, js "{}") (js "2026-01-01T00:00:00.000Z") (Some (js "test"))
    (createLogger []) (js "cache miss") JUndefined
  = [console_debug (js "{}")]
  ∧ debug (λ _, js "{}") (js "2026-01-01T00:00:00.000Z") None
      (createLogger []) (js "cache miss") JUndefined
    = [console_debug (js "{}")].
Proof. split; reflexivity. Qed.



End Envelope.

(** ** SSRF guard *)

Section SsrfLemmas.

Import ssrf analysis.

Implicit Types (s p r : jsstring) (c a : N).

Lemma PRIVATE_IP_MATCHERS_eq :
  PRIVATE_IP_MATCHERS = [
    lit false (js "127.");
    lit false (js "10.");
    cat [lit false (js "172.");
         alt [cat [lit false (js "1"); one (digit_between 6 9)];
              cat [lit false (js "2"); one (digit_between 0 9)];
              cat [lit false (js "3"); one (digit_between 0 1)]];
         lit false (js ".")];
    lit false (js "192.168.");
    lit false (js "169.254.");
    lit false (js "0.");
    cat [lit false (js "::1"); eos];
    lit true (js "fe80:");
    lit true (js "fc00:");
    cat [lit true (js "fd"); one hex_ci; one hex_ci; lit true (js ":")];
    cat [lit false (js "::"); eos]
  ].
Proof. reflexivity. Qed.

Lemma lit_cs_strip p s : lit false p s = strip_prefix p s.
Proof.
  revert s. induction p as [|a p IH]; intros [|c s]; cbn; try done.
  by rewrite IH.
Qed.

Lemma strip_prefix_app p s r : strip_prefix p s = Some r → s = p ++ r.
Proof.
  revert s. induction p as [|a p IH]; intros s; cbn.
  - by intros [= ->].
  - destruct s as [|c s]; [done|].
    destruct (N.eqb_spec a c) as [->|]; [|done].
    intros Hs. by rewrite (IH _ Hs).
Qed.

Lemma strip_prefix_of_app p r : strip_prefix p (p ++ r) = Some r.
Proof. induction p as [|a p IH]; cbn; [done|]. by rewrite N.eqb_refl. Qed.

Lemma starts_with_app p s : starts_with p s = true ↔ ∃ r, s = p ++ r.
Proof.
  unfold starts_with. split.
  - destruct (strip_prefix p s) as [r|] eqn:Hs; [|done].
    intros _. exists r. by apply strip_prefix_app.
  - intros [r ->]. by rewrite strip_prefix_of_app.
Qed.

(** A character that is not a lower-case letter is the image of itself
    only. *)
Lemma lower_inv c a :
  lower c = a → ¬ (97 ≤ a ≤ 122)%N → c = a.
Proof.
  unfold lower. destruct (N.leb_spec 65 c), (N.leb_spec c 90); cbn; lia.
Qed.

Lemma starts_with_lower p s :
  Forall (λ a, (a < 65)%N) p → starts_with p (toLowerCase s) = true → starts_with p s = true.
Proof.
  intros Hp [r Hr]%starts_with_app. apply starts_with_app.
  revert s r Hr. induction Hp as [|a p Ha Hp IH]; intros s r Hr.
  - by exists s.
  - destruct s as [|c s]; [done|]. cbn in Hr. injection Hr as Hc Hr.
    apply lower_inv in Hc as ->; [|lia].
    destruct (IH s r Hr) as [r' ->]. by exists r'.
Qed.


Lemma private_prefixes_caseless :
  Forall (Forall (λ a, (a < 65)%N)) private_ipv4_prefixes.
Proof. vm_compute. repeat constructor. Qed.

Lemma private_text_lower s :
  private_ipv4_text (toLowerCase s) = private_ipv4_text s.
Proof.
  unfold private_ipv4_text.
  pose proof private_prefixes_caseless as Hcl.
  induction Hcl as [|p ps Hp _ IH]; [done|]. cbn. rewrite IH. f_equal.
  apply eq_true_iff_eq. split; [by apply starts_with_lower|].
  intros [r ->]%starts_with_app. apply starts_with_app.
  exists (toLowerCase r). unfold toLowerCase. rewrite map_app. f_equal.
  clear IH. induction Hp as [|a p Ha _ IHp]; [done|]. cbn. rewrite IHp.
  f_equal. unfold lower.
  destruct (N.leb_spec 65 a); [lia|done].
Qed.


(** The text patterns are matched by the ranges of the code. *)
Lemma private_text_blocked s :
  private_ipv4_text s = true →
  existsb (λ range, test_anchored range s) PRIVATE_IP_MATCHERS = true.
Proof.
  rewrite PRIVATE_IP_MATCHERS_eq.
  unfold private_ipv4_text. rewrite existsb_exists.
  intros (p & Hin & [r ->]%starts_with_app).
  vm_compute in Hin.
  repeat (destruct Hin as [<-|Hin]; [reflexivity|]). done.
Qed.

Lemma test_lit_cs p s :
  test_anchored (lit false p) s = true → ∃ r, s = p ++ r.
Proof.
  unfold test_anchored. rewrite lit_cs_strip.
  destruct (strip_prefix p s) as [r|] eqn:Hs; [|done].
  intros _. exists r. by apply strip_prefix_app.
Qed.

Lemma digit_between_inv lo hi c :
  digit_between lo hi c = true → (48 + lo ≤ c ≤ 48 + hi)%N.
Proof. unfold digit_between. rewrite andb_true_iff, !N.leb_le. lia. Qed.

Lemma one_inv (f : N → bool) s r :
  one f s = Some r → ∃ c, s = c :: r ∧ f c = true.
Proof.
  destruct s as [|c s]; cbn; [done|].
  destruct (f c) eqn:Hc; [|done]. intros [= ->]. by exists c.
Qed.

Lemma cat_cons_inv (m : matcher) ms s r :
  cat (m :: ms) s = Some r → ∃ r1, m s = Some r1 ∧ cat ms r1 = Some r.
Proof. cbn. destruct (m s) as [r1|]; [|done]. by exists r1. Qed.

Lemma alt_inv (ms : list matcher) s r :
  alt ms s = Some r → ∃ m, m ∈ ms ∧ m s = Some r.
Proof.
  induction ms as [|m ms IH]; cbn; [done|].
  destruct (m s) as [r1|] eqn:Hm.
  - intros [= ->]. exists m. split; [left|done].
  - intros (m' & Hin & Hm')%IH. exists m'. split; [by right|done].
Qed.

Lemma lit_cs_inv p s r : lit false p s = Some r → s = p ++ r.
Proof. rewrite lit_cs_strip. apply strip_prefix_app. Qed.

(** The IPv4 ranges of the code match only the text patterns. *)
Lemma blocked_ipv4_private_text s :
  existsb (λ range, test_anchored range s) (firstn 6 PRIVATE_IP_MATCHERS) = true →
  private_ipv4_text s = true.
Proof.
  rewrite PRIVATE_IP_MATCHERS_eq.
  cbn [firstn existsb]. rewrite !orb_true_iff.
  intros [H|[H|[H|[H|[H|[H|H]]]]]]; try done;
    try (apply test_lit_cs in H as [r ->]; reflexivity).
  unfold test_anchored in H.
  destruct (cat _ s) as [r|] eqn:Hcat; [clear H|done].
  apply cat_cons_inv in Hcat as (r1 & ->%lit_cs_inv & Hcat).
  apply cat_cons_inv in Hcat as (r2 & Halt & Hcat).
  apply cat_cons_inv in Hcat as (r3 & ->%lit_cs_inv & _).
  apply alt_inv in Halt as (m & Hm & Halt).
  repeat (apply elem_of_cons in Hm as [->|Hm]);
    [| | |by apply elem_of_nil in Hm];
    apply cat_cons_inv in Halt as (r4 & ->%lit_cs_inv & Halt);
    apply cat_cons_inv in Halt as (r5 & (c6 & -> & Hc%digit_between_inv)%one_inv & [= ->]).
  - assert (c6 = 54 ∨ c6 = 55 ∨ c6 = 56 ∨ c6 = 57)%N as Hcases by lia.
    repeat (destruct Hcases as [->|Hcases]; [reflexivity|]). by subst.
  - assert (c6 = 48 ∨ c6 = 49 ∨ c6 = 50 ∨ c6 = 51 ∨ c6 = 52 ∨ c6 = 53
            ∨ c6 = 54 ∨ c6 = 55 ∨ c6 = 56 ∨ c6 = 57)%N as Hcases by lia.
    repeat (destruct Hcases as [->|Hcases]; [reflexivity|]). by subst.
  - assert (c6 = 48 ∨ c6 = 49)%N as Hcases by lia.
    repeat (destruct Hcases as [->|Hcases]; [reflexivity|]). by subst.
Qed.


(** A host character is neither a colon nor a bracket. *)
Lemma host_char_not_colon c :
  is_host_char c = true → ci_eqb 58 c = false ∧ (58 =? c)%N = false.
Proof.
  intros Hc. unfold ci_eqb. change (lower 58) with 58%N.
  split; apply N.eqb_neq; intros Heq; symmetry in Heq.
  - apply lower_inv in Heq; [|lia]. subst. by vm_compute in Hc.
  - subst. by vm_compute in Hc.
Qed.

Lemma lit_suffix ci p s r : lit ci p s = Some r → ∃ pre, s = pre ++ r.
Proof.
  revert s. induction p as [|a p IH]; intros s; cbn.
  - intros [= ->]. by exists [].
  - destruct s as [|c s]; [done|].
    destruct (if ci then _ else _); [|done].
    intros [pre ->]%IH. by exists (c :: pre).
Qed.

(** A literal that contains a colon does not match a text made of host
    characters. *)
Lemma lit_colon ci p s :
  58%N ∈ p → forallb is_host_char s = true → lit ci p s = None.
Proof.
  revert s. induction p as [|a p IH]; intros s Hin Hs.
  - by apply elem_of_nil in Hin.
  - destruct s as [|c s]; [done|]. cbn in Hs.
    apply andb_true_iff in Hs as [Hc Hs].
    destruct (host_char_not_colon c Hc) as [Hci Hcs]. cbn.
    apply elem_of_cons in Hin as [<-|Hin].
    + destruct ci; by rewrite ?Hci, ?Hcs.
    + rewrite (IH s Hin Hs). by destruct (if ci then _ else _).
Qed.

Lemma forallb_suffix (f : N → bool) pre r :
  forallb f (pre ++ r) = true → forallb f r = true.
Proof. rewrite forallb_app, andb_true_iff. by intros [_ ?]. Qed.

(** The IPv6 ranges of the code need a colon in the text. *)
Lemma ipv6_ranges_need_colon s :
  forallb is_host_char s = true →
  existsb (λ range, test_anchored range s) (skipn 6 PRIVATE_IP_MATCHERS) = false.
Proof.
  intros Hs. rewrite PRIVATE_IP_MATCHERS_eq. cbn [skipn existsb].
  assert (Hcolon : ∀ ci p, 58%N ∈ p → test_anchored (lit ci p) s = false).
  { intros ci p Hp. unfold test_anchored. by rewrite lit_colon. }
  assert (Hcat : ∀ ci p ms, 58%N ∈ p →
            test_anchored (cat (lit ci p :: ms)) s = false).
  { intros ci p ms Hp. unfold test_anchored. cbn. by rewrite lit_colon. }
  rewrite (Hcat false (js "::1") [eos]), (Hcolon true (js "fe80:")),
    (Hcolon true (js "fc00:")), (Hcat false (js "::") [eos])
    by (vm_compute; repeat first [by left | right]).
  rewrite !orb_false_r. cbn [orb].
  unfold test_anchored.
  destruct (cat _ s) as [r|] eqn:Hfd; [exfalso|done].
  apply cat_cons_inv in Hfd as (r1 & [pre ->]%lit_suffix & Hfd).
  apply forallb_suffix in Hs.
  apply cat_cons_inv in Hfd as (r2 & (c1 & -> & _)%one_inv & Hfd).
  apply cat_cons_inv in Hfd as (r3 & (c2 & -> & _)%one_inv & Hfd).
  cbn [forallb] in Hs. apply andb_true_iff in Hs as [_ Hs].
  apply andb_true_iff in Hs as [_ Hs].
  apply cat_cons_inv in Hfd as (r4 & Hfd & _).
  rewrite lit_colon in Hfd; [done|vm_compute; by left|done].
Qed.

(** The labels of a public domain name are made of host characters. *)
Lemma labels_host_chars s :
  forallb is_label (labels s) = true → forallb is_host_char s = true.
Proof.
  assert (Hweak : ∀ l, is_label l = true →
            forallb (λ c, is_alpha c || is_digit c || (c =? 45)%N) l = true).
  { intros [|c l]; [done|]. unfold is_label.
    rewrite !andb_true_iff. by intros [[? _] _]. }
  intros Hs.
  assert (H : forallb (forallb (λ c, is_alpha c || is_digit c || (c =? 45)%N))
                (labels s) = true).
  { rewrite forallb_forall in Hs. apply forallb_forall.
    intros l Hl. by apply Hweak, Hs. }
  clear Hs Hweak. induction s as [|c s IH]; [done|].
  cbn [labels] in H. cbn [forallb].
  destruct (N.eqb_spec c 46) as [->|Hc].
  - cbn in H. by rewrite IH.
  - assert (Hsplit : (is_alpha c || is_digit c || (c =? 45)%N) = true
                     ∧ forallb (forallb (λ c, is_alpha c || is_digit c
                                              || (c =? 45)%N)) (labels s) = true).
    { destruct (labels s) as [|l ls]; cbn in H |- *.
      - rewrite !andb_true_r in H. by rewrite H.
      - apply andb_true_iff in H as [H Hls].
        apply andb_true_iff in H as [Hc' Hl]. by rewrite Hc', Hl, Hls. }
    destruct Hsplit as [Hc' Hrest]. rewrite (IH Hrest), andb_true_r.
    unfold is_host_char. by rewrite Hc'.
Qed.

Lemma labels_two_dot s :
  (2 <=? length (labels s))%nat = true → 46%N ∈ s.
Proof.
  induction s as [|c s IH]; [done|]. cbn [labels].
  destruct (N.eqb_spec c 46) as [->|Hc]; [by left|].
  intros H. right. apply IH.
  destruct (labels s); [done|]. exact H.
Qed.

Lemma lower_idem c : lower (lower c) = lower c.
Proof.
  unfold lower at 2 3. destruct (N.leb_spec 65 c), (N.leb_spec c 90);
    cbn [andb]; unfold lower.
  - destruct (N.leb_spec (c + 32) 90); [lia|]. by rewrite andb_false_r.
  - destruct (N.leb_spec c 90); [lia|]. by rewrite andb_false_r.
  - destruct (N.leb_spec 65 c); [lia|]. done.
  - destruct (N.leb_spec 65 c); [lia|]. done.
Qed.

Lemma lower_host_char c :
  is_host_char c = true → is_host_char (lower c) = true.
Proof.
  unfold is_host_char, is_alpha. rewrite lower_idem.
  rewrite !orb_true_iff. intros [[[H|H]|H]|H]; [by auto| | |].
  - apply digit_between_inv in H. replace (lower c) with c; [|unfold lower].
    + unfold is_digit, digit_between. left; left; right.
      apply andb_true_iff. rewrite !N.leb_le. lia.
    + destruct (N.leb_spec 65 c); [lia|done].
  - apply N.eqb_eq in H as ->. by vm_compute; auto.
  - apply N.eqb_eq in H as ->. by vm_compute; auto.
Qed.

Lemma lower_host_chars s :
  forallb is_host_char s = true → forallb is_host_char (toLowerCase s) = true.
Proof.
  induction s as [|c s IH]; [done|]. cbn. rewrite !andb_true_iff.
  intros [Hc Hs]. split; [by apply lower_host_char|by apply IH].
Qed.

End SsrfLemmas.

(** ** Regular expressions: backtracking finds what greedy matching finds *)

Section Agreement.

Import ssrf logger analysis.

Implicit Types (s x : jsstring) (k K : continuation) (f : N → bool) (r : regex).

Lemma star_bt_ext f s k K : (∀ x, k x = K x) → star_bt f s k = star_bt f s K.
Proof.
  intros Hk. induction s as [|c s IH]; cbn; [done|]. by rewrite IH, Hk.
Qed.

Lemma star_bt_settled f s K : settled f K → star_bt f s K = K (skip f s).
Proof.
  intros HK. induction s as [|c s IH]; cbn; [done|].
  destruct (f c) eqn:Hc; [|done]. rewrite IH.
  destruct (K (skip f s)) eqn:Hks; [done|].
  destruct HK as [HK|HK]; [by destruct (HK (skip f s))|by apply HK].
Qed.

Lemma follows_str ci p K : follows ci (Str p) K.
Proof. intros s k Hk. cbn. destruct (lit ci p s); [apply Hk|done]. Qed.

Lemma follows_cls ci f K : follows ci (Cls f) K.
Proof.
  intros [|c s] k Hk; cbn; [done|]. destruct (f c); [apply Hk|done].
Qed.

Lemma follows_eos ci K : follows ci Eos K.
Proof. intros [|c s] k Hk; cbn; [apply Hk|done]. Qed.

Lemma follows_star ci f K : settled f K → follows ci (Star f) K.
Proof.
  intros HK s k Hk. cbn. rewrite (star_bt_ext f s k K Hk).
  by apply star_bt_settled.
Qed.

Lemma follows_plus ci f K : settled f K → follows ci (Plus f) K.
Proof.
  intros HK [|c s] k Hk; cbn; [done|]. destruct (f c); [|done].
  rewrite (star_bt_ext f s k K Hk). by apply star_bt_settled.
Qed.

Lemma follows_opt ci r K :
  follows ci r K →
  (∀ s, possessive ci r s ≠ None → K s = None) →
  follows ci (Opt r) K.
Proof.
  intros Hr HK s k Hk. cbn. rewrite (Hr s k Hk), Hk. unfold opt.
  destruct (possessive ci r s) as [s'|] eqn:Hs; cbn; [|done].
  destruct (K s'); [done|]. apply HK. by rewrite Hs.
Qed.

Lemma bt_cat_cons ci r rs s k :
  bt ci (Cat (r :: rs)) s k = bt ci r s (λ s', bt ci (Cat rs) s' k).
Proof. done. Qed.

Lemma follows_cat_nil ci K : follows ci (Cat []) K.
Proof. intros s k Hk. cbn. apply Hk. Qed.

Lemma follows_cat_cons ci r rs K :
  follows ci (Cat rs) K →
  follows ci r (λ s', possessive ci (Cat rs) s' ≫= K) →
  follows ci (Cat (r :: rs)) K.
Proof.
  intros Hrs Hr s k Hk. rewrite bt_cat_cons.
  rewrite (Hr s (λ s', bt ci (Cat rs) s' k)) by (intros x; by apply Hrs).
  cbn. by destruct (possessive ci r s).
Qed.

Lemma bt_alt_cons ci r rs s k :
  bt ci (Alt (r :: rs)) s k =
  match bt ci r s k with Some e => Some e | None => bt ci (Alt rs) s k end.
Proof. done. Qed.

Lemma follows_alt_nil ci K : follows ci (Alt []) K.
Proof. by intros s k Hk. Qed.

Lemma follows_alt_cons ci r rs K :
  follows ci r K → follows ci (Alt rs) K →
  (∀ s, possessive ci r s ≠ None → possessive ci (Alt rs) s = None) →
  follows ci (Alt (r :: rs)) K.
Proof.
  intros Hr Hrs Hdis s k Hk. rewrite bt_alt_cons, (Hr s k Hk), (Hrs s k Hk).
  cbn. destruct (possessive ci r s) as [s'|] eqn:Hs; cbn; [|done].
  destruct (K s'); [done|].
  change (alt _ s) with (possessive ci (Alt rs) s). rewrite Hdis; [done|].
  by rewrite Hs.
Qed.

Lemma exec_possessive (re : RegExp) :
  follows (ignoreCase re) (source re) Some →
  ∀ s, exec re s = possessive_of re s.
Proof.
  intros H s. unfold exec, possessive_of. rewrite (H s Some) by done.
  by destruct (possessive _ _ s).
Qed.

(** *** Characters that a pattern character matches *)

Lemma ci_eqb_letter l a :
  (97 ≤ l ≤ 122)%N → ci_eqb l a = true → a = l ∨ a = (l - 32)%N.
Proof.
  intros Hl. unfold ci_eqb, lower.
  destruct (N.leb_spec 65 l), (N.leb_spec l 90); try lia; cbn [andb].
  destruct (N.leb_spec 65 a), (N.leb_spec a 90); cbn [andb];
    intros ?%N.eqb_eq; lia.
Qed.

Lemma ci_eqb_symbol l a :
  (l < 65 ∨ 90 < l < 97 ∨ 122 < l)%N → ci_eqb l a = true → a = l.
Proof.
  intros Hl Ha. unfold ci_eqb in Ha. apply N.eqb_eq in Ha.
  assert (lower l = l) as Hll.
  { unfold lower. destruct (N.leb_spec 65 l), (N.leb_spec l 90); cbn; lia. }
  rewrite Hll in Ha. symmetry in Ha. apply lower_inv in Ha; [done|lia].
Qed.

(** A class that contains no character matched by [l] stops a literal
    that begins with [l]. *)
Lemma lit_blocked f l L :
  (l < 65 ∨ 90 < l)%N →
  f l = false → ((97 ≤ l ≤ 122)%N → f (l - 32)%N = false) →
  ∀ c x, f c = true → lit true (l :: L) (c :: x) = None.
Proof.
  intros Hl Hfl Hfu c x Hc. cbn. destruct (ci_eqb l c) eqn:Hlc; [|done].
  destruct (decide (97 ≤ l ≤ 122)%N) as [Hlow|Hlow].
  - apply ci_eqb_letter in Hlc as [-> | ->]; [congruence| |done].
    rewrite Hfu in Hc; done.
  - apply ci_eqb_symbol in Hlc as ->; [congruence|lia].
Qed.

Ltac follows_simple :=
  repeat first
    [ apply follows_cat_nil | apply follows_cat_cons | apply follows_str
    | apply follows_cls | apply follows_eos | apply follows_alt_nil ].

(** What follows a repetition always matches. *)
Ltac settled_total := left; intros ?; cbn; done.

Lemma blocked_by_literal f l L (ms : list matcher) K :
  (l < 65 ∨ 90 < l)%N →
  f l = false → ((97 ≤ l ≤ 122)%N → f (l - 32)%N = false) →
  ∀ c x, f c = true → cat (lit true (l :: L) :: ms) (c :: x) ≫= K = None.
Proof.
  intros Hl Hfl Hfu c x Hc. cbn [cat].
  by rewrite (lit_blocked f l L Hl Hfl Hfu c x Hc).
Qed.

Lemma lit_head ci l L s :
  lit ci (l :: L) s ≠ None →
  ∃ c x, s = c :: x ∧ (if ci then ci_eqb l c else (l =? c)%N) = true.
Proof.
  destruct s as [|c x]; cbn; [done|].
  destruct (if ci then _ else _) eqn:Hc; [|done]. intros _. by exists c, x.
Qed.

(** The patterns of the guard. *)
Lemma private_ranges_follow :
  Forall (λ re, follows (ignoreCase re) (source re) Some) PRIVATE_IP_RANGES.
Proof.
  unfold PRIVATE_IP_RANGES, ssrf.re, re_i.
  repeat apply Forall_cons_2; cbn [source ignoreCase]; follows_simple.
  - assert (Hhead : ∀ d (g : N → bool) s,
      possessive false (Cat [Str [d]; Cls g]) s ≠ None → ∃ x, s = d :: x).
    { intros d g [|c x]; cbn; [done|].
      destruct (N.eqb_spec d c) as [->|]; [by exists x|done]. }
    apply follows_alt_cons; [follows_simple| |].
    + apply follows_alt_cons; [follows_simple| |].
      * apply follows_alt_cons; [follows_simple|apply follows_alt_nil|done].
      * by intros s [x ->]%Hhead.
    + by intros s [x ->]%Hhead.
  - constructor.
Qed.

Lemma ranges_test (h : jsstring) :
  existsb (λ range, test range h) PRIVATE_IP_RANGES
  = existsb (λ m, test_anchored m h) PRIVATE_IP_MATCHERS.
Proof.
  unfold PRIVATE_IP_MATCHERS. pose proof private_ranges_follow as Hall.
  induction Hall as [|range ranges Hrange _ IH]; [done|].
  cbn [map existsb]. rewrite IH. f_equal.
  unfold test, test_anchored. by rewrite exec_possessive.
Qed.

(** The patterns of the logger. *)
Lemma sensitive_patterns_follow :
  Forall (λ re, follows (ignoreCase re) (source re) Some) SENSITIVE_PATTERNS.
Proof.
  assert (Hkv : ∀ K, (∀ x, K x ≠ None) →
            follows true (Cat [Plus is_sep; Star is_value]) K).
  { intros K HK. follows_simple.
    - apply follows_star. left. intros x. cbn. apply HK.
    - apply follows_plus. left. intros x. cbn. apply HK. }
  assert (Hauth : ∀ L,
            follows true
              (Cat [Star is_space; Str (98%N :: L); Plus is_space;
                    Plus non_space]) Some).
  { intros L. follows_simple.
    - apply follows_plus. settled_total.
    - apply follows_plus. right. intros c x Hc. cbn.
      unfold non_space. by rewrite Hc.
    - apply follows_star. right. intros c x Hc.
      by apply (blocked_by_literal is_space 98); [lia|..]. }
  assert (Hconn : follows true (Cat [Plus is_cred; Str (js "@")]) Some).
  { follows_simple. apply follows_plus. right. intros c x Hc.
    apply (blocked_by_literal is_cred 64 [] []); [lia|done|lia|done]. }
  assert (Hslashes : ∀ l,
            (l < 65 ∨ 90 < l)%N → ci_eqb l 58 = false →
            ((97 ≤ l ≤ 122)%N → ci_eqb (l - 32) 58 = false) →
            ∀ L s, lit true (l :: L) s ≠ None →
            possessive true
              (Cat [Str (js "://"); Plus is_cred; Str (js "@")]) s ≫= Some
            = None).
  { intros l Hl Hcolon Hupper L s (c & x & -> & Hc)%lit_head.
    apply (blocked_by_literal (ci_eqb l) 58 (js "//")); [lia| |lia|done].
    destruct (ci_eqb 58 l) eqn:H58; [|done].
    apply ci_eqb_symbol in H58; [subst; by vm_compute in Hl|lia]. }
  unfold SENSITIVE_PATTERNS, re_gi.
  repeat apply Forall_cons_2; cbn [source ignoreCase].
  - apply follows_cat_cons; [by apply Hkv|apply follows_str].
  - apply follows_cat_cons; [by apply Hkv|apply follows_str].
  - apply follows_cat_cons; [|apply follows_str].
    apply follows_cat_cons.
    + apply follows_cat_cons; [by apply Hkv|apply follows_str].
    + apply follows_opt; [apply follows_cls|].
      intros [|c x] Hs; cbn in Hs; [done|].
      destruct (is_joiner c) eqn:Hc; [|done].
      by apply (blocked_by_literal is_joiner 107); [lia|..].
  - apply follows_cat_cons; [by apply Hkv|apply follows_str].
  - apply follows_cat_cons; [by apply Hkv|apply follows_str].
  - apply follows_cat_cons; [apply Hauth|apply follows_str].
  - apply follows_cat_cons; [apply Hauth|apply follows_str].
  - apply follows_cat_cons; [|apply follows_str].
    apply follows_cat_cons.
    + apply follows_cat_cons; [apply Hconn|apply follows_str].
    + apply follows_opt; [apply follows_str|].
      change (js "l") with [108%N]. by apply Hslashes; [lia|..].
  - apply follows_cat_cons; [apply Hconn|apply follows_str].
  - apply follows_cat_cons; [|apply follows_str].
    apply follows_cat_cons.
    + apply follows_cat_cons; [apply Hconn|apply follows_str].
    + apply follows_opt; [apply follows_str|].
      change (js "+srv") with (43%N :: js "srv").
      by apply Hslashes; [lia|..].
  - constructor.
Qed.

Lemma SENSITIVE_MATCHERS_eq :
  SENSITIVE_MATCHERS = [
    cat [lit true (js "password"); plus is_sep; star is_value];
    cat [lit true (js "token"); plus is_sep; star is_value];
    cat [lit true (js "api"); opt (one is_joiner); lit true (js "key");
         plus is_sep; star is_value];
    cat [lit true (js "secret"); plus is_sep; star is_value];
    cat [lit true (js "credential"); plus is_sep; star is_value];
    cat [lit true (js "authorization:"); star is_space;
         lit true (js "bearer"); plus is_space; plus non_space];
    cat [lit true (js "authorization:"); star is_space;
         lit true (js "basic"); plus is_space; plus non_space];
    cat [lit true (js "postgresq"); opt (lit true (js "l"));
         lit true (js "://"); plus is_cred; lit true (js "@")];
    cat [lit true (js "mysql://"); plus is_cred; lit true (js "@")];
    cat [lit true (js "mongodb"); opt (lit true (js "+srv"));
         lit true (js "://"); plus is_cred; lit true (js "@")]
  ].
Proof. reflexivity. Qed.

Lemma replace_from_ext (m m' : matcher) (R : jsstring) (n : nat) s :
  (∀ x, m x = m' x) → replace_from m R n s = replace_from m' R n s.
Proof.
  intros Hm. revert n. induction s as [|c s IH]; intros [|n]; cbn;
    rewrite <- ?Hm; try done.
  - destruct (m (c :: s)) as [rest|]; [|by rewrite IH].
    f_equal. destruct (_ - _)%nat; by rewrite IH.
Qed.

(** Redaction computed with the matchers that give nothing back. *)
Lemma redactSecrets_possessive (message : jsstring) :
  redactSecrets message = redact_with SENSITIVE_MATCHERS message.
Proof.
  unfold redactSecrets, redact_with, SENSITIVE_MATCHERS.
  pose proof sensitive_patterns_follow as Hall. revert message.
  induction Hall as [|pattern patterns Hp _ IH]; intros message; [done|].
  cbn [map fold_left]. rewrite IH. f_equal. unfold replace.
  apply replace_from_ext. by apply exec_possessive.
Qed.

End Agreement.

(** ** SSRF guard: the claims *)

Section SsrfGuard.

Import ssrf analysis.

Implicit Types (s p r : jsstring) (c a : N).

Lemma validateUrl_rejects_unsafe (URL_new : jsstring → option URL) urlString :
  (∃ e, validateUrl URL_new urlString = inl e) →
  (∃ e, validateUrl URL_new urlString = inl e)
  ∧ isUrlSafe URL_new urlString = false.
Proof. intros [e H]. unfold isUrlSafe. rewrite H. by eauto. Qed.

Lemma http_allowed (url : URL) :
  protocol url = js "http:" ∨ protocol url = js "https:" ↔
  protocol url ∈ ALLOWED_PROTOCOLS.
Proof.
  unfold ALLOWED_PROTOCOLS. rewrite !elem_of_cons, elem_of_nil. tauto.
Qed.

(** C2, as amended.  For a text that the URL parser accepts: with scheme
    http or https and a host name that matches [10.*], [172.16-31.*],
    [192.168.*], [169.254.*], [127.*] or [0.*], or is [localhost], the
    guard throws and [isUrlSafe] is false; with any other scheme the
    guard throws; with scheme http or https and a public domain name
    that does not itself begin with one of those numeric prefixes, the
    guard returns the parsed URL and [isUrlSafe] is true. *)
Theorem validateUrl_spec (URL_new : jsstring → option URL) urlString :
  (∀ url, URL_new urlString = Some url →
     protocol url = js "http:" ∨ protocol url = js "https:" →
     private_ipv4_text (hostname url) = true ∨ hostname url = js "localhost" →
     (∃ e, validateUrl URL_new urlString = inl e)
     ∧ isUrlSafe URL_new urlString = false)
  ∧ (∀ url, URL_new urlString = Some url →
       ¬ (protocol url = js "http:" ∨ protocol url = js "https:") →
       (∃ e, validateUrl URL_new urlString = inl e)
       ∧ isUrlSafe URL_new urlString = false)
  ∧ (∀ url, URL_new urlString = Some url →
       protocol url = js "http:" ∨ protocol url = js "https:" →
       public_domain (hostname url) = true →
       private_ipv4_text (hostname url) = false →
       validateUrl URL_new urlString = inr url
       ∧ isUrlSafe URL_new urlString = true).
Proof.
  split; [|split].
  - intros url Hparse Hproto%http_allowed Hhost.
    apply validateUrl_rejects_unsafe.
    unfold validateUrl. rewrite Hparse.
    rewrite bool_decide_eq_true_2 by done. cbn [negb].
    destruct (_ || _) eqn:Hlocal; [by eauto|].
    destruct Hhost as [Hhost|Hhost].
    + rewrite ranges_test, private_text_blocked; [by eauto|].
      by rewrite private_text_lower.
    + by rewrite Hhost in Hlocal.
  - intros url Hparse Hproto. rewrite http_allowed in Hproto.
    apply validateUrl_rejects_unsafe. unfold validateUrl.
    rewrite Hparse. rewrite bool_decide_eq_false_2 by done. by eauto.
  - intros url Hparse Hproto%http_allowed Hdomain Hpublic.
    enough (Hv : validateUrl URL_new urlString = inr url).
    { split; [done|]. unfold isUrlSafe. by rewrite Hv. }
    unfold public_domain in Hdomain.
    apply andb_true_iff in Hdomain as [Hdomain _].
    apply andb_true_iff in Hdomain as [Hdot%labels_two_dot Hchars].
    apply labels_host_chars, lower_host_chars in Hchars.
    unfold validateUrl. rewrite Hparse.
    rewrite bool_decide_eq_true_2 by done. cbn [negb].
    set (h := toLowerCase (hostname url)) in *.
    assert (Hprivate : private_ipv4_text h = false)
      by (unfold h; by rewrite private_text_lower).
    assert (Hdot' : 46%N ∈ h).
    { unfold h, toLowerCase. change 46%N with (lower 46).
      by apply list_elem_of_fmap_2. }
    unfold str_eqb.
    rewrite (bool_decide_eq_false_2 (h = js "localhost"));
      [|intros Heq; rewrite Heq in Hdot'; vm_compute in Hdot';
        repeat (apply elem_of_cons in Hdot' as [Hdot'|Hdot']; [done|]);
        by apply elem_of_nil in Hdot'].
    rewrite (bool_decide_eq_false_2 (h = js "0.0.0.0"));
      [|intros Heq; by rewrite Heq in Hprivate].
    rewrite (bool_decide_eq_false_2 (h = js "[::1]"));
      [|intros Heq; by rewrite Heq in Hchars].
    rewrite (bool_decide_eq_false_2 (h = js "::1"));
      [|intros Heq; by rewrite Heq in Hchars].
    cbn [orb]. rewrite ranges_test.
    replace PRIVATE_IP_MATCHERS
      with (firstn 6 PRIVATE_IP_MATCHERS ++ skipn 6 PRIVATE_IP_MATCHERS)
      by apply firstn_skipn.
    rewrite existsb_app, (ipv6_ranges_need_colon h Hchars), orb_false_r.
    destruct (existsb _ (firstn 6 PRIVATE_IP_MATCHERS)) eqn:Hv4; [|done].
    apply blocked_ipv4_private_text in Hv4. congruence.
Qed.


Lemma validateUrl_spec_witness :
  isUrlSafe URL_plain (js "http://192.168.1.1/internal") = false
  ∧ isUrlSafe URL_plain (js "ftp://example.com/file") = false
  ∧ validateUrl URL_plain (js "https://example.com/public")
    = inr {| protocol := js "https:"; hostname := js "example.com" |}.
Proof.
  split; [|split].
  - apply (proj1 (validateUrl_spec URL_plain (js "http://192.168.1.1/internal"))
             {| protocol := js "http:"; hostname := js "192.168.1.1" |}).
    + reflexivity.
    + left. reflexivity.
    + left. reflexivity.
  - apply (proj1 (proj2 (validateUrl_spec URL_plain (js "ftp://example.com/file")))
             {| protocol := js "ftp:"; hostname := js "example.com" |}).
    + reflexivity.
    + intros [H|H]; discriminate H.
  - apply (proj2 (proj2 (validateUrl_spec URL_plain
                            (js "https://example.com/public")))
             {| protocol := js "https:"; hostname := js "example.com" |}).
    + reflexivity.
    + right. reflexivity.
    + reflexivity.
    + reflexivity.
Defined.

(** C2 as stated fails for a public domain name whose first label is one
    of the numeric prefixes: the ranges are matched against the text of
    the host name, so [10.example.com] is refused. *)
Lemma numeric_first_label_is_refused :
  public_domain (js "10.example.com") = true
  ∧ URL_plain (js "http://10.example.com/api")
    = Some {| protocol := js "http:"; hostname := js "10.example.com" |}
  ∧ validateUrl URL_plain (js "http://10.example.com/api")
    = inl {| message := js "Private IP range access is not allowed" |}
  ∧ isUrlSafe URL_plain (js "http://10.example.com/api") = false.
Proof. split; [|split; [|split]]; reflexivity. Qed.

(** C3 fails on the code.  The URL parser prints an IPv6 host with its
    brackets, and every range of the code is anchored at the first
    character: a host name that starts with a bracket is matched by
    none of them, and only the loopback address is caught, by the last
    comparison of [validateUrl]. *)
Theorem bracketed_host_passes
    (URL_new : jsstring → option URL) urlString (url : URL) (rest : jsstring) :
  URL_new urlString = Some url →
  protocol url = js "http:" ∨ protocol url = js "https:" →
  hostname url = 91%N :: rest →
  toLowerCase (hostname url) ≠ js "[::1]" →
  validateUrl URL_new urlString = inr url
  ∧ isUrlSafe URL_new urlString = true.
Proof.
  intros Hparse Hproto%http_allowed Hhost Hloop.
  enough (Hv : validateUrl URL_new urlString = inr url).
  { split; [done|]. unfold isUrlSafe. by rewrite Hv. }
  unfold validateUrl. rewrite Hparse.
  rewrite bool_decide_eq_true_2 by done. cbn [negb].
  unfold str_eqb at 3. rewrite (bool_decide_eq_false_2 _ Hloop).
  rewrite Hhost. reflexivity.
Qed.

Lemma bracketed_host_passes_witness :
  isUrlSafe URL_plain (js "http://[fe80::1]/") = true
  ∧ isUrlSafe URL_plain (js "http://[fc00::1]/") = true
  ∧ isUrlSafe URL_plain (js "http://[fd12:3456:789a::1]/") = true
  ∧ isUrlSafe URL_plain (js "http://[::]/") = true.
Proof.
  split; [|split; [|split]].
  - apply (bracketed_host_passes URL_plain (js "http://[fe80::1]/")
             {| protocol := js "http:"; hostname := js "[fe80::1]" |}
             (js "fe80::1]")); [reflexivity|by left|reflexivity|discriminate].
  - apply (bracketed_host_passes URL_plain (js "http://[fc00::1]/")
             {| protocol := js "http:"; hostname := js "[fc00::1]" |}
             (js "fc00::1]")); [reflexivity|by left|reflexivity|discriminate].
  - apply (bracketed_host_passes URL_plain (js "http://[fd12:3456:789a::1]/")
             {| protocol := js "http:"; hostname := js "[fd12:3456:789a::1]" |}
             (js "fd12:3456:789a::1]"));
      [reflexivity|by left|reflexivity|discriminate].
  - apply (bracketed_host_passes URL_plain (js "http://[::]/")
             {| protocol := js "http:"; hostname := js "[::]" |}
             (js "::]")); [reflexivity|by left|reflexivity|discriminate].
Defined.

(** The loopback address is the one IPv6 host that the guard refuses. *)
Lemma ipv6_loopback_refused :
  validateUrl URL_plain (js "http://[::1]/api")
  = inl {| message := js "IPv6 localhost access is not allowed" |}.
Proof. reflexivity. Qed.

End SsrfGuard.

(** ** Secret redaction *)

Section Redaction.

Import logger analysis.

Implicit Types (m p q : matcher) (s t r w x z run : jsstring) (c a : N).

(** *** Global replacement *)

Lemma consuming_nil m : consuming m → m [] = None.
Proof.
  intros Hm. destruct (m []) as [r|] eqn:Hr; [|done].
  destruct (Hm _ _ Hr) as ([|c pre] & Hpre & Heq); done.
Qed.

Lemma replace_from_drop m R (k : nat) s :
  consuming m → replace_from m R k s = replace m R (drop k s).
Proof.
  intros Hm. revert s. induction k as [|k IH]; intros s; [done|].
  destruct s as [|c s]; cbn.
  - unfold replace. cbn. by rewrite consuming_nil.
  - apply IH.
Qed.

Lemma replace_nil m R : consuming m → replace m R [] = [].
Proof. intros Hm. unfold replace. cbn. by rewrite consuming_nil. Qed.

Lemma replace_cons m R c s :
  consuming m →
  replace m R (c :: s) =
  match m (c :: s) with
  | Some r => R ++ replace m R r
  | None => c :: replace m R s
  end.
Proof.
  intros Hm. unfold replace at 1. cbn [replace_from].
  destruct (m (c :: s)) as [r|] eqn:Hr; [|done].
  destruct (Hm _ _ Hr) as ([|c' pre] & Hpre & Heq); [done|].
  injection Heq as <- ->. f_equal.
  replace (length (c :: pre ++ r) - length r)%nat with (S (length pre))
    by (cbn; rewrite length_app; lia).
  rewrite replace_from_drop by done. by rewrite drop_app_length.
Qed.

Lemma suffix_cons_case {A} (x l : list A) (c : A) :
  x `suffix_of` c :: l → x = c :: l ∨ x `suffix_of` l.
Proof. intros [[|c' k] E]; [by left|]. right. injection E as _ ->. by exists k. Qed.

Lemma clean_suffix m s x : clean m s → x `suffix_of` s → clean m x.
Proof. intros Hs Hx y Hy. apply Hs. by etrans. Qed.

Lemma replace_clean_id m R s : consuming m → clean m s → replace m R s = s.
Proof.
  intros Hm. induction s as [|c s IH]; intros Hs; [by apply replace_nil|].
  rewrite replace_cons by done. rewrite (Hs (c :: s)) by done.
  f_equal. apply IH. eapply clean_suffix; [done|]. by apply suffix_cons_r.
Qed.

Lemma diverge_cons p R c s t : diverge p R s t → diverge p R (c :: s) (c :: t).
Proof.
  intros [->|(w & x & t2 & -> & Hx & ->)]; [by left|].
  right. by exists (c :: w), x, t2.
Qed.

Lemma replace_diverge p R s : consuming p → diverge p R s (replace p R s).
Proof.
  intros Hp. destruct s as [|c s]; [left; by apply replace_nil|].
  induction s as [|c' s IH] in c |- *.
  - rewrite replace_cons, replace_nil by done.
    destruct (p [c]) as [r|] eqn:Hr; [|by left].
    right. exists [], [c], (replace p R r). by rewrite Hr.
  - rewrite replace_cons by done.
    destruct (p (c :: c' :: s)) as [r|] eqn:Hr.
    + right. exists [], (c :: c' :: s), (replace p R r). by rewrite Hr.
    + apply diverge_cons, IH.
Qed.

(** The step that carries cleanliness through a replacement: [q] does not
    match inside or across the marker, and a match of [q] in the
    replaced text is a match in the original text. *)
Lemma replace_clean q p R s :
  consuming p → consuming q →
  (∀ T x, x `suffix_of` R ++ T → x `suffix_of` T ∨ q x = None) →
  (∀ s t, diverge p R s t → q t ≠ None → q s ≠ None) →
  (∀ x, x `suffix_of` s → q x ≠ None → p x ≠ None) →
  clean q (replace p R s).
Proof.
  intros Hp Hq Hmark Hrefl.
  induction (Nat.lt_wf_0_projected length s) as [s _ IH]. intros Hs.
  destruct s as [|c s].
  - rewrite replace_nil by done. intros x ->%suffix_nil_inv.
    by apply consuming_nil.
  - rewrite replace_cons by done.
    destruct (p (c :: s)) as [r|] eqn:Hr.
    + destruct (Hp _ _ Hr) as (pre & Hpre & Heq).
      assert (Hclean : clean q (replace p R r)).
      { apply IH.
        - rewrite Heq, length_app. destruct pre; [done|]. cbn. lia.
        - intros x Hx. apply Hs. rewrite Heq. by apply suffix_app_r. }
      intros x Hx. destruct (Hmark _ _ Hx) as [Hx'|Hx']; [by apply Hclean|done].
    + assert (Hclean : clean q (replace p R s)).
      { apply IH; [cbn; lia|]. intros x Hx. apply Hs. by apply suffix_cons_r. }
      intros x [->|Hx]%suffix_cons_case; [|by apply Hclean].
      destruct (q (c :: replace p R s)) as [r|] eqn:Hqr; [exfalso|done].
      apply (Hs (c :: s)); [done| |done].
      apply (Hrefl _ (c :: replace p R s)); [|by rewrite Hqr].
      apply diverge_cons, replace_diverge. done.
Qed.

(** *** Patterns next to the marker *)

Lemma stable_lit A (L : jsstring) :
  forallb (λ l, negb (ci_eqb l 91)) L = true → stable A (lit true L).
Proof.
  induction L as [|l L IH]; intros HL w t2 r.
  - cbn. intros [= <-]. by exists w.
  - cbn in HL. apply andb_true_iff in HL as [Hl HL].
    apply negb_true_iff in Hl.
    destruct w as [|c w]; cbn; [by rewrite Hl|].
    destruct (ci_eqb l c); [|done]. by apply IH.
Qed.

Lemma failstable_lit A (L : jsstring) :
  (∀ l a, l ∈ L → A a → ci_eqb l a = false) → failstable A (lit true L).
Proof.
  induction L as [|l L IH]; intros HL w t2; [done|].
  destruct w as [|c w]; cbn.
  - intros _ a z Ha. rewrite (HL l a); [done|by left|done].
  - destruct (ci_eqb l c); [|done]. intros H a z Ha.
    apply (IH (λ l' a' Hl', HL l' a' (list_elem_of_further _ _ _ Hl')) w t2 H a z Ha).
Qed.

Lemma stable_one A (f : N → bool) : f 91%N = false → stable A (one f).
Proof.
  intros Hf [|c w] t2 r; cbn; [by rewrite Hf|].
  destruct (f c); [|done]. intros [= <-]. by exists w.
Qed.

Lemma failstable_one A (f : N → bool) :
  (∀ a, A a → f a = false) → failstable A (one f).
Proof.
  intros Hf [|c w] t2; cbn.
  - intros _ a z Ha. by rewrite Hf.
  - by destruct (f c).
Qed.

Lemma skip_stable A (f : N → bool) w t2 :
  f 91%N = false → (∀ a, A a → f a = false) →
  ∃ w', skip f (w ++ 91%N :: t2) = w' ++ 91%N :: t2
        ∧ ∀ a z, A a → skip f (w ++ a :: z) = w' ++ a :: z.
Proof.
  intros Hf HA. induction w as [|c w IH]; cbn.
  - rewrite Hf. exists []. split; [done|]. intros a z Ha. by rewrite HA.
  - destruct (f c); [done|]. by exists (c :: w).
Qed.

Lemma stable_star A (f : N → bool) :
  f 91%N = false → (∀ a, A a → f a = false) → stable A (star f).
Proof.
  intros Hf HA w t2 r. unfold star. intros [= <-].
  destruct (skip_stable A f w t2 Hf HA) as (w' & -> & Hw').
  exists w'. split; [done|]. intros a z Ha. by rewrite Hw'.
Qed.

Lemma stable_plus A (f : N → bool) :
  f 91%N = false → (∀ a, A a → f a = false) → stable A (plus f).
Proof.
  intros Hf HA [|c w] t2 r; cbn; [by rewrite Hf|].
  destruct (f c); [|done]. intros [= <-].
  destruct (skip_stable A f w t2 Hf HA) as (w' & -> & Hw').
  exists w'. split; [done|]. intros a z Ha. by rewrite Hw'.
Qed.

Lemma stable_opt A K : stable A K → failstable A K → stable A (opt K).
Proof.
  intros HK HF w t2 r. unfold opt.
  destruct (K (w ++ 91%N :: t2)) as [r'|] eqn:Hr.
  - intros [= <-]. destruct (HK _ _ _ Hr) as (w' & -> & Hw').
    exists w'. split; [done|]. intros a z Ha. by rewrite Hw'.
  - intros [= <-]. exists w. split; [done|].
    intros a z Ha. by rewrite (HF _ _ Hr).
Qed.

Lemma stable_cat A (Ks : list matcher) :
  Forall (stable A) Ks → stable A (cat Ks).
Proof.
  induction 1 as [|K Ks HK _ IH]; intros w t2 r; cbn.
  - intros [= <-]. by exists w.
  - destruct (K (w ++ 91%N :: t2)) as [r1|] eqn:Hr1; [|done].
    destruct (HK _ _ _ Hr1) as (w1 & -> & Hw1). intros Hr.
    destruct (IH _ _ _ Hr) as (w' & -> & Hw').
    exists w'. split; [done|]. intros a z Ha. rewrite Hw1 by done. by apply Hw'.
Qed.

Lemma cat_app (Ks Ls : list matcher) s :
  cat (Ks ++ Ls) s = cat Ks s ≫= cat Ls.
Proof.
  revert s. induction Ks as [|K Ks IH]; intros s; cbn; [done|].
  by destruct (K s).
Qed.

(** *** The three shapes of pattern *)

Lemma initial_cases a :
  is_initial a = true →
  a ∈ [112; 80; 116; 84; 97; 65; 115; 83; 99; 67; 109; 77]%N.
Proof.
  unfold is_initial.
  change (js "ptascm") with [112; 116; 97; 115; 99; 109]%N.
  cbn [existsb]. rewrite !orb_true_iff.
  intros [H|[H|[H|[H|[H|[H|H]]]]]]; [..|done];
    (apply ci_eqb_letter in H; [|lia]); destruct H as [-> | ->];
    vm_compute; repeat first [by left | right].
Qed.

Lemma conn_initial_initial a : is_conn_initial a = true → is_initial a = true.
Proof.
  unfold is_conn_initial, is_initial.
  change (js "ptascm") with [112; 116; 97; 115; 99; 109]%N.
  change (js "pm") with [112; 109]%N.
  cbn [existsb]. rewrite !orb_true_iff. intros [H|[H|H]]; [..|done]; by auto 10.
Qed.

(** What is decided on an initial character by evaluation. *)
Lemma initial_decide (f : N → bool) (b : bool) :
  forallb (λ a, eqb (f a) b)
    [112; 80; 116; 84; 97; 65; 115; 83; 99; 67; 109; 77]%N = true →
  ∀ a, is_initial a = true → f a = b.
Proof.
  intros Hall a Ha%initial_cases. rewrite forallb_forall in Hall.
  apply eqb_prop, Hall. by apply list_elem_of_In.
Qed.

Lemma reflects_kv Ks p :
  stable (λ a, is_initial a = true) (cat Ks) →
  head_in (λ a, is_initial a = true) p →
  reflects (cat (Ks ++ kv_tail)) p.
Proof.
  intros HK Hp s t [->|(w & x & t2 & -> & Hx & ->)]; [done|].
  destruct (Hp x Hx) as (a & x' & -> & Ha).
  rewrite !cat_app. change REDACTED with (91%N :: js "REDACTED]"). cbn [app].
  destruct (cat Ks (w ++ 91%N :: _)) as [r|] eqn:Hr; [|done].
  destruct (HK _ _ _ Hr) as (w' & -> & Hw'). rewrite (Hw' a x' Ha).
  cbn. destruct w' as [|c w']; cbn; [done|]. by destruct (is_sep c).
Qed.

Lemma reflects_auth Ks p :
  stable (λ a, is_initial a = true) (cat Ks) →
  head_in (λ a, is_initial a = true) p →
  reflects (cat (Ks ++ auth_tail)) p.
Proof.
  intros HK Hp s t [->|(w & x & t2 & -> & Hx & ->)]; [done|].
  destruct (Hp x Hx) as (a & x' & -> & Ha).
  rewrite !cat_app. change REDACTED with (91%N :: js "REDACTED]"). cbn [app].
  destruct (cat Ks (w ++ 91%N :: _)) as [r|] eqn:Hr; [|done].
  destruct (HK _ _ _ Hr) as (w' & -> & Hw'). rewrite (Hw' a x' Ha).
  cbn. destruct w' as [|c w']; cbn.
  - intros _. by rewrite (initial_decide non_space true eq_refl a Ha).
  - by destruct (non_space c).
Qed.

Lemma skip_run (f : N → bool) run d s3 :
  forallb f run = true → f d = false → skip f (run ++ d :: s3) = d :: s3.
Proof.
  intros Hm Hd. induction run as [|c run IH]; cbn; [by rewrite Hd|].
  cbn in Hm. apply andb_true_iff in Hm as [-> Hm]. by apply IH.
Qed.

Lemma plus_skip (f : N → bool) c x :
  plus f (c :: x) = if f c then Some (skip f (c :: x)) else None.
Proof. cbn. by destruct (f c). Qed.

Lemma skip_cred_reflect w t2 run s3 :
  forallb is_cred run = true →
  lit true (js "@") (skip is_cred (w ++ 91%N :: t2)) ≠ None →
  lit true (js "@") (skip is_cred (w ++ run ++ 64%N :: s3)) ≠ None.
Proof.
  intros Hm. induction w as [|c w IH]; cbn [app].
  - intros _. by rewrite skip_run.
  - cbn [skip]. destruct (is_cred c); [done|].
    change (js "@") with [64%N]. cbn [lit]. by destruct (ci_eqb 64 c).
Qed.

Lemma reflects_conn Ks p :
  stable (λ a, is_conn_initial a = true) (cat Ks) →
  head_in (λ a, is_conn_initial a = true) p →
  cred_match p →
  reflects (cat (Ks ++ conn_tail)) p.
Proof.
  intros HK Hp Hcred s t [->|(w & x & t2 & -> & Hx & ->)]; [done|].
  destruct (Hp x Hx) as (a & x' & Heq & Ha).
  destruct (Hcred x Hx) as (run & s3 & -> & Hne & Hm1).
  rewrite !cat_app. change REDACTED with (91%N :: js "REDACTED]"). cbn [app].
  destruct (cat Ks (w ++ 91%N :: _)) as [r|] eqn:Hr; [|done].
  destruct (HK _ _ _ Hr) as (w' & -> & Hw').
  rewrite Heq, (Hw' a x' Ha), <- Heq. clear Hw' Hr.
  cbn [mbind option_bind conn_tail cat].
  assert (Hplus : ∀ y, match plus is_cred y with
                       | Some r => match lit true (js "@") r with
                                   | Some r0 => Some r0 | None => None end
                       | None => None
                       end ≠ None →
            ∃ c y', y = c :: y' ∧ is_cred c = true
                    ∧ lit true (js "@") (skip is_cred y) ≠ None).
  { intros [|c y]; [done|]. rewrite plus_skip.
    destruct (is_cred c) eqn:Hc; [|done]. intros H.
    exists c, y. repeat split; [done|]. by destruct (lit _ _ _). }
  intros (c & y' & Hy & Hc & Hat)%Hplus.
  pose proof (skip_cred_reflect w' _ run s3 Hm1 Hat) as Hat'.
  destruct (w' ++ run ++ 64%N :: s3) as [|c' y''] eqn:Hy'.
  { destruct w', run; done. }
  assert (Hc' : is_cred c' = true).
  { destruct w' as [|c0 w']; cbn in Hy, Hy'.
    - destruct run as [|c1 run]; [done|]. injection Hy' as <- _.
      cbn in Hm1. by apply andb_true_iff in Hm1 as [-> _].
    - injection Hy as <- _. by injection Hy' as <- _. }
  rewrite plus_skip, Hc'.
  destruct (lit true (js "@") (skip is_cred (c' :: y''))); [done|].
  by destruct Hat'.
Qed.

(** *** The patterns of the code *)

Lemma skip_split (f : N → bool) s :
  ∃ run, s = run ++ skip f s ∧ forallb f run = true.
Proof.
  induction s as [|c s (run & Hs & Hrun)]; [by exists []|]. cbn.
  destruct (f c) eqn:Hc; [|by exists []].
  exists (c :: run). cbn. rewrite Hc, Hrun. split; [by f_equal|done].
Qed.

Lemma advancing_lit ci L : advancing (lit ci L).
Proof. intros s r. apply lit_suffix. Qed.

Lemma advancing_one f : advancing (one f).
Proof. intros s r (c & -> & _)%one_inv. by exists [c]. Qed.

Lemma advancing_star f : advancing (star f).
Proof.
  intros s r [= <-]. destruct (skip_split f s) as (run & Hs & _). by exists run.
Qed.

Lemma advancing_plus f : advancing (plus f).
Proof.
  intros [|c s] r; cbn; [done|]. destruct (f c); [|done]. intros [= <-].
  destruct (skip_split f s) as (run & Hs & _). exists (c :: run).
  cbn. by f_equal.
Qed.

Lemma advancing_opt m : advancing m → advancing (opt m).
Proof.
  intros Hm s r. unfold opt. destruct (m s) as [r'|] eqn:Hr.
  - intros [= <-]. by apply Hm.
  - intros [= <-]. by exists [].
Qed.

Lemma advancing_cat (ms : list matcher) : Forall advancing ms → advancing (cat ms).
Proof.
  induction 1 as [|m ms Hm _ IH]; intros s r; cbn.
  - intros [= <-]. by exists [].
  - destruct (m s) as [r1|] eqn:Hr1; [|done].
    destruct (Hm _ _ Hr1) as [pre1 ->]. intros [pre2 ->]%IH.
    exists (pre1 ++ pre2). by rewrite <- app_assoc.
Qed.

Lemma lit_cons_inv ci l L s r :
  lit ci (l :: L) s = Some r →
  ∃ c s', s = c :: s' ∧ (if ci then ci_eqb l c else (l =? c)%N) = true
          ∧ lit ci L s' = Some r.
Proof.
  destruct s as [|c s]; cbn; [done|].
  destruct (if ci then _ else _) eqn:Hc; [|done]. intros Hr. by exists c, s.
Qed.

Lemma consuming_cat_lit ci l L (ms : list matcher) :
  Forall advancing ms → consuming (cat (lit ci (l :: L) :: ms)).
Proof.
  intros Hms s r (r1 & Hlit & Hcat)%cat_cons_inv.
  apply lit_cons_inv in Hlit as (c & s' & -> & _ & [pre1 ->]%lit_suffix).
  apply (advancing_cat ms Hms) in Hcat as [pre2 ->].
  exists (c :: pre1 ++ pre2). split; [done|]. cbn. by rewrite <- app_assoc.
Qed.

Lemma head_cat_lit (A : N → Prop) l L (ms : list matcher) :
  (∀ a, ci_eqb l a = true → A a) →
  head_in A (cat (lit true (l :: L) :: ms)).
Proof.
  intros Hl x Hx. destruct (cat _ x) as [r|] eqn:Hr; [|done].
  apply cat_cons_inv in Hr as (r1 & Hlit & _).
  apply lit_cons_inv in Hlit as (c & s' & -> & Hc & _).
  exists c, s'. split; [done|]. by apply Hl.
Qed.

Lemma cred_lit_sound l c :
  cred_lit l = true → ci_eqb l c = true → is_cred c = true.
Proof.
  unfold cred_lit. rewrite !andb_true_iff, negb_true_iff.
  intros [[Hl Hup] Hcap] Hc.
  destruct ((97 <=? l) && (l <=? 122))%N eqn:Hlow.
  - apply andb_true_iff in Hlow as [H1%N.leb_le H2%N.leb_le].
    apply ci_eqb_letter in Hc as [-> | ->]; [done..|lia].
  - unfold ci_eqb in Hc. apply N.eqb_eq in Hc.
    assert (lower l = l) as Hll.
    { unfold lower. by rewrite Hcap. }
    rewrite Hll in Hc. symmetry in Hc. apply lower_inv in Hc as ->; [done|].
    intros [H1%N.leb_le H2%N.leb_le]. by rewrite H1, H2 in Hlow.
Qed.

Lemma cred_only_lit L : forallb cred_lit L = true → cred_only (lit true L).
Proof.
  induction L as [|l L IH]; intros HL s r.
  - cbn. intros [= <-]. by exists [].
  - cbn in HL. apply andb_true_iff in HL as [Hl HL].
    intros (c & s' & -> & Hc & Hr)%lit_cons_inv.
    destruct (IH HL _ _ Hr) as (pre & -> & Hpre).
    exists (c :: pre). split; [done|]. cbn.
    by rewrite (cred_lit_sound l c Hl Hc).
Qed.

Lemma cred_only_opt m : cred_only m → cred_only (opt m).
Proof.
  intros Hm s r. unfold opt. destruct (m s) as [r'|] eqn:Hr.
  - intros [= <-]. by apply Hm.
  - intros [= <-]. by exists [].
Qed.

Lemma cred_only_cat (ms : list matcher) : Forall cred_only ms → cred_only (cat ms).
Proof.
  induction 1 as [|m ms Hm _ IH]; intros s r; cbn.
  - intros [= <-]. by exists [].
  - destruct (m s) as [r1|] eqn:Hr1; [|done].
    destruct (Hm _ _ Hr1) as (pre1 & -> & Hpre1).
    intros (pre2 & -> & Hpre2)%IH.
    exists (pre1 ++ pre2). rewrite <- app_assoc. split; [done|].
    by rewrite forallb_app, Hpre1, Hpre2.
Qed.

Lemma cred_match_conn (Ks : list matcher) :
  Forall cred_only Ks → cred_match (cat (Ks ++ conn_tail)).
Proof.
  intros HKs x Hx. rewrite cat_app in Hx.
  destruct (cat Ks x) as [r|] eqn:Hr; [|done].
  destruct (cred_only_cat Ks HKs _ _ Hr) as (pre & -> & Hpre).
  cbn in Hx. destruct r as [|c r]; [done|]. rewrite plus_skip in Hx.
  destruct (is_cred c) eqn:Hc; [|done].
  destruct (skip_split is_cred (c :: r)) as (run & Hsplit & Hrun).
  change (js "@") with [64%N] in Hx. cbn [lit] in Hx.
  destruct (skip is_cred (c :: r)) as [|d r3] eqn:Hskip; [done|].
  destruct (ci_eqb 64 d) eqn:Hd; [|done].
  assert (d = 64%N) as ->.
  { unfold ci_eqb in Hd. apply N.eqb_eq in Hd. symmetry in Hd.
    apply lower_inv in Hd; [done|]. change (lower 64) with 64%N. lia. }
  exists (pre ++ run), r3. rewrite Hsplit, <- app_assoc. split; [done|].
  split.
  - destruct run as [|c0 run]; [|by destruct pre].
    cbn in Hsplit. injection Hsplit as -> _. by vm_compute in Hc.
  - by rewrite forallb_app, Hpre, Hrun.
Qed.

Ltac avoids_marker_tac :=
  let H := fresh in
  intros ? ? H; change REDACTED with (js "[REDACTED]") in H;
  vm_compute in H;
  repeat (apply suffix_cons_case in H as [->|H]; [right; reflexivity|]);
  by left.

Lemma early_intro (tl : list matcher) l L (Ks : list matcher) :
  tl = kv_tail ∨ tl = auth_tail →
  is_initial l = true → (97 ≤ l ≤ 122)%N →
  Forall advancing Ks →
  Forall (stable (λ a, is_initial a = true)) (lit true (l :: L) :: Ks) →
  avoids_marker (cat ((lit true (l :: L) :: Ks) ++ tl)) →
  early (cat ((lit true (l :: L) :: Ks) ++ tl)).
Proof.
  intros Htl Hl Hlow HKs Hst Hav. split; [|split; [done|split]].
  - apply (consuming_cat_lit true l L (Ks ++ tl)), Forall_app. split; [done|].
    destruct Htl as [-> | ->]; repeat constructor;
      auto using advancing_plus, advancing_star.
  - apply (head_cat_lit _ l L (Ks ++ tl)). intros a Ha.
    apply ci_eqb_letter in Ha; [|done].
    apply initial_cases in Hl.
    assert (Hin : a ∈ [112; 80; 116; 84; 97; 65; 115; 83; 99; 67; 109; 77]%N).
    { repeat (apply elem_of_cons in Hl as [->|Hl];
        [destruct Ha as [-> | ->]; vm_compute;
           first [lia | repeat first [by left | right]]|]).
      by apply elem_of_nil in Hl. }
    clear -Hin.
    repeat (apply elem_of_cons in Hin as [->|Hin]; [reflexivity|]).
    by apply elem_of_nil in Hin.
  - exists (lit true (l :: L) :: Ks). split; [|by apply stable_cat].
    destruct Htl as [-> | ->]; auto.
Qed.

Lemma late_intro l L (Ks : list matcher) :
  is_conn_initial l = true → (97 ≤ l ≤ 122)%N →
  Forall advancing Ks →
  Forall cred_only (lit true (l :: L) :: Ks) →
  Forall (stable (λ a, is_conn_initial a = true)) (lit true (l :: L) :: Ks) →
  avoids_marker (cat ((lit true (l :: L) :: Ks) ++ conn_tail)) →
  late (cat ((lit true (l :: L) :: Ks) ++ conn_tail)).
Proof.
  intros Hl Hlow HKs Hcred Hst Hav.
  split; [|split; [done|split; [|split]]].
  - apply (consuming_cat_lit true l L (Ks ++ conn_tail)), Forall_app.
    split; [done|]. repeat constructor; auto using advancing_plus, advancing_lit.
  - apply (head_cat_lit _ l L (Ks ++ conn_tail)). intros a Ha.
    apply ci_eqb_letter in Ha; [|done].
    unfold is_conn_initial in Hl. change (js "pm") with [112; 109]%N in Hl.
    cbn [existsb] in Hl. rewrite !orb_true_iff in Hl.
    destruct Hl as [Hl|[Hl|Hl]]; [..|done];
      (apply ci_eqb_letter in Hl; [|lia]);
      destruct Hl as [-> | ->]; try lia;
      destruct Ha as [-> | ->]; reflexivity.
  - by apply cred_match_conn.
  - exists (lit true (l :: L) :: Ks). split; [done|by apply stable_cat].
Qed.

Lemma conn_initial_cases a :
  is_conn_initial a = true → a ∈ [112; 80; 109; 77]%N.
Proof.
  unfold is_conn_initial. change (js "pm") with [112; 109]%N.
  cbn [existsb]. rewrite !orb_true_iff.
  intros [H|[H|H]]; [..|done];
    (apply ci_eqb_letter in H; [|lia]); destruct H as [-> | ->];
    vm_compute; repeat first [by left | right].
Qed.

Lemma failstable_lit_conn (L : jsstring) :
  forallb (λ l, forallb (λ a, negb (ci_eqb l a)) [112; 80; 109; 77]%N) L = true →
  failstable (λ a, is_conn_initial a = true) (lit true L).
Proof.
  intros HL. apply failstable_lit. intros l a Hl Ha%conn_initial_cases.
  rewrite forallb_forall in HL. apply list_elem_of_In, HL in Hl.
  rewrite forallb_forall in Hl. apply list_elem_of_In, Hl in Ha.
  by apply negb_true_iff.
Qed.

Lemma stable_space (A : N → Prop) :
  (∀ a, A a → is_initial a = true) →
  stable A (star is_space) ∧ stable A (plus is_space).
Proof.
  intros HA.
  assert (∀ a, A a → is_space a = false)
    by (intros a Ha%HA; by apply (initial_decide is_space false)).
  split; [by apply stable_star|by apply stable_plus].
Qed.

Lemma stable_joiner :
  stable (λ a, is_initial a = true) (opt (one is_joiner)).
Proof.
  apply stable_opt; [by apply stable_one|].
  apply failstable_one. by apply (initial_decide is_joiner false).
Qed.

Lemma early_patterns : Forall early (take 7 SENSITIVE_MATCHERS).
Proof.
  destruct (stable_space (λ a, is_initial a = true)) as [Hstar Hplus]; [done|].
  rewrite SENSITIVE_MATCHERS_eq. cbn [take firstn]. repeat apply Forall_cons_2.
  - apply (early_intro kv_tail 112 (js "assword") []);
      [by left|done|lia|done| |avoids_marker_tac].
    repeat constructor. by apply stable_lit.
  - apply (early_intro kv_tail 116 (js "oken") []);
      [by left|done|lia|done| |avoids_marker_tac].
    repeat constructor. by apply stable_lit.
  - apply (early_intro kv_tail 97 (js "pi")
             [opt (one is_joiner); lit true (js "key")]);
      [by left|done|lia| | |avoids_marker_tac].
    + repeat constructor;
        auto using advancing_opt, advancing_one, advancing_lit.
    + repeat constructor;
        [by apply stable_lit|apply stable_joiner|by apply stable_lit].
  - apply (early_intro kv_tail 115 (js "ecret") []);
      [by left|done|lia|done| |avoids_marker_tac].
    repeat constructor. by apply stable_lit.
  - apply (early_intro kv_tail 99 (js "redential") []);
      [by left|done|lia|done| |avoids_marker_tac].
    repeat constructor. by apply stable_lit.
  - apply (early_intro auth_tail 97 (js "uthorization:")
             [star is_space; lit true (js "bearer"); plus is_space]);
      [by right|done|lia| | |avoids_marker_tac].
    + repeat constructor;
        auto using advancing_star, advancing_plus, advancing_lit.
    + repeat constructor; try done; by apply stable_lit.
  - apply (early_intro auth_tail 97 (js "uthorization:")
             [star is_space; lit true (js "basic"); plus is_space]);
      [by right|done|lia| | |avoids_marker_tac].
    + repeat constructor;
        auto using advancing_star, advancing_plus, advancing_lit.
    + repeat constructor; try done; by apply stable_lit.
  - constructor.
Qed.

Lemma late_patterns : Forall late (drop 7 SENSITIVE_MATCHERS).
Proof.
  rewrite SENSITIVE_MATCHERS_eq. cbn [drop skipn]. repeat apply Forall_cons_2.
  - apply (late_intro 112 (js "ostgresq")
             [opt (lit true (js "l")); lit true (js "://")]);
      [done|lia| | | |avoids_marker_tac].
    + repeat constructor; auto using advancing_opt, advancing_lit.
    + repeat constructor;
        [by apply cred_only_lit|
         apply cred_only_opt; by apply cred_only_lit|by apply cred_only_lit].
    + repeat constructor; [by apply stable_lit| |by apply stable_lit].
      apply stable_opt; [by apply stable_lit|by apply failstable_lit_conn].
  - apply (late_intro 109 (js "ysql://") []);
      [done|lia|done| | |avoids_marker_tac].
    + repeat constructor. by apply cred_only_lit.
    + repeat constructor. by apply stable_lit.
  - apply (late_intro 109 (js "ongodb")
             [opt (lit true (js "+srv")); lit true (js "://")]);
      [done|lia| | | |avoids_marker_tac].
    + repeat constructor; auto using advancing_opt, advancing_lit.
    + repeat constructor;
        [by apply cred_only_lit|
         apply cred_only_opt; by apply cred_only_lit|by apply cred_only_lit].
    + repeat constructor; [by apply stable_lit| |by apply stable_lit].
      apply stable_opt; [by apply stable_lit|by apply failstable_lit_conn].
  - constructor.
Qed.

(** *** Cleanliness of the redacted text *)

Lemma late_head_initial q :
  late q → head_in (λ a, is_initial a = true) q.
Proof.
  intros (_ & _ & Hhead & _) x Hx.
  destruct (Hhead x Hx) as (a & x' & -> & Ha).
  exists a, x'. split; [done|]. by apply conn_initial_initial.
Qed.

Lemma early_or_late_consuming p : early p ∨ late p → consuming p.
Proof. by intros [[? _]|[? _]]. Qed.

Lemma reflects_early q p : early q → early p ∨ late p → reflects q p.
Proof.
  intros (_ & _ & _ & Ks & Hq & HKs) Hp.
  assert (Hhead : head_in (λ a, is_initial a = true) p).
  { destruct Hp as [(_ & _ & Hp & _)|Hp]; [done|by apply late_head_initial]. }
  destruct Hq as [-> | ->]; [by apply reflects_kv|by apply reflects_auth].
Qed.

Lemma reflects_late q p : late q → late p → reflects q p.
Proof.
  intros (_ & _ & _ & _ & Ks & -> & HKs) (_ & _ & Hhead & Hcred & _).
  by apply reflects_conn.
Qed.

Lemma redact_with_clean q ps s :
  consuming q → avoids_marker q →
  Forall (λ p, consuming p ∧ reflects q p) ps →
  clean q s → clean q (redact_with ps s).
Proof.
  intros Hq Hav Hps. revert s.
  induction Hps as [|p ps [Hp Hrefl] _ IH]; intros s Hs; [done|].
  cbn. apply IH. apply replace_clean; try done.
  intros x Hx Hqx. by rewrite (Hs x Hx) in Hqx.
Qed.

Lemma replace_self_clean q s :
  consuming q → avoids_marker q → reflects q q →
  clean q (replace q REDACTED s).
Proof. intros Hq Hav Hrefl. by apply replace_clean. Qed.

Lemma redact_with_ordered_clean (E L : list matcher) :
  Forall early E → Forall late L →
  ∀ s, Forall (λ q, clean q (redact_with (E ++ L) s)) (E ++ L).
Proof.
  intros HE HL. induction HE as [|q E Hq HE IH].
  - cbn [app]. induction HL as [|q L Hq HL IH]; intros s; [done|].
    constructor; [|apply IH].
    pose proof Hq as (Hcons & Hav & _).
    cbn. apply redact_with_clean; try done.
    + eapply Forall_impl; [exact HL|]. intros p Hp. cbn.
      split; [by destruct Hp|]. by apply reflects_late.
    + apply replace_self_clean; try done. by apply reflects_late.
  - intros s. cbn [app]. constructor; [|apply IH].
    assert (Hcons : consuming q) by (by destruct Hq).
    assert (Hav : avoids_marker q) by (by destruct Hq as (_ & ? & _)).
    cbn. apply redact_with_clean; try done.
    + apply Forall_app. split.
      * eapply Forall_impl; [exact HE|]. intros p Hp. cbn.
        split; [by destruct Hp|]. apply reflects_early; auto.
      * eapply Forall_impl; [exact HL|]. intros p Hp. cbn.
        split; [by destruct Hp|]. apply reflects_early; auto.
    + apply replace_self_clean; try done. apply reflects_early; auto.
Qed.

(** No pattern matches anywhere in a redacted text. *)
Lemma redactSecrets_clean s :
  Forall (λ q, clean q (redactSecrets s)) SENSITIVE_MATCHERS.
Proof.
  rewrite redactSecrets_possessive.
  rewrite <- (take_drop 7 SENSITIVE_MATCHERS).
  apply redact_with_ordered_clean;
    [apply early_patterns|apply late_patterns].
Qed.

Lemma patterns_consuming : Forall consuming SENSITIVE_MATCHERS.
Proof.
  rewrite <- (take_drop 7 SENSITIVE_MATCHERS). apply Forall_app. split.
  - eapply Forall_impl; [apply early_patterns|]. by intros q [? _].
  - eapply Forall_impl; [apply late_patterns|]. by intros q [? _].
Qed.

Lemma redact_with_clean_id (ps : list matcher) s :
  Forall (λ q, consuming q ∧ clean q s) ps → redact_with ps s = s.
Proof.
  induction 1 as [|q ps [Hq Hs] _ IH]; [done|].
  cbn. rewrite replace_clean_id by done. apply IH.
Qed.

(** C6.  Redacting a redacted text changes nothing. *)
Theorem redactSecrets_idempotent (s : jsstring) :
  redactSecrets (redactSecrets s) = redactSecrets s.
Proof.
  rewrite (redactSecrets_possessive (redactSecrets s)).
  apply redact_with_clean_id.
  pose proof patterns_consuming as Hcons.
  pose proof (redactSecrets_clean s) as Hclean.
  rewrite Forall_forall in Hcons, Hclean. apply Forall_forall.
  intros q Hq. split; [by apply Hcons|by apply Hclean].
Qed.

(** *** The marker in the redacted text *)

Lemma includes_app (sub : jsstring) s :
  includes sub s = true ↔ ∃ pre post, s = pre ++ sub ++ post.
Proof.
  split.
  - induction s as [|c s IH]; cbn [includes]; rewrite orb_true_iff.
    + intros [[post ->]%starts_with_app|]; [|done]. by exists [], post.
    + intros [[post ->]%starts_with_app|(pre & post & ->)%IH].
      * by exists [], post.
      * by exists (c :: pre), post.
  - intros (pre & post & ->). induction pre as [|c pre IH].
    + destruct (sub ++ post) eqn:Heq; cbn [includes app]; rewrite <- ?Heq;
        apply orb_true_iff; left; apply starts_with_app; by exists post.
    + cbn [includes app]. by rewrite IH, orb_true_r.
Qed.

Lemma avoids_inside q R2 T :
  avoids_marker q → R2 ≠ [] → R2 `suffix_of` REDACTED → q (R2 ++ T) = None.
Proof.
  intros Hav Hne [R1 HR].
  assert (Hsuf : R2 ++ T `suffix_of` REDACTED ++ T).
  { exists R1. by rewrite HR, <- app_assoc. }
  destruct (Hav T _ Hsuf) as [Hlen|]; [|done].
  apply suffix_length in Hlen. rewrite length_app in Hlen.
  destruct R2; [done|]. cbn in Hlen. lia.
Qed.

Lemma replace_marker_prefix p R2 T :
  consuming p → avoids_marker p → R2 `suffix_of` REDACTED →
  replace p REDACTED (R2 ++ T) = R2 ++ replace p REDACTED T.
Proof.
  intros Hp Hav. induction R2 as [|c R2 IH]; intros HR; [done|].
  cbn [app]. rewrite replace_cons by done.
  change (c :: R2 ++ T) with ((c :: R2) ++ T).
  rewrite (avoids_inside p (c :: R2) T Hav) by done.
  cbn [app]. f_equal. apply IH. by eapply suffix_cons_l.
Qed.

Lemma clean_or_match p s : clean p s ∨ ∃ x, x `suffix_of` s ∧ p x ≠ None.
Proof.
  induction s as [|c s [IH|(x & Hx & Hpx)]].
  - destruct (p []) eqn:Hp.
    + right. exists []. by rewrite Hp.
    + left. by intros x ->%suffix_nil_inv.
  - destruct (p (c :: s)) eqn:Hp.
    + right. exists (c :: s). by rewrite Hp.
    + left. intros x [->|Hx]%suffix_cons_case; [done|by apply IH].
  - right. exists x. split; [by apply suffix_cons_r|done].
Qed.

(** A replacement leaves a marker when the text had one or had a match. *)
Lemma replace_marker p s :
  consuming p → avoids_marker p →
  includes REDACTED s = true ∨ (∃ x, x `suffix_of` s ∧ p x ≠ None) →
  includes REDACTED (replace p REDACTED s) = true.
Proof.
  intros Hp Hav. induction s as [|c s IH].
  - intros [H|(x & ->%suffix_nil_inv & Hx)]; [done|].
    by rewrite consuming_nil in Hx.
  - intros H. destruct (p (c :: s)) as [r|] eqn:Hr.
    { rewrite replace_cons, Hr by done.
      apply includes_app. by exists [], (replace p REDACTED r). }
    assert (Hcase : starts_with REDACTED (c :: s) = true
              ∨ includes REDACTED s = true
              ∨ ∃ x, x `suffix_of` s ∧ p x ≠ None).
    { destruct H as [H|(x & [->|Hx]%suffix_cons_case & Hpx)].
      - cbn [includes] in H. apply orb_true_iff in H. tauto.
      - by rewrite Hr in Hpx.
      - right; right. by exists x. }
    destruct Hcase as [[T HT]%starts_with_app|Hcase].
    + rewrite HT, replace_marker_prefix by done.
      apply includes_app. by exists [], (replace p REDACTED T).
    + rewrite replace_cons, Hr by done.
      cbn [includes]. by rewrite (IH Hcase), orb_true_r.
Qed.

Lemma redact_with_marker (ps : list matcher) s :
  Forall (λ p, consuming p ∧ avoids_marker p) ps →
  includes REDACTED s = true
  ∨ (∃ q x, q ∈ ps ∧ x `suffix_of` s ∧ q x ≠ None) →
  includes REDACTED (redact_with ps s) = true.
Proof.
  intros Hps. revert s. induction Hps as [|p ps [Hp Hav] _ IH]; intros s.
  - intros [H|(q & x & Hq & _)]; [done|by apply elem_of_nil in Hq].
  - intros H. cbn. apply IH.
    destruct H as [H|(q & x & [->|Hq]%elem_of_cons & Hx & Hqx)].
    + left. apply replace_marker; auto.
    + left. apply replace_marker; eauto.
    + destruct (clean_or_match p s) as [Hclean|Hmatch].
      * right. rewrite replace_clean_id by done. by exists q, x.
      * left. apply replace_marker; auto.
Qed.

Lemma patterns_avoid_marker : Forall avoids_marker SENSITIVE_MATCHERS.
Proof.
  rewrite <- (take_drop 7 SENSITIVE_MATCHERS). apply Forall_app. split.
  - eapply Forall_impl; [apply early_patterns|]. by intros q (_ & ? & _).
  - eapply Forall_impl; [apply late_patterns|]. by intros q (_ & ? & _).
Qed.

(** A text in which a pattern matches somewhere is redacted to a text
    with a marker in which that pattern matches nowhere. *)
Lemma redactSecrets_match q s x :
  q ∈ SENSITIVE_MATCHERS → x `suffix_of` s → q x ≠ None →
  includes REDACTED (redactSecrets s) = true ∧ clean q (redactSecrets s).
Proof.
  intros Hq Hx Hqx. split.
  - rewrite redactSecrets_possessive.
    apply redact_with_marker; [|right; by exists q, x].
    pose proof patterns_consuming as Hc.
    pose proof patterns_avoid_marker as Ha.
    rewrite Forall_forall in Hc, Ha. apply Forall_forall. by auto.
  - pose proof (redactSecrets_clean s) as Hclean.
    rewrite Forall_forall in Hclean. by apply Hclean.
Qed.

Lemma bearer_head c rest :
  is_space c = false →
  cat [lit true (js "authorization:"); star is_space; lit true (js "bearer");
       plus is_space; plus non_space]
    (js "Authorization: Bearer " ++ c :: rest) ≠ None.
Proof.
  intros Hc.
  assert (Hskip : skip is_space (c :: rest) = c :: rest)
    by (cbn [skip]; by rewrite Hc).
  assert (Hplus : plus non_space (c :: rest) ≠ None)
    by (cbn [plus]; unfold non_space at 1; by rewrite Hc).
  change (cat _ _)
    with (match plus non_space (skip is_space (c :: rest)) with
          | Some r => Some r
          | None => None
          end).
  rewrite Hskip. by destruct (plus non_space (c :: rest)).
Qed.

(** *** The value of an assignment *)

Lemma skip_head (f : N → bool) s :
  match skip f s with [] => True | d :: _ => f d = false end.
Proof.
  induction s as [|c s IH]; cbn [skip]; [exact I|].
  destruct (f c) eqn:Hc; [exact IH|exact Hc].
Qed.

Lemma ends_value_kv (Ks : list matcher) : ends_value (cat (Ks ++ kv_tail)).
Proof.
  intros x r. rewrite cat_app. destruct (cat Ks x) as [r1|]; [|done].
  destruct r1 as [|c r1]; [done|]. cbn -[is_sep is_value].
  destruct (is_sep c); [|done]. intros [= <-]. apply skip_head.
Qed.

Lemma includes_elem c s : includes [c] s = true ↔ c ∈ s.
Proof.
  rewrite includes_app. split.
  - intros (pre & post & ->). apply elem_of_app. right. by left.
  - intros (pre & post & ->)%list_elem_of_split. by exists pre, post.
Qed.

Lemma absent_free v s : absent v s = true ↔ free v s.
Proof.
  unfold absent, free. rewrite forallb_forall. split.
  - intros H c Hc%list_elem_of_In%H Hin%includes_elem.
    by rewrite Hin in Hc.
  - intros H c Hc%list_elem_of_In%H. apply negb_true_iff.
    destruct (includes [c] s) eqn:Hin; [|done]. by apply includes_elem in Hin.
Qed.

Lemma free_app v s t : free v (s ++ t) ↔ free v s ∧ free v t.
Proof.
  unfold free. split.
  - intros H. split; intros c Hc Hin; apply (H c Hc), elem_of_app; auto.
  - intros [Hs Ht] c Hc [Hin|Hin]%elem_of_app; [by apply (Hs c)|by apply (Ht c)].
Qed.

Lemma free_suffix v s x : free v s → x `suffix_of` s → free v x.
Proof. intros Hs [k ->]. by apply free_app in Hs as [_ ?]. Qed.

Lemma replace_elem p R s c :
  consuming p → c ∈ replace p R s → c ∈ s ∨ c ∈ R.
Proof.
  intros Hp. remember (length s) as n eqn:Hn. revert s Hn.
  induction n as [n IH] using lt_wf_ind. intros [|c0 s] ->.
  - rewrite replace_nil by done. by left.
  - rewrite replace_cons by done. destruct (p (c0 :: s)) as [r|] eqn:Hr.
    + destruct (Hp _ _ Hr) as (pre & Hpre & Heq).
      intros [Hin|Hin]%elem_of_app; [by right|].
      apply (IH (length r)) in Hin; [| |done].
      * destruct Hin as [Hin|Hin]; [left|by right].
        rewrite Heq. apply elem_of_app. by right.
      * rewrite Heq, length_app. destruct pre; [done|]. cbn. lia.
    + intros [->|Hin]%elem_of_cons; [left; by left|].
      apply (IH (length s)) in Hin; [| cbn; lia | done].
      destruct Hin as [Hin|Hin]; [left; by right|by right].
Qed.

Lemma free_replace v p s :
  consuming p → free v REDACTED → free v s → free v (replace p REDACTED s).
Proof.
  intros Hp HR Hs c Hc [Hin|Hin]%replace_elem; [by apply (Hs c)|by apply (HR c)|done].
Qed.

Lemma suffix_value_run W b r :
  forallb is_value W = true → r `suffix_of` W ++ b →
  match r with [] => True | d :: _ => is_value d = false end →
  r `suffix_of` b.
Proof.
  induction W as [|c W IH]; cbn; [done|].
  intros [Hc HW]%andb_true_iff [->|Hr]%suffix_cons_case Hhead.
  - by rewrite Hc in Hhead.
  - by apply IH.
Qed.

Lemma suffix_app_case (l T : jsstring) r :
  r `suffix_of` l ++ T →
  (∃ l2, l2 `suffix_of` l ∧ r = l2 ++ T) ∨ r `suffix_of` T.
Proof.
  induction l as [|c l IH]; cbn; [by right|].
  intros [->|[(l2 & Hl2 & ->)|Hr]%IH]%suffix_cons_case.
  - left. by exists (c :: l).
  - left. exists l2. split; [by apply suffix_cons_r|done].
  - by right.
Qed.

(** Replacement in the text before a fixed remainder [T]. *)
Lemma replace_before v p (P : jsstring → Prop) (l T : jsstring) :
  consuming p → free v REDACTED → free v l →
  (∀ x t, free v x → P t → P (x ++ t)) →
  P (replace p REDACTED T) →
  (∀ x r, p x = Some r → r `suffix_of` T → P (replace p REDACTED r)) →
  P (replace p REDACTED (l ++ T)).
Proof.
  intros Hp HR Hl Hpre HT Hland.
  remember (length l) as n eqn:Hn. revert l Hl Hn.
  induction n as [n IH] using lt_wf_ind. intros [|c l] Hl ->; [done|].
  apply (free_app v [c] l) in Hl as [Hc Hl].
  cbn [app]. rewrite replace_cons by done.
  destruct (p (c :: l ++ T)) as [r|] eqn:Hr.
  - apply (Hpre REDACTED); [done|].
    destruct (Hp _ _ Hr) as ([|c' pre] & Hne & Heq); [done|].
    injection Heq as <- Heq.
    assert (Hsuf : r `suffix_of` l ++ T) by (exists pre; done).
    apply suffix_app_case in Hsuf as [(l2 & Hl2 & ->)|Hsuf].
    + apply (IH (length l2)); [|by eapply free_suffix|done].
      apply suffix_length in Hl2. cbn. lia.
    + by apply (Hland _ _ Hr).
  - apply (Hpre [c]); [done|]. apply (IH (length l)); [cbn; lia|done..].
Qed.

(** Replacement in a run of value characters: either nothing matches in
    the run, or the first match in it ends after the run. *)
Lemma replace_value_run p R W b :
  consuming p → ends_value p → forallb is_value W = true →
  replace p R (W ++ b) = W ++ replace p R b
  ∨ ∃ W1 W2 r, W = W1 ++ W2 ∧ r `suffix_of` b
      ∧ replace p R (W ++ b) = W1 ++ R ++ replace p R r.
Proof.
  intros Hp Hend. induction W as [|c W IH]; [by left|].
  cbn [forallb app]. intros [Hc HW]%andb_true_iff.
  rewrite replace_cons by done.
  destruct (p (c :: W ++ b)) as [r|] eqn:Hr.
  - right. exists [], (c :: W), r. split; [done|]. split; [|done].
    destruct (Hp _ _ Hr) as (pre & _ & Heq).
    apply (suffix_value_run (c :: W) b).
    + cbn. by rewrite Hc, HW.
    + exists pre. done.
    + by apply (Hend _ _ Hr).
  - destruct (IH HW) as [->|(W1 & W2 & r & -> & Hsuf & ->)]; [by left|].
    right. by exists (c :: W1), W2, r.
Qed.

Section Occurrence.

Variables v key : jsstring.
Hypothesis Hkeyv : forallb is_value key = true.
Hypothesis Hkey : free v key.
Hypothesis HR : free v REDACTED.

Lemma kept_prepend x t :
  free v x → free v t ∨ held v key t → free v (x ++ t) ∨ held v key (x ++ t).
Proof.
  intros Hx [Ht|(l & u & b & -> & Hl & Hb & Hu)].
  - left. by apply free_app.
  - right. exists (x ++ l), u, b. rewrite <- app_assoc.
    split; [done|]. split; [by apply free_app|done].
Qed.

Lemma land_after_value p u b x r :
  ends_value p → forallb is_value u = true → free v b →
  p x = Some r → r `suffix_of` key ++ u ++ b → free v r.
Proof.
  intros Hend Hu Hb Hr Hsuf. apply (free_suffix v b); [done|].
  apply (suffix_value_run (key ++ u) b).
  - by rewrite forallb_app, Hkeyv, Hu.
  - by rewrite <- app_assoc.
  - by apply (Hend _ _ Hr).
Qed.

(** A key-value pattern leaves the assignment whole or removes the
    value from the character where it matches. *)
Lemma replace_held p t :
  consuming p → ends_value p → held v key t →
  free v (replace p REDACTED t) ∨ held v key (replace p REDACTED t).
Proof.
  intros Hp Hend (l & u & b & -> & Hl & Hb & Hu).
  apply (replace_before v p
           (λ t, free v t ∨ held v key t)); try done.
  - apply kept_prepend.
  - rewrite (app_assoc key u b).
    destruct (replace_value_run p REDACTED (key ++ u) b)
      as [->|(W1 & W2 & r & HW & Hsuf & ->)]; try done.
    + by rewrite forallb_app, Hkeyv, Hu.
    + right. exists [], u, (replace p REDACTED b). rewrite <- app_assoc.
      split; [done|]. split; [by intros ? ? ?%elem_of_nil|].
      split; [|done]. by apply free_replace.
    + assert (Hr : free v (REDACTED ++ replace p REDACTED r)).
      { apply free_app. split; [done|]. apply free_replace; try done.
        by eapply free_suffix. }
      apply app_eq_inv in HW as [(k & Hk & _)|(k & -> & ->)].
      * left. apply free_app. split; [|done].
        rewrite Hk in Hkey. by apply free_app in Hkey as [? _].
      * right. exists [], k, (REDACTED ++ replace p REDACTED r).
        rewrite <- app_assoc. split; [done|].
        split; [by intros ? ? ?%elem_of_nil|]. split; [done|].
        rewrite forallb_app in Hu. by apply andb_true_iff in Hu as [? _].
  - intros x r Hr Hsuf. left. apply free_replace; try done.
    by apply (land_after_value p u b x r).
Qed.

(** The pattern of the key removes the value. *)
Lemma replace_held_key p t :
  consuming p → ends_value p → (∀ rest, p (key ++ rest) ≠ None) →
  held v key t → free v (replace p REDACTED t).
Proof.
  intros Hp Hend Hmatch (l & u & b & -> & Hl & Hb & Hu).
  apply (replace_before v p (free v)); try done.
  - intros x t Hx Ht. by apply free_app.
  - destruct (p (key ++ u ++ b)) as [r|] eqn:Hr; [|by destruct (Hmatch (u ++ b))].
    assert (Hfree : free v r).
    { apply (land_after_value p u b (key ++ u ++ b) r); try done.
      destruct (Hp _ _ Hr) as (pre & _ & ->). by exists pre. }
    destruct (key ++ u ++ b) as [|c T]; [by rewrite consuming_nil in Hr|].
    rewrite replace_cons, Hr by done.
    apply free_app. split; [done|]. by apply free_replace.
  - intros x r Hr Hsuf. apply free_replace; try done.
    by apply (land_after_value p u b x r).
Qed.

Lemma redact_with_held (ps : list matcher) t :
  Forall (λ p, consuming p ∧ ends_value p) ps →
  free v t ∨ held v key t →
  free v (redact_with ps t) ∨ held v key (redact_with ps t).
Proof.
  intros Hps. revert t. induction Hps as [|p ps [Hp Hend] _ IH]; intros t Ht; [done|].
  cbn. apply IH. destruct Ht as [Ht|Ht].
  - left. by apply free_replace.
  - by apply replace_held.
Qed.

Lemma redact_with_free (ps : list matcher) t :
  Forall consuming ps → free v t → free v (redact_with ps t).
Proof.
  intros Hps. revert t. induction Hps as [|p ps Hp _ IH]; intros t Ht; [done|].
  cbn. apply IH. by apply free_replace.
Qed.

Lemma redact_with_key (ps : list matcher) (j : nat) p t :
  Forall consuming ps →
  Forall ends_value (take (S j) ps) →
  ps !! j = Some p →
  (∀ rest, p (key ++ rest) ≠ None) →
  held v key t → free v (redact_with ps t).
Proof.
  intros Hcons Hend Hj Hmatch Ht.
  rewrite <- (take_drop_middle ps j p Hj) in Hcons |- *.
  apply Forall_app in Hcons as [Hc1 [Hp Hc2]%Forall_cons].
  rewrite (take_S_r ps j p Hj) in Hend.
  apply Forall_app in Hend as [He1 [Hep _]%Forall_cons].
  unfold redact_with. rewrite fold_left_app. cbn [fold_left].
  apply redact_with_free; [done|].
  destruct (redact_with_held (take j ps) t) as [Hfree|Hheld].
  - rewrite Forall_forall in Hc1, He1. apply Forall_forall. by auto.
  - by right.
  - by apply free_replace.
  - by apply replace_held_key.
Qed.

End Occurrence.

Lemma kv_patterns_end : Forall ends_value (take 5 SENSITIVE_MATCHERS).
Proof.
  rewrite SENSITIVE_MATCHERS_eq. cbn [take firstn]. repeat apply Forall_cons_2.
  - apply (ends_value_kv [lit true (js "password")]).
  - apply (ends_value_kv [lit true (js "token")]).
  - apply (ends_value_kv [lit true (js "api"); opt (one is_joiner);
                          lit true (js "key")]).
  - apply (ends_value_kv [lit true (js "secret")]).
  - apply (ends_value_kv [lit true (js "credential")]).
  - constructor.
Qed.

Lemma redactSecrets_value (j : nat) p (key v pre post : jsstring) :
  (j < 5)%nat → SENSITIVE_MATCHERS !! j = Some p →
  (∀ rest, p (key ++ rest) ≠ None) →
  forallb is_value key = true → forallb is_value v = true →
  absent v (pre ++ key ++ post ++ REDACTED) = true →
  absent v (redactSecrets (pre ++ key ++ v ++ post)) = true.
Proof.
  intros Hj Hp Hmatch Hkeyv Hv Habs. apply absent_free.
  apply absent_free in Habs.
  apply free_app in Habs as [Hpre [Hkey [Hpost HR]%free_app]%free_app].
  rewrite redactSecrets_possessive.
  apply (redact_with_key v key Hkeyv Hkey HR SENSITIVE_MATCHERS j p);
    try done.
  - apply patterns_consuming.
  - pose proof kv_patterns_end as Hend.
    rewrite <- (take_drop 5 SENSITIVE_MATCHERS).
    rewrite take_app_le.
    + rewrite <- (take_drop (S j) (take 5 SENSITIVE_MATCHERS)) in Hend.
      by apply Forall_app in Hend as [? _].
    + rewrite length_take. rewrite SENSITIVE_MATCHERS_eq. cbn. lia.
  - by exists pre, v, post.
Qed.




(** A value that also occurs outside the assignment stays where it was. *)
Example repeated_value_stays :
  redactSecrets (js "user=bob password=bob") = js "user=bob [REDACTED]".
Proof. reflexivity. Qed.

Example redactSecrets_login :
  redactSecrets (js "User login with password=hunter2 failed")
  = js "User login with [REDACTED] failed".
Proof. reflexivity. Qed.

End Redaction.

(* ===================================================================== *)
(** * Further properties of the code *)
(* ===================================================================== *)

(** ** Objects *)

Section Objects.

Import JSObject.

Lemma get_set_property (k : jsstring) (v : JSValue) o :
  get_property k (logger.set_property k v o) = v.
Proof.
  unfold get_property. induction o as [|[k' v'] o IH]; cbn.
  - by rewrite bool_decide_eq_true_2.
  - destruct (bool_decide_reflect (k = k')) as [->|Hne]; cbn.
    + by rewrite bool_decide_eq_true_2.
    + rewrite bool_decide_eq_false_2 by congruence. apply IH.
Qed.

Lemma get_property_set_other (k k' : jsstring) (v : JSValue) o :
  k ≠ k' → get_property k (logger.set_property k' v o) = get_property k o.
Proof.
  intros Hne. unfold get_property. induction o as [|[k0 v0] o IH]; cbn.
  - by rewrite bool_decide_eq_false_2.
  - destruct (bool_decide_reflect (k' = k0)) as [->|Hne0]; cbn.
    + by rewrite !bool_decide_eq_false_2 by congruence.
    + destruct (bool_decide (k0 = k)); [done|apply IH].
Qed.

Lemma get_property_spread_absent (k : jsstring) (extra : list (jsstring * JSValue)) :
  ∀ o, k ∉ extra.*1 → get_property k (logger.spread o extra) = get_property k o.
Proof.
  unfold logger.spread.
  induction extra as [|[k' v'] extra IH]; intros o Hk; [done|].
  cbn in Hk. apply not_elem_of_cons in Hk as [Hne Hk].
  cbn [fold_left fst snd]. rewrite IH by done.
  by apply get_property_set_other.
Qed.

Lemma get_property_absent (k : jsstring) (o : list (jsstring * JSValue)) :
  k ∉ o.*1 → get_property k o = JUndefined.
Proof.
  unfold get_property. induction o as [|[k' v'] o IH]; [done|].
  cbn. intros [Hne Hk]%not_elem_of_cons.
  rewrite bool_decide_eq_false_2 by congruence. by apply IH.
Qed.

Lemma get_property_filter (k skipped : jsstring) (o : list (jsstring * JSValue)) :
  k ≠ skipped →
  get_property k (filter (λ member, member.1 ≠ skipped) o) = get_property k o.
Proof.
  intros Hne. unfold get_property. induction o as [|[k' v'] o IH]; [done|].
  destruct (decide (k' = skipped)) as [->|Hk'].
  - rewrite filter_cons_False by (cbn; auto). cbn.
    by rewrite bool_decide_eq_false_2 by congruence.
  - rewrite filter_cons_True by done. cbn.
    destruct (bool_decide (k' = k)); [done|apply IH].
Qed.

End Objects.

(** ** Rate limiter: what the claims leave out *)

Section RateLimiterRuns.

Import rate_limit rate_limit.InMemoryRateLimiter rate_limit_response.

Implicit Types (l : Limiter) (identifier : jsstring) (tss : list Z)
  (log : list (Z * jsstring)) (ops : list (Z * Op)).

(** The timestamps that [check] counts for an identifier. *)
Lemma check_allowed_iff (now : Z) identifier l :
  allowed (fst (check now identifier l)) =
  (Z.of_nat (length (filter (λ ts, now - windowMs l < ts)
                        (default [] (requests l !! identifier))))
   <? maxRequests l).
Proof. unfold check. cbn. by destruct (_ <? _). Qed.

(** An operation on another identifier leaves the list of an identifier
    as it was. *)
Lemma step_other_lookup (now : Z) (op : Op) l identifier other :
  other ≠ identifier → op = OpCheck other ∨ op = OpReset other →
  requests (step now op l) !! identifier = requests l !! identifier.
Proof.
  intros Hne [-> | ->]; cbn [step].
  - unfold check. cbn. destruct (_ <? _); [|done]. cbn.
    by rewrite lookup_insert_ne.
  - unfold InMemoryRateLimiter.reset. cbn. by rewrite lookup_delete_ne.
Qed.

Lemma filter_filter_window (a b : Z) tss :
  a ≤ b →
  filter (λ ts, b < ts) (filter (λ ts, a < ts) tss) = filter (λ ts, b < ts) tss.
Proof.
  intros Hab. induction tss as [|ts tss IH]; [done|].
  destruct (decide (a < ts)) as [Ha|Ha].
  - rewrite (filter_cons_True (λ ts, a < ts)) by done.
    destruct (decide (b < ts)).
    + rewrite !filter_cons_True by done. by rewrite IH.
    + rewrite !filter_cons_False by done. done.
  - rewrite (filter_cons_False (λ ts, a < ts)) by done.
    rewrite (filter_cons_False (λ ts, b < ts)) by lia. done.
Qed.

(** What a sweep leaves for [check] to read. *)
Lemma cleanup_default (now : Z) l identifier :
  default [] (requests (cleanup now l) !! identifier) =
  filter (λ ts, now - windowMs l < ts) (default [] (requests l !! identifier)).
Proof.
  rewrite cleanup_lookup. destruct (requests l !! identifier) as [tss|]; [|done].
  cbn. case_decide as Hv; [by rewrite Hv|done].
Qed.

(** What [check] leaves for the next [check] of the same identifier. *)
Lemma check_default (now : Z) identifier l :
  default [] (requests (snd (check now identifier l)) !! identifier) =
  if allowed (fst (check now identifier l))
  then filter (λ ts, now - windowMs l < ts)
         (default [] (requests l !! identifier)) ++ [now]
  else default [] (requests l !! identifier).
Proof.
  unfold check. cbn. destruct (_ <? _); [|done]. cbn.
  by rewrite lookup_insert_eq.
Qed.

(** X1.  Operations on other identifiers, and sweeps at an earlier or the
    same clock value, do not change the answer of a later check. *)
Theorem check_answer_independent (now t : Z) (op : Op) l identifier :
  (∀ other, op = OpCheck other ∨ op = OpReset other → other ≠ identifier) →
  now ≤ t →
  fst (check t identifier (step now op l)) = fst (check t identifier l).
Proof.
  intros Hop Hle.
  assert (Hvalid :
    filter (λ ts, t - windowMs l < ts)
      (default [] (requests (step now op l) !! identifier)) =
    filter (λ ts, t - windowMs l < ts) (default [] (requests l !! identifier))).
  { destruct op as [other|other|].
    - rewrite (step_other_lookup now _ l identifier other); auto.
    - rewrite (step_other_lookup now _ l identifier other); auto.
    - cbn [step]. rewrite cleanup_default.
      apply filter_filter_window. lia. }
  destruct (step_config now op l) as [Hmx Hw].
  unfold check. cbn. rewrite Hmx, Hw, Hvalid. done.
Qed.

Lemma check_answer_independent_witness :
  fst (check 20 (js "a") (step 10 (OpCheck (js "b")) (new 1 60000)))
  = fst (check 20 (js "a") (new 1 60000)).
Proof.
  apply (check_answer_independent 10 20 (OpCheck (js "b")) (new 1 60000) (js "a")).
  - intros other [[= <-]|[=]]. discriminate.
  - lia.
Defined.

(** X2.  After a window without any operation later than its start, an
    identifier is allowed again and has the whole quota but one. *)
Theorem check_after_idle_window (mx w t0 now : Z) identifier l :
  reachable mx w t0 l →
  t0 + w ≤ now →
  0 < mx →
  let '(r, l') := check now identifier l in
  allowed r = true
  ∧ remaining r = mx - 1
  ∧ requests l' !! identifier = Some [now].
Proof.
  intros Hreach Hidle Hmx.
  destruct (reachable_not_in_future mx w t0 l Hreach) as (Hmax & Hw & Hpast).
  assert (Hvalid : filter (λ ts, now - windowMs l < ts)
                     (default [] (requests l !! identifier)) = []).
  { destruct (requests l !! identifier) as [tss|] eqn:Hk; [|done]. cbn.
    specialize (Hpast identifier tss Hk). rewrite Hw. clear Hk.
    induction Hpast as [|ts tss Hts _ IH]; [done|].
    rewrite filter_cons_False by lia. done. }
  assert (Hlt : (Z.of_nat 0 <? mx) = true) by (apply Z.ltb_lt; cbn; lia).
  unfold check. cbn. rewrite Hvalid, Hmax. cbn. rewrite !Hlt. cbn.
  rewrite lookup_insert_eq. repeat split. lia.
Qed.

Lemma check_after_idle_window_witness :
  let l := step 0 (OpCheck (js "a")) (new 1 10) in
  let '(r, l') := check 10 (js "a") l in
  allowed r = true ∧ remaining r = 1 - 1
  ∧ requests l' !! js "a" = Some [10].
Proof.
  apply (check_after_idle_window 1 10 0 10 (js "a")
           (step 0 (OpCheck (js "a")) (new 1 10))).
  - apply (reach_step 1 10 0 0); [apply reach_new|lia].
  - lia.
  - lia.
Defined.

End RateLimiterRuns.

Section RateLimiterWindow.

Import rate_limit rate_limit.InMemoryRateLimiter rate_limit_response.

Implicit Types (l : Limiter) (identifier : jsstring) (tss : list Z)
  (log : list (Z * jsstring)) (ops : list (Z * Op)).

Lemma filter_length_le {A} (P Q : A → Prop)
    `{∀ x, Decision (P x)} `{∀ x, Decision (Q x)} (xs : list A) :
  (∀ x, P x → Q x) → (length (filter P xs) ≤ length (filter Q xs))%nat.
Proof.
  intros HPQ. induction xs as [|x xs IH]; [done|].
  destruct (decide (P x)) as [HP|HP].
  - rewrite !filter_cons_True by auto. cbn. lia.
  - rewrite (filter_cons_False P) by done.
    destruct (decide (Q x)).
    + rewrite filter_cons_True by done. cbn. lia.
    + by rewrite filter_cons_False.
Qed.

Lemma tracks_new (mx w : Z) identifier (t0 : Z) :
  tracks mx w identifier t0 (new mx w) [].
Proof.
  repeat split; try done. intros t. cbn. lia.
Qed.

Lemma tracks_later (mx w : Z) identifier (t0 now : Z) l l' log :
  t0 ≤ now →
  maxRequests l' = maxRequests l → windowMs l' = windowMs l →
  (∀ bound, now - w ≤ bound →
     filter (λ ts, bound < ts) (default [] (requests l' !! identifier))
     = filter (λ ts, bound < ts) (default [] (requests l !! identifier))) →
  tracks mx w identifier t0 l log → tracks mx w identifier now l' log.
Proof.
  intros Hle Hmx' Hw' Hsame (Hmx & Hw & Hpast & Hview & Hcount).
  split; [congruence|]. split; [congruence|]. split; [|split; [|done]].
  - eapply Forall_impl; [exact Hpast|]. intros e. cbn. lia.
  - intros bound Hb. rewrite Hsame by done. apply Hview. lia.
Qed.

Lemma tracks_step (mx w : Z) identifier (t0 now : Z) (op : Op) l log :
  t0 ≤ now → op ≠ OpReset identifier →
  tracks mx w identifier t0 l log →
  tracks mx w identifier now (step now op l) (log ++ logged now op l).
Proof.
  intros Hle Hop Htr.
  pose proof Htr as (Hmx & Hw & Hpast & Hview & Hcount).
  destruct (step_config now op l) as [Hmx' Hw'].
  assert (Hquiet : ∀ entry : list (Z * jsstring),
    Forall (λ e, e.1 = now ∧ e.2 ≠ identifier) entry →
    requests (step now op l) !! identifier = requests l !! identifier →
    tracks mx w identifier now (step now op l) (log ++ entry)).
  { intros entry Hentry Hsame.
    assert (Hnone : ∀ (Q : Z * jsstring → Prop) (HQ : ∀ e, Decision (Q e)),
              (∀ e, Q e → e.2 = identifier) → filter Q entry = []).
    { intros Q HQ Hid. clear -Hentry Hid.
      induction Hentry as [|e entry [_ He] _ IH]; [done|].
      rewrite filter_cons_False by (intros ?%Hid; done). done. }
    destruct (tracks_later mx w identifier t0 now l (step now op l) log)
      as (_ & _ & Hpast' & Hview' & Hcount'); try done.
    { intros bound _. by rewrite Hsame. }
    split; [congruence|]. split; [congruence|]. split; [|split].
    - apply Forall_app. split; [done|].
      eapply Forall_impl; [exact Hentry|]. intros e [-> _]. done.
    - intros bound Hb. rewrite filter_app, fmap_app.
      rewrite (Hnone (λ e, e.2 = identifier ∧ bound < e.1))
        by (by intros e [? _]).
      cbn. rewrite app_nil_r. by apply Hview'.
    - intros t. unfold allowed_in_window. rewrite filter_app.
      rewrite (Hnone (λ e, e.2 = identifier ∧ t - w < e.1 ≤ t))
        by (by intros e [? _]).
      rewrite app_nil_r. apply Hcount. }
  destruct op as [other|other|].
  - destruct (decide (other = identifier)) as [->|Hne].
    + (* a check of the identifier itself *)
      cbn [step logged]. cbn [step] in Hmx', Hw'.
      pose proof (check_default now identifier l) as Hstored.
      pose proof (check_allowed_iff now identifier l) as Hallowed.
      rewrite Hw, Hmx in Hallowed. rewrite Hw in Hstored.
      destruct (allowed (fst (check now identifier l))) eqn:Hal.
      * symmetry in Hallowed. apply Z.ltb_lt in Hallowed.
        assert (Hvalid : ∀ bound, now - w ≤ bound →
          filter (λ ts, bound < ts)
            (filter (λ ts, now - w < ts) (default [] (requests l !! identifier)))
          = (filter (λ e, e.2 = identifier ∧ bound < e.1) log).*1).
        { intros bound Hb. rewrite filter_filter_window by done.
          apply Hview. lia. }
        split; [congruence|]. split; [congruence|]. split; [|split].
        -- apply Forall_app. split; [|by repeat constructor].
           eapply Forall_impl; [exact Hpast|]. intros e. cbn. lia.
        -- intros bound Hb. rewrite Hstored.
           rewrite !filter_app, fmap_app, (Hvalid bound Hb). f_equal.
           destruct (decide (bound < now)).
           ++ rewrite !filter_cons_True by done. done.
           ++ rewrite !filter_cons_False by (try intros [_ ?]; done). done.
        -- intros t. unfold allowed_in_window. rewrite filter_app, length_app.
           destruct (decide (t - w < now ≤ t)) as [Hin|Hout].
           ++ rewrite (filter_cons_True _ (now, identifier)) by done. cbn.
              pose proof (Hvalid (now - w) ltac:(lia)) as Hv.
              rewrite filter_filter_window in Hv by lia.
              apply (f_equal length) in Hv. rewrite length_fmap in Hv.
              pose proof (filter_length_le
                (λ e : Z * jsstring, e.2 = identifier ∧ t - w < e.1 ≤ t)
                (λ e : Z * jsstring, e.2 = identifier ∧ now - w < e.1) log) as Hsub.
              specialize (Hsub ltac:(intros e [? ?]; split; [done|lia])).
              lia.
           ++ rewrite (filter_cons_False _ (now, identifier))
                by (intros [_ ?]; done).
              cbn. specialize (Hcount t). unfold allowed_in_window in Hcount. lia.
      * rewrite app_nil_r.
        apply (tracks_later mx w identifier t0 now l); try done.
        intros bound _. by rewrite Hstored.
    + apply Hquiet.
      * cbn [logged]. destruct (allowed _); repeat constructor; done.
      * apply (step_other_lookup now _ l identifier other); auto.
  - apply Hquiet; [constructor|].
    apply (step_other_lookup now _ l identifier other); [congruence|auto].
  - cbn [logged]. rewrite app_nil_r.
    apply (tracks_later mx w identifier t0 now l); try done.
    intros bound Hb. cbn [step]. rewrite cleanup_default, Hw.
    by apply filter_filter_window.
Qed.

Lemma run_cons (now : Z) (op : Op) ops l :
  run ((now, op) :: ops) l =
  (logged now op l ++ (run ops (step now op l)).1, (run ops (step now op l)).2).
Proof. cbn [run]. by destruct (run ops (step now op l)). Qed.

Lemma run_tracks (mx w : Z) identifier ops : ∀ (t0 : Z) l log,
  StronglySorted Z.le (t0 :: ops.*1) →
  OpReset identifier ∉ ops.*2 →
  tracks mx w identifier t0 l log →
  ∃ t1, tracks mx w identifier t1 (run ops l).2 (log ++ (run ops l).1).
Proof.
  induction ops as [|[now op] ops IH]; intros t0 l log Hsorted Hreset Htr.
  - exists t0. cbn. by rewrite app_nil_r.
  - rewrite run_cons. cbn [fst snd]. rewrite app_assoc.
    cbn [fmap list_fmap fst] in Hsorted.
    apply StronglySorted_cons in Hsorted as [Hfirst Hsorted].
    apply Forall_cons in Hfirst as [Hle _].
    cbn in Hreset. apply not_elem_of_cons in Hreset as [Hop Hreset].
    apply (IH now); [done|done|].
    apply (tracks_step mx w identifier t0); [done|congruence|done].
Qed.

(** X3.  In a run of operations at non-decreasing clock values on a new
    limiter, without a reset of the identifier, no window of [windowMs]
    milliseconds holds more than [maxRequests] allowed checks of the
    identifier. *)
Theorem allowed_checks_per_window (mx w : Z) identifier ops (t : Z) :
  StronglySorted Z.le (ops.*1) →
  OpReset identifier ∉ ops.*2 →
  Z.of_nat (length (allowed_in_window w t identifier (run ops (new mx w)).1))
  ≤ Z.max 0 mx.
Proof.
  intros Hsorted Hreset.
  destruct ops as [|[now op] ops]; [cbn; lia|].
  destruct (run_tracks mx w identifier ((now, op) :: ops) now (new mx w) [])
    as (t1 & _ & _ & _ & _ & Hcount); [|done|apply tracks_new|apply Hcount].
  cbn [fmap list_fmap fst] in *.
  apply StronglySorted_cons. split; [|done].
  apply StronglySorted_cons in Hsorted as [Hfirst _].
  constructor; [done|done].
Qed.

Lemma allowed_checks_per_window_witness :
  Z.of_nat (length (allowed_in_window 10 12 (js "a")
    (run [(0, OpCheck (js "a")); (5, OpCheck (js "a")); (5, OpCleanup);
          (12, OpCheck (js "a"))] (new 2 10)).1))
  ≤ Z.max 0 2.
Proof.
  apply (allowed_checks_per_window 2 10 (js "a")).
  - cbn. repeat (apply SSorted_cons; [|repeat constructor; lia]).
    apply SSorted_nil.
  - intros Hin. cbn in Hin.
    repeat (apply elem_of_cons in Hin as [Hin|Hin]; [discriminate|]).
    by apply elem_of_nil in Hin.
Defined.

End RateLimiterWindow.

Section RateLimiterCount.

Import rate_limit rate_limit.InMemoryRateLimiter rate_limit_response.

Implicit Types (l : Limiter) (identifier : jsstring) (tss : list Z)
  (log : list (Z * jsstring)) (ops : list (Z * Op)).

Lemma filter_agree {A} (P Q : A → Prop)
    `{∀ x, Decision (P x)} `{∀ x, Decision (Q x)} (xs : list A) :
  Forall (λ x, P x ↔ Q x) xs → filter P xs = filter Q xs.
Proof.
  induction 1 as [|x xs Hx _ IH]; [done|].
  destruct (decide (P x)) as [HP|HP].
  - rewrite !filter_cons_True by tauto. by rewrite IH.
  - rewrite !filter_cons_False by tauto. done.
Qed.

Lemma run_tracks_at (mx w : Z) identifier (now : Z) ops : ∀ (t0 : Z) l log,
  StronglySorted Z.le (t0 :: ops.*1 ++ [now]) →
  OpReset identifier ∉ ops.*2 →
  tracks mx w identifier t0 l log →
  tracks mx w identifier now (run ops l).2 (log ++ (run ops l).1).
Proof.
  induction ops as [|[t op] ops IH]; intros t0 l log Hsorted Hreset Htr.
  - cbn. rewrite app_nil_r.
    apply (tracks_later mx w identifier t0 now l l log); try done.
    cbn in Hsorted. apply StronglySorted_cons in Hsorted as [Hle _].
    by rewrite Forall_singleton in Hle.
  - rewrite run_cons. cbn [fst snd]. rewrite app_assoc.
    cbn [fmap list_fmap fst app] in Hsorted.
    apply StronglySorted_cons in Hsorted as [Hfirst Hsorted].
    apply Forall_cons in Hfirst as [Hle _].
    cbn in Hreset. apply not_elem_of_cons in Hreset as [Hop Hreset].
    apply (IH t); [done|done|].
    apply (tracks_step mx w identifier t0); [done|congruence|done].
Qed.

(** X24.  What a check counts.  After a run of operations at
    non-decreasing clock values on a new limiter, without a reset of the
    identifier, a check at a clock value [now] that is not earlier is
    allowed exactly when fewer than [maxRequests] allowed checks of the
    identifier lie in the window of [windowMs] milliseconds that ends at
    [now]; and [remaining] is [maxRequests] less the number of allowed
    checks in that window, this one included, and never below zero. *)
Theorem check_counts_window (mx w : Z) identifier ops (now : Z) :
  StronglySorted Z.le (ops.*1 ++ [now]) →
  OpReset identifier ∉ ops.*2 →
  let log := (run ops (new mx w)).1 in
  let result := (check now identifier (run ops (new mx w)).2).1 in
  let seen := length (allowed_in_window w now identifier log) in
  allowed result = (Z.of_nat seen <? mx)
  ∧ remaining result =
    Z.max 0 (mx - Z.of_nat (if allowed result then S seen else seen)).
Proof.
  intros Hsorted Hreset log result seen.
  assert (Htr : tracks mx w identifier now (run ops (new mx w)).2 log).
  { destruct ops as [|[t op] ops].
    - apply tracks_new.
    - apply (run_tracks_at mx w identifier now ((t, op) :: ops) t (new mx w) []);
        [|done|apply tracks_new].
      cbn [fmap list_fmap fst app] in *.
      apply StronglySorted_cons. split; [|done].
      constructor; [done|].
      by apply StronglySorted_cons in Hsorted as [? _]. }
  destruct Htr as (Hmx & Hw & Hpast & Hview & _).
  set (l := (run ops (new mx w)).2) in *.
  assert (Hseen :
    length (filter (λ ts, now - windowMs l < ts)
              (default [] (requests l !! identifier))) = seen).
  { rewrite Hw, (Hview (now - w)) by lia. rewrite length_fmap.
    unfold seen, allowed_in_window. f_equal.
    apply filter_agree. eapply Forall_impl; [exact Hpast|].
    intros e He. cbn in He |- *. split; [intros [? ?]|intros (? & ? & ?)];
      repeat split; try done; lia. }
  assert (Hallowed : allowed result = (Z.of_nat seen <? mx)).
  { unfold result. by rewrite check_allowed_iff, Hseen, Hmx. }
  split; [done|]. rewrite Hallowed.
  unfold result, check. cbn [fst remaining]. rewrite Hseen, Hmx.
  destruct (Z.of_nat seen <? mx); [|by rewrite Hseen].
  rewrite length_app, Hseen. cbn [length]. do 3 f_equal. lia.
Qed.

Lemma check_counts_window_witness :
  allowed (check 12 (js "a")
             (run [(0, OpCheck (js "a")); (5, OpCheck (js "a")); (5, OpCleanup)]
                (new 2 10)).2).1
  = (Z.of_nat (length (allowed_in_window 10 12 (js "a")
       (run [(0, OpCheck (js "a")); (5, OpCheck (js "a")); (5, OpCleanup)]
          (new 2 10)).1)) <? 2).
Proof.
  apply (check_counts_window 2 10 (js "a")
           [(0, OpCheck (js "a")); (5, OpCheck (js "a")); (5, OpCleanup)] 12).
  - cbn. repeat (apply SSorted_cons; [|repeat constructor; lia]).
    apply SSorted_nil.
  - intros Hin. cbn in Hin.
    repeat (apply elem_of_cons in Hin as [Hin|Hin]; [discriminate|]).
    by apply elem_of_nil in Hin.
Defined.

End RateLimiterCount.

Section RateLimiterStore.

Import JSNumber rate_limit rate_limit.InMemoryRateLimiter rate_limit_response errors.

Implicit Types (l : Limiter) (identifier : jsstring) (tss : list Z).

Lemma Forall_filter_keeps {A} (P Q : A → Prop) `{∀ x, Decision (P x)}
    (xs : list A) :
  Forall Q xs → Forall Q (filter P xs).
Proof.
  intros Hall. apply Forall_forall. intros x [_ Hx]%list_elem_of_filter.
  rewrite Forall_forall in Hall. by apply Hall.
Qed.

Lemma StronglySorted_filter_le (P : Z → Prop) `{∀ x, Decision (P x)} tss :
  StronglySorted Z.le tss → StronglySorted Z.le (filter P tss).
Proof.
  induction 1 as [|ts tss _ IH Hall]; [constructor|].
  destruct (decide (P ts)).
  - rewrite filter_cons_True by done. constructor; [done|].
    by apply Forall_filter_keeps.
  - by rewrite filter_cons_False.
Qed.

Lemma well_stored_later (mx now now' : Z) tss :
  now ≤ now' → well_stored mx now tss → well_stored mx now' tss.
Proof.
  intros Hle (Hne & Hlen & Hsorted & Hpast). repeat split; try done.
  eapply Forall_impl; [exact Hpast|]. intros ts. cbn. lia.
Qed.

Lemma well_stored_filter (mx now : Z) (P : Z → Prop) `{∀ x, Decision (P x)} tss :
  well_stored mx now tss → filter P tss ≠ [] → well_stored mx now (filter P tss).
Proof.
  intros (Hne & Hlen & Hsorted & Hpast) Hne'. repeat split; try done.
  - pose proof (length_filter P tss). lia.
  - by apply StronglySorted_filter_le.
  - by apply Forall_filter_keeps.
Qed.

Lemma step_well_stored (mx now now' : Z) (op : Op) l :
  maxRequests l = mx → now ≤ now' →
  (∀ identifier tss, requests l !! identifier = Some tss → well_stored mx now tss) →
  ∀ identifier tss, requests (step now' op l) !! identifier = Some tss →
    well_stored mx now' tss.
Proof.
  intros Hmx Hle Hl identifier tss.
  assert (Hold : ∀ k old, requests l !! k = Some old → well_stored mx now' old).
  { intros k old Hk. apply (well_stored_later mx now); [done|]. by apply (Hl k). }
  destruct op as [k|k|]; cbn [step].
  - destruct (decide (k = identifier)) as [->|Hne].
    + pose proof (check_default now' identifier l) as Hstored.
      pose proof (check_allowed_iff now' identifier l) as Hallowed.
      intros Hk. rewrite Hk in Hstored.
      change (default [] (Some tss)) with tss in Hstored.
      destruct (allowed (fst (check now' identifier l))) eqn:Hal.
      * symmetry in Hallowed. apply Z.ltb_lt in Hallowed. rewrite Hmx in Hallowed.
        rewrite Hstored.
        set (valid := filter _ _) in *.
        assert (Hvalid : StronglySorted Z.le valid ∧ Forall (λ ts, ts ≤ now') valid).
        { unfold valid. destruct (requests l !! identifier) as [old|] eqn:Hold';
            [|split; constructor].
          destruct (Hold identifier old Hold') as (_ & _ & Hsorted & Hpast).
          split; [by apply StronglySorted_filter_le|by apply Forall_filter_keeps]. }
        destruct Hvalid as [Hsorted Hpast].
        split; [by intros [_ [=]]%app_eq_nil|]. split; [|split].
        -- rewrite length_app. cbn. lia.
        -- apply StronglySorted_app. split; [|split; [done|repeat constructor]].
           intros x1 x2 Hx1 ->%list_elem_of_singleton.
           rewrite Forall_forall in Hpast. by apply Hpast.
        -- apply Forall_app. split; [done|]. by repeat constructor.
      * assert (Hsame : snd (check now' identifier l) = l).
        { unfold check in *. cbn in *. by destruct (_ <? _). }
        rewrite Hsame in Hk. by apply (Hold identifier).
    + pose proof (step_other_lookup now' (OpCheck k) l identifier k Hne
                    ltac:(by left)) as Hsame.
      cbn [step] in Hsame. rewrite Hsame. apply Hold.
  - unfold InMemoryRateLimiter.reset. cbn.
    intros [_ Hk]%lookup_delete_Some. by apply (Hold identifier).
  - rewrite cleanup_lookup.
    destruct (requests l !! identifier) as [old|] eqn:Hk; [|done].
    cbn. case_decide as Hne; [done|]. intros [= <-].
    apply well_stored_filter; [|done]. by apply (Hold identifier).
Qed.

(** X4.  In every state reached from the constructor, each stored list is
    non-empty, holds at most [maxRequests] clock values, and holds them
    in non-decreasing order. *)
Theorem stored_lists_bounded (mx w now : Z) l identifier tss :
  reachable mx w now l →
  requests l !! identifier = Some tss →
  tss ≠ [] ∧ Z.of_nat (length tss) ≤ mx ∧ StronglySorted Z.le tss.
Proof.
  intros Hreach Hk.
  enough (Hall : ∀ k old, requests l !! k = Some old → well_stored mx now old).
  { destruct (Hall identifier tss Hk) as (? & ? & ? & _). done. }
  clear identifier tss Hk.
  induction Hreach as [now|now now' op l Hreach IH Hle].
  - intros k old. cbn. by rewrite lookup_empty.
  - apply (step_well_stored mx now); [|done|done].
    by destruct (reachable_not_in_future mx w now l Hreach) as [? _].
Qed.

Lemma stored_lists_bounded_witness :
  [0; 5] ≠ [] ∧ Z.of_nat (length [0; 5]) ≤ 2 ∧ StronglySorted Z.le [0; 5].
Proof.
  apply (stored_lists_bounded 2 10 5
           (step 5 (OpCheck (js "a")) (step 0 (OpCheck (js "a")) (new 2 10)))
           (js "a")).
  - apply (reach_step 2 10 0 5); [|lia].
    apply (reach_step 2 10 0 0); [apply reach_new|lia].
  - reflexivity.
Defined.

Lemma ceil_div_nonpos (a b : Z) : a ≤ 0 → 0 < b → ceil_div a b ≤ 0.
Proof.
  intros Ha Hb. unfold ceil_div.
  pose proof (Z.div_pos (- a) b ltac:(lia) Hb). lia.
Qed.

(** X5.  [checkRateLimit] answers [null] exactly when the check is
    allowed.  A refusal leaves the limiter as it was and is a 429
    response whose rate-limit headers give the quota, no remaining
    request and the clock value of the check; when the clock has not
    gone back since the check, [Retry-After] is one second. *)
Theorem checkRateLimit_refusal (JSON_stringify : JSValue → jsstring)
    (now later : Z) (request : Request) (limiter : Limiter) :
  now ≤ later →
  let checked := check now (getClientIdentifier request) limiter in
  match checkRateLimit JSON_stringify now later request limiter with
  | (None, limiter') => allowed checked.1 = true ∧ limiter' = checked.2
  | (Some response, limiter') =>
      allowed checked.1 = false
      ∧ limiter' = limiter
      ∧ status response = 429
      ∧ header (js "Retry-After") response = Some (js "1")
      ∧ header (js "X-RateLimit-Limit") response
        = Some (NumberToString (maxRequests limiter))
      ∧ header (js "X-RateLimit-Remaining") response = Some (js "0")
      ∧ header (js "X-RateLimit-Reset") response = Some (NumberToString now)
  end.
Proof.
  intros Hle checked. unfold checkRateLimit. fold checked.
  destruct checked as [result limiter'] eqn:Hchecked. cbn [fst snd].
  assert (Hreset : rate_limit.reset result = now).
  { apply (f_equal fst) in Hchecked. cbn in Hchecked. subst result.
    cbn. lia. }
  assert (Hlimit : limit result = maxRequests limiter).
  { apply (f_equal fst) in Hchecked. cbn in Hchecked. by subst result. }
  destruct (allowed result) eqn:Hal; cbn [negb]; [done|].
  assert (Hsame : limiter' = limiter).
  { pose proof (f_equal snd Hchecked) as Hs. cbn [snd] in Hs. rewrite <- Hs.
    pose proof (f_equal (λ p, allowed p.1) Hchecked) as Ha.
    cbn [fst] in Ha. rewrite Hal in Ha.
    unfold check in Ha |- *. cbn in Ha |- *. by destruct (_ <? _). }
  assert (Hremaining : remaining result = 0).
  { pose proof (f_equal (λ p, allowed p.1) Hchecked) as Ha.
    cbn [fst] in Ha. rewrite Hal in Ha.
    pose proof (f_equal (λ p, remaining p.1) Hchecked) as Hr.
    cbn [fst] in Hr. rewrite <- Hr.
    unfold check in Ha |- *. cbn in Ha |- *.
    destruct (Z.ltb_spec
      (Z.of_nat (length (filter (λ ts, now - windowMs limiter < ts)
         (default [] (requests limiter !! getClientIdentifier request)))))
      (maxRequests limiter)); [done|]. lia. }
  assert (Hretry : Z.max 1 (ceil_div (rate_limit.reset result - later) 1000) = 1).
  { pose proof (ceil_div_nonpos (rate_limit.reset result - later) 1000). lia. }
  rewrite Hretry, Hlimit, Hremaining, Hreset.
  repeat split; done.
Qed.

Lemma checkRateLimit_refusal_witness :
  let limiter := snd (check 0 (js "unknown") (new 1 60000)) in
  match checkRateLimit (λ _, js "{}") 5 6 {| rate_limit.headers := ∅ |} limiter with
  | (None, _) => False
  | (Some response, _) => header (js "Retry-After") response = Some (js "1")
  end.
Proof.
  pose proof (checkRateLimit_refusal (λ _, js "{}") 5 6
                {| rate_limit.headers := ∅ |}
                (snd (check 0 (js "unknown") (new 1 60000))) ltac:(lia)) as H.
  cbv zeta in *.
  destruct (checkRateLimit _ _ _ _ _) as [[response|] limiter'].
  - by destruct H as (_ & _ & _ & Hretry & _).
  - by destruct H as [H _].
Defined.

End RateLimiterStore.

Section RateLimiterForget.

Import rate_limit rate_limit.InMemoryRateLimiter.

Implicit Types (l : Limiter) (identifier : jsstring) (tss : list Z).

(** X26.  A reset forgets the identifier: the next check of it answers
    and stores what it would on a new limiter with the same quota and
    window, whatever was stored before. *)
Theorem check_after_reset (now : Z) identifier l :
  let fresh := new (maxRequests l) (windowMs l) in
  let after := check now identifier (InMemoryRateLimiter.reset identifier l) in
  requests (InMemoryRateLimiter.reset identifier l) !! identifier = None
  ∧ after.1 = (check now identifier fresh).1
  ∧ requests after.2 !! identifier
    = requests (check now identifier fresh).2 !! identifier.
Proof.
  cbv zeta. unfold check, InMemoryRateLimiter.reset.
  cbn [requests with_requests maxRequests windowMs new fst snd].
  rewrite lookup_delete_eq, lookup_empty.
  change (default [] None) with (@nil Z). rewrite filter_nil.
  split; [done|]. split; [done|].
  destruct (Z.of_nat (length (@nil Z)) <? maxRequests l);
    cbn [requests with_requests snd].
  - by rewrite !lookup_insert_eq.
  - by rewrite ?lookup_delete_eq, ?lookup_empty.
Qed.

Lemma limiter_eq l l' :
  maxRequests l = maxRequests l' → windowMs l = windowMs l' →
  requests l = requests l' → l = l'.
Proof. destruct l, l'. cbn. by intros -> -> ->. Qed.

(** X27.  A sweep after a sweep at an earlier or the same clock value
    leaves what the later sweep alone leaves; in particular a sweep
    repeated at the same clock value changes nothing more. *)
Theorem cleanup_absorbs_earlier (now now' : Z) l :
  now ≤ now' →
  cleanup now' (cleanup now l) = cleanup now' l.
Proof.
  intros Hle. apply limiter_eq; [done..|].
  apply map_eq. intros identifier. rewrite !cleanup_lookup.
  change (windowMs (cleanup now l)) with (windowMs l).
  destruct (requests l !! identifier) as [tss|]; [|done]. cbn.
  destruct (decide (filter (λ ts, now - windowMs l < ts) tss = [])) as [Hnone|Hsome].
  - cbn. case_decide as Hlater; [done|]. exfalso. apply Hlater.
    rewrite <- (filter_filter_window (now - windowMs l) (now' - windowMs l))
      by lia.
    by rewrite Hnone.
  - cbn. by rewrite filter_filter_window by lia.
Qed.

Lemma cleanup_absorbs_earlier_witness :
  let l := step 5 (OpCheck (js "b")) (step 0 (OpCheck (js "a")) (new 1 10)) in
  cleanup 12 (cleanup 11 l) = cleanup 12 l.
Proof.
  apply (cleanup_absorbs_earlier 11 12
           (step 5 (OpCheck (js "b")) (step 0 (OpCheck (js "a")) (new 1 10)))).
  lia.
Defined.

End RateLimiterForget.

(** ** Client identifier and request identifier *)

Section ClientIdentifier.

Import rate_limit.

Implicit Types (s : jsstring) (c : N).

Lemma trim_start_head s c rest :
  trim_start s = c :: rest → is_space c = false.
Proof.
  induction s as [|d s IH]; [done|]. cbn [trim_start].
  destruct (is_space d) eqn:Hd; [done|]. by intros [= <- _].
Qed.

Lemma trim_start_suffix s : trim_start s `suffix_of` s.
Proof.
  induction s as [|d s IH]; [done|]. cbn [trim_start].
  destruct (is_space d); [by apply suffix_cons_r|done].
Qed.

(** The trimmed text sits inside the text after its leading white
    space. *)
Lemma trim_inside s :
  ∃ dropped, trim_start s = trim s ++ dropped.
Proof.
  unfold trim. destruct (trim_start_suffix (rev (trim_start s))) as [pre Hpre].
  exists (rev pre). apply (f_equal (@rev N)) in Hpre.
  by rewrite rev_involutive, rev_app_distr in Hpre.
Qed.

Lemma trim_elem_of s c : c ∈ trim s → c ∈ s.
Proof.
  intros Hin. destruct (trim_inside s) as [dropped Hs].
  apply (elem_of_suffix (trim_start s)); [|apply trim_start_suffix].
  rewrite Hs. apply elem_of_app. by left.
Qed.

Lemma trim_head s c rest : trim s = c :: rest → is_space c = false.
Proof.
  intros Heq. destruct (trim_inside s) as [dropped Hs].
  rewrite Heq in Hs. by apply trim_start_head in Hs.
Qed.

Lemma trim_last s c pre : trim s = pre ++ [c] → is_space c = false.
Proof.
  unfold trim. intros Heq. apply (f_equal (@rev N)) in Heq.
  rewrite rev_involutive, rev_app_distr in Heq. cbn in Heq.
  by apply trim_start_head in Heq.
Qed.

Lemma before_comma_no_comma s : 44%N ∉ before_comma s.
Proof.
  induction s as [|d s IH]; cbn [before_comma]; [apply not_elem_of_nil|].
  destruct (N.eqb_spec d 44); [apply not_elem_of_nil|].
  apply not_elem_of_cons. split; [congruence|done].
Qed.

(** X6.  The identifier is chosen by the first of the two headers that is
    present and not empty.  From [x-forwarded-for] it is the trimmed
    text before the first comma: it has no comma and neither starts nor
    ends with white space (it can be empty).  Otherwise it is the
    [x-real-ip] header as it is, and [unknown] when that is absent or
    empty too. *)
Theorem getClientIdentifier_cases (request : Request) :
  let forwarded := default [] (headers request !! js "x-forwarded-for") in
  let realIp := default [] (headers request !! js "x-real-ip") in
  let identifier := getClientIdentifier request in
  (forwarded ≠ [] →
     identifier = trim (before_comma forwarded)
     ∧ (44%N ∉ identifier)
     ∧ (∀ c rest, identifier = c :: rest → is_space c = false)
     ∧ (∀ c pre, identifier = pre ++ [c] → is_space c = false))
  ∧ (forwarded = [] → realIp ≠ [] → identifier = realIp)
  ∧ (forwarded = [] → realIp = [] → identifier = js "unknown").
Proof.
  cbv zeta. unfold getClientIdentifier.
  destruct (headers request !! js "x-forwarded-for") as [[|c f]|];
    cbn [default from_option truthy id].
  - split; [done|].
    destruct (headers request !! js "x-real-ip") as [[|d r]|]; by cbn.
  - split; [|done]. intros _. split; [done|]. split; [|split].
    + intros Hin%trim_elem_of. by apply before_comma_no_comma in Hin.
    + intros c' rest. apply trim_head.
    + intros c' pre. apply trim_last.
  - split; [done|].
    destruct (headers request !! js "x-real-ip") as [[|d r]|]; by cbn.
Qed.

Lemma getClientIdentifier_cases_witness :
  getClientIdentifier
    {| headers := {[ js "x-forwarded-for" := [];
                     js "x-real-ip" := js "203.0.113.9" ]} |}
  = js "203.0.113.9"
  ∧ (44%N ∉ getClientIdentifier
              {| headers := {[ js "x-forwarded-for" := js " 1.2.3.4 , 5.6.7.8" ]} |}).
Proof.
  split.
  - refine (eq_trans (proj1 (proj2 (getClientIdentifier_cases
             {| headers := {[ js "x-forwarded-for" := [];
                              js "x-real-ip" := js "203.0.113.9" ]} |})) _ _) _);
      [reflexivity|vm_compute; discriminate|reflexivity].
  - apply (proj1 (getClientIdentifier_cases
             {| headers := {[ js "x-forwarded-for" := js " 1.2.3.4 , 5.6.7.8" ]} |})).
    vm_compute. discriminate.
Defined.

End ClientIdentifier.

Section RequestIdentifier.

Import errors error_helpers.


End RequestIdentifier.

Section RequestIdentifierExamples.

Import errors error_helpers.


End RequestIdentifierExamples.

(** ** CSRF tokens *)

Section Csrf.

Import csrf.

Implicit Types (s t token expected : jsstring) (c d : N).

Lemma Buffer_from_ascii_cons c s :
  (c < 128)%N → Buffer_from (c :: s) = c :: Buffer_from s.
Proof.
  intros Hc. cbn [Buffer_from]. unfold is_high_surrogate, is_low_surrogate.
  destruct (N.leb_spec 55296 c); [lia|]. cbn [andb].
  destruct (N.leb_spec 56320 c); [lia|]. cbn [andb].
  unfold utf8_of_code_point. by destruct (N.ltb_spec c 128); [|lia].
Qed.

Lemma Buffer_from_ascii s : Forall (λ c, (c < 128)%N) s → Buffer_from s = s.
Proof.
  induction 1 as [|c s Hc _ IH]; [done|].
  by rewrite Buffer_from_ascii_cons, IH.
Qed.

Lemma utf8_of_code_point_head cp :
  (128 ≤ cp)%N → ∃ b rest, utf8_of_code_point cp = b :: rest ∧ (128 ≤ b)%N.
Proof.
  intros Hcp. unfold utf8_of_code_point.
  destruct (N.ltb_spec cp 128); [lia|].
  destruct (cp <? 2048)%N; [|destruct (cp <? 65536)%N];
    eexists _, _; (split; [reflexivity|]);
    (etransitivity; [|apply N.le_add_r]); lia.
Qed.

(** The first byte written for a code unit outside ASCII is outside
    ASCII. *)
Lemma Buffer_from_head d s :
  (128 ≤ d)%N → ∃ b rest, Buffer_from (d :: s) = b :: rest ∧ (128 ≤ b)%N.
Proof.
  intros Hd. cbn [Buffer_from].
  assert (Hrep : ∀ tail, ∃ b rest,
            replacement_bytes ++ tail = b :: rest ∧ (128 ≤ b)%N).
  { intros tail. eexists _, _. split; [reflexivity|lia]. }
  assert (Hcp : ∀ cp tail, (128 ≤ cp)%N → ∃ b rest,
            utf8_of_code_point cp ++ tail = b :: rest ∧ (128 ≤ b)%N).
  { intros cp tail (b & rest & -> & Hb)%utf8_of_code_point_head.
    by exists b, (rest ++ tail). }
  destruct (is_high_surrogate d).
  - destruct s as [|d' s]; [apply (Hrep [])|].
    destruct (is_low_surrogate d'); [|apply Hrep].
    apply Hcp. lia.
  - destruct (is_low_surrogate d); [apply Hrep|by apply Hcp].
Qed.

(** Only an ASCII text has the bytes of an ASCII text of its length. *)
Lemma Buffer_from_ascii_inv expected : ∀ token,
  Forall (λ c, (c < 128)%N) expected →
  length token = length expected →
  Buffer_from token = expected → token = expected.
Proof.
  induction expected as [|c expected IH]; intros [|d token] Hascii Hlen Hbytes;
    try done.
  apply Forall_cons in Hascii as [Hc Hascii].
  destruct (N.lt_ge_cases d 128) as [Hd|Hd].
  - rewrite Buffer_from_ascii_cons in Hbytes by done.
    injection Hbytes as -> Hbytes. f_equal. apply IH; [done| |done].
    cbn in Hlen. lia.
  - destruct (Buffer_from_head d token Hd) as (b & rest & Hhead & Hb).
    rewrite Hhead in Hbytes. injection Hbytes as -> _. lia.
Qed.

Lemma validateCsrfToken_true token expected :
  validateCsrfToken token expected = true ↔
  token ≠ [] ∧ expected ≠ [] ∧ length token = length expected
  ∧ Buffer_from token = Buffer_from expected.
Proof.
  unfold validateCsrfToken, timingSafeEqual.
  destruct token as [|d token]; [by split; [|intros [? _]]|].
  destruct expected as [|c expected]; [by split; [|intros (_ & ? & _)]|].
  cbn [truthy negb orb].
  destruct (Nat.eqb_spec (length (d :: token)) (length (c :: expected)))
    as [Hlen|Hlen]; cbn [negb]; [|by split; [|intros (_ & _ & ? & _)]].
  destruct (Nat.eqb_spec (length (Buffer_from (d :: token)))
              (length (Buffer_from (c :: expected)))) as [Hblen|Hblen].
  - rewrite bool_decide_eq_true. split; [by intros ?|by intros (_ & _ & _ & ?)].
  - split; [done|]. intros (_ & _ & _ & Heq). by rewrite Heq in Hblen.
Qed.

(** X8.  Against an expected token of ASCII characters, such as the
    hexadecimal tokens that are generated, a token is valid exactly when
    the expected token is not empty and the two are the same text. *)
Theorem validateCsrfToken_ascii token expected :
  Forall (λ c, (c < 128)%N) expected →
  validateCsrfToken token expected = true ↔ expected ≠ [] ∧ token = expected.
Proof.
  intros Hascii. rewrite validateCsrfToken_true. split.
  - intros (_ & Hne & Hlen & Hbytes). split; [done|].
    rewrite (Buffer_from_ascii expected Hascii) in Hbytes.
    by apply Buffer_from_ascii_inv.
  - intros [Hne ->]. done.
Qed.

Lemma validateCsrfToken_ascii_witness :
  validateCsrfToken (js "ab12") (js "ab12") = true.
Proof.
  apply (validateCsrfToken_ascii (js "ab12") (js "ab12")).
  - vm_compute. repeat constructor.
  - split; [discriminate|reflexivity].
Defined.

(** Outside ASCII the comparison is one of bytes, not of texts: two
    different surrogates without partner are written as the same
    bytes. *)
Example validateCsrfToken_lone_surrogates :
  validateCsrfToken [56320%N] [56321%N] = true.
Proof. reflexivity. Qed.

Lemma hex_digit_range n :
  (n < 16)%N →
  (48 ≤ hex_digit n ≤ 57 ∨ 97 ≤ hex_digit n ≤ 102)%N.
Proof. intros Hn. unfold hex_digit. destruct (N.ltb_spec n 10); lia. Qed.

Lemma toString_hex_chars bytes :
  Forall (λ b, (b < 256)%N) bytes →
  Forall (λ c, (48 ≤ c ≤ 57 ∨ 97 ≤ c ≤ 102)%N) (toString_hex bytes).
Proof.
  induction 1 as [|b bytes Hb _ IH]; [constructor|].
  cbn. constructor; [|constructor; [|done]]; apply hex_digit_range.
  - apply N.Div0.div_lt_upper_bound. lia.
  - apply N.mod_lt. lia.
Qed.

Lemma toString_hex_length bytes :
  length (toString_hex bytes) = (2 * length bytes)%nat.
Proof.
  unfold toString_hex. induction bytes as [|b bytes IH]; [done|].
  cbn [flat_map app length]. rewrite IH. lia.
Qed.

Lemma hex_digit_inj m n :
  (m < 16)%N → (n < 16)%N → hex_digit m = hex_digit n → m = n.
Proof.
  unfold hex_digit. intros Hm Hn.
  destruct (N.ltb_spec m 10), (N.ltb_spec n 10); lia.
Qed.

(** X9.  The token made from the 32 random bytes has 64 characters, all of
    them digits or lower-case letters from a to f; a token is valid
    against it exactly when it is the same text; and different random
    bytes make different tokens. *)
Theorem generateCsrfToken_valid (random : list N) :
  length random = TOKEN_LENGTH →
  Forall (λ b, (b < 256)%N) random →
  length (generateCsrfToken random) = 64%nat
  ∧ Forall (λ c, (48 ≤ c ≤ 57 ∨ 97 ≤ c ≤ 102)%N) (generateCsrfToken random)
  ∧ (∀ token, validateCsrfToken token (generateCsrfToken random) = true
              ↔ token = generateCsrfToken random)
  ∧ (∀ other, Forall (λ b, (b < 256)%N) other →
       generateCsrfToken other = generateCsrfToken random → other = random).
Proof.
  intros Hlen Hbytes. unfold generateCsrfToken.
  pose proof (toString_hex_chars random Hbytes) as Hchars.
  split; [by rewrite toString_hex_length, Hlen|]. split; [done|]. split.
  - intros token. rewrite validateCsrfToken_ascii.
    + split; [by intros [_ ?]|]. intros ->. split; [|done].
      destruct random; [done|discriminate].
    + eapply Forall_impl; [exact Hchars|]. intros c. cbn. lia.
  - clear Hlen Hchars. revert Hbytes.
    induction random as [|b random IH]; intros Hbytes other Hother Heq.
    + by destruct other.
    + destruct other as [|b' other]; [done|].
      apply Forall_cons in Hbytes as [Hb Hbytes].
      apply Forall_cons in Hother as [Hb' Hother].
      cbn in Heq. injection Heq as Hhi Hlo Heq.
      apply hex_digit_inj in Hhi;
        [|apply N.Div0.div_lt_upper_bound; lia..].
      apply hex_digit_inj in Hlo; [|apply N.mod_lt; lia..].
      f_equal; [|by apply IH].
      rewrite (N.div_mod b 16), (N.div_mod b' 16) by lia. lia.
Qed.

Lemma generateCsrfToken_valid_witness :
  length (generateCsrfToken (replicate 32 171%N)) = 64%nat.
Proof.
  apply (generateCsrfToken_valid (replicate 32 171%N)).
  - reflexivity.
  - vm_compute. repeat constructor.
Defined.

End Csrf.

(** ** Cookie configuration *)

Section CookieSecurity.

Import cookies.

(** X10.  The session, persistent, strict and delete cookies pass the
    validator without a warning in the environment that made them, in
    production and outside it.  Validated in another environment they
    draw one warning at most, the one about the Secure flag, when they
    were made outside production and are validated in production. *)
Theorem factory_cookies_pass (made validated : Env) (value : jsstring)
    (maxAgeDays maxAge : option Z) :
  Forall (λ cookie,
            validateCookieSecurity made cookie = []
            ∧ validateCookieSecurity validated cookie =
              if is_production validated && negb (is_production made)
              then [warning_secure] else [])
    [createSessionCookie made value;
     createPersistentCookie made value maxAgeDays;
     createStrictCookie made value maxAge;
     createDeleteCookie made].
Proof.
  unfold validateCookieSecurity.
  repeat constructor; cbn;
    by destruct (is_production validated), (is_production made).
Qed.

(** X11.  The cookie of [getSecureCookieConfig] draws a warning in exactly
    two cases: [httpOnly] was switched off, or [sameSite] is [none]
    outside production. *)
Theorem getSecureCookieConfig_warnings (NODE_ENV : Env)
    (options : SecureCookieOptions.t) :
  validateCookieSecurity NODE_ENV (getSecureCookieConfig NODE_ENV options)
  = (if negb (default true (SecureCookieOptions.httpOnly options))
     then [warning_httpOnly] else [])
    ++ (if match SecureCookieOptions.sameSite options with
           | Some none => negb (is_production NODE_ENV)
           | _ => false
           end
        then [warning_none] else []).
Proof.
  unfold validateCookieSecurity. cbn.
  destruct (SecureCookieOptions.httpOnly options) as [[]|];
    destruct (SecureCookieOptions.sameSite options) as [[]|];
    by destruct (is_production NODE_ENV).
Qed.

End CookieSecurity.

(** ** Guarded fetch *)

Section SafeFetchProperties.

Import JSNumber JSObject ssrf safe_fetch.

Variable URL_new : jsstring → option URL.
Variable URL_toString : URL → jsstring.
Variable URL_resolve : jsstring → URL → jsstring + jsstring.
Variable World : Type.
Variable fetch :
  World → jsstring → RequestInit → Z → (Thrown + FetchResponse) * World.

Local Abbreviation steps_of := (safeFetch_steps URL_new URL_toString URL_resolve World fetch).

(** The ways in which one round of [safeFetch] ends. *)
Lemma safeFetch_steps_cases (steps : nat) world urlString options :
  (∃ error, validateUrl URL_new urlString = inl error
     ∧ steps_of (S steps) world urlString options = Some (inl error, [], world))
  ∨ ∃ url, validateUrl URL_new urlString = inr url ∧
      let init := init_of options in
      let call := {| call_url := URL_toString url; call_init := init |} in
      let settled := fetch world (URL_toString url) init
                       (default 0 (timeout (merge DEFAULT_OPTIONS options))) in
      (∃ error, steps_of (S steps) world urlString options
                = Some (inl error, [call], settled.2))
      ∨ (∃ response, settled.1 = inr response
           ∧ ¬ (300 ≤ status response < 400)
           ∧ declares_at_most
               (default 0 (maxSize (merge DEFAULT_OPTIONS options))) response
           ∧ steps_of (S steps) world urlString options
             = Some (inr response, [call], settled.2))
      ∨ (∃ redirectUrl, 0 < redirects_allowed options
           ∧ steps_of (S steps) world urlString options =
             match steps_of steps settled.2 redirectUrl (followed options) with
             | Some (result, calls, world') => Some (result, call :: calls, world')
             | None => None
             end).
Proof.
  cbn [safeFetch_steps].
  destruct (validateUrl URL_new urlString) as [error|url] eqn:Hvalid.
  { left. by exists error. }
  right. exists url. split; [done|]. cbv zeta.
  destruct (fetch world _ _ _) as [[error|response] world'] eqn:Hfetch.
  { left. eexists. reflexivity. }
  cbn [fst snd].
  destruct ((300 <=? status response) && (status response <? 400)) eqn:Hredirect.
  - destruct (negb _); [left; eexists; reflexivity|].
    fold (redirects_allowed options).
    destruct (Z.leb_spec (redirects_allowed options) 0);
      [left; eexists; reflexivity|].
    destruct (URL_resolve _ url) as [message|redirectUrl];
      [left; eexists; reflexivity|].
    right; right. exists redirectUrl. split; [done|]. reflexivity.
  - destruct (headers response !! js "content-length") as [text|] eqn:Hlength;
      cbn [from_option]; try change (id text) with text.
    + destruct (truthy text) eqn:Htext.
      * destruct (parseInt text) as [size|] eqn:Hsize.
        -- destruct (Z.ltb_spec (default 0 (maxSize (merge DEFAULT_OPTIONS options))) size).
           ++ left; eexists; reflexivity.
           ++ right; left. exists response. split; [done|]. split.
              { apply andb_false_iff in Hredirect as [?%Z.leb_gt|?%Z.ltb_ge]; lia. }
              split; [|done].
              intros text' size' Htext' _ Hsize'.
              assert (text' = text) as -> by congruence.
              rewrite Hsize in Hsize'. injection Hsize' as <-. lia.
        -- right; left. exists response. split; [done|]. split.
           { apply andb_false_iff in Hredirect as [?%Z.leb_gt|?%Z.ltb_ge]; lia. }
           split; [|done].
           intros text' size' Htext' _ Hsize'.
           assert (text' = text) as -> by congruence. congruence.
      * right; left. exists response. split; [done|]. split.
        { apply andb_false_iff in Hredirect as [?%Z.leb_gt|?%Z.ltb_ge]; lia. }
        split; [|done]. intros text' size' Htext' Hne.
        assert (text' = text) as -> by congruence. by destruct text.
    + right; left. exists response. split; [done|]. split.
      { apply andb_false_iff in Hredirect as [?%Z.leb_gt|?%Z.ltb_ge]; lia. }
      split; [|done]. intros text size Htext'. congruence.
Qed.

Lemma followed_allowed options :
  0 < redirects_allowed options →
  Z.to_nat (redirects_allowed (followed options))
  = pred (Z.to_nat (redirects_allowed options)).
Proof. intros Hpos. unfold followed, redirects_allowed at 1. cbn. lia. Qed.

Lemma followed_size options :
  default 0 (maxSize (merge DEFAULT_OPTIONS (followed options)))
  = default 0 (maxSize (merge DEFAULT_OPTIONS options)).
Proof. done. Qed.

(** What every run of [safeFetch] with enough steps satisfies. *)
Lemma safeFetch_steps_spec (steps : nat) : ∀ world urlString options,
  (Z.to_nat (redirects_allowed options) < steps)%nat →
  ∃ result calls world',
    steps_of steps world urlString options = Some (result, calls, world')
    ∧ (length calls ≤ S (Z.to_nat (redirects_allowed options)))%nat
    ∧ Forall (guarded URL_new URL_toString) calls
    ∧ Forall (λ call, call_init call = init_of options) calls
    ∧ match validateUrl URL_new urlString with
      | inl error => result = inl error ∧ calls = [] ∧ world' = world
      | inr url => ∃ init rest,
          calls = {| call_url := URL_toString url; call_init := init |} :: rest
      end
    ∧ match result with
      | inl _ => True
      | inr response =>
          ¬ (300 ≤ status response < 400)
          ∧ declares_at_most
              (default 0 (maxSize (merge DEFAULT_OPTIONS options))) response
      end.
Proof.
  induction steps as [|steps IH]; intros world urlString options Hsteps; [lia|].
  destruct (safeFetch_steps_cases steps world urlString options)
    as [(error & Hvalid & ->)|(url & Hvalid & Hcases)].
  { exists (inl error), [], world. rewrite Hvalid. repeat split; try done.
    cbn. lia. }
  rewrite Hvalid. cbv zeta in Hcases.
  set (init := init_of options) in *.
  set (call := {| call_url := URL_toString url; call_init := init |}) in *.
  assert (Hcall : guarded URL_new URL_toString call).
  { split; [by exists urlString, url|]. apply get_set_property. }
  destruct Hcases as [(error & ->)|[(response & _ & Hstatus & Hsize & ->)
                                   |(target & Hpos & ->)]].
  - eexists _, _, _. split; [done|]. cbn [length].
    split; [lia|]. split; [by apply Forall_singleton|].
    split; [by apply Forall_singleton|]. split; [|done].
    by exists init, [].
  - eexists _, _, _. split; [done|]. cbn [length].
    split; [lia|]. split; [by apply Forall_singleton|].
    split; [by apply Forall_singleton|]. split; [|done].
    by exists init, [].
  - destruct (IH (fetch world (URL_toString url) init
                    (default 0 (timeout (merge DEFAULT_OPTIONS options)))).2
                target (followed options))
      as (result & calls & world' & -> & Hlen & Hguard & Hinit & _ & Hresult).
    { rewrite followed_allowed by done. lia. }
    exists result, (call :: calls), world'. split; [done|].
    rewrite followed_allowed in Hlen by done. cbn [length].
    split; [lia|]. split; [by constructor|]. split; [by constructor|].
    split; [|done]. by exists init, calls.
Qed.


(** X13.  Every address that [safeFetch] hands to [fetch], the first one
    and every redirect target, is the text of a URL that [validateUrl]
    has accepted, and is fetched without following redirects.  When
    [validateUrl] refuses the address given, its error is the result
    and nothing is fetched. *)
Theorem safeFetch_guards_every_call world urlString options :
  match safeFetch URL_new URL_toString URL_resolve World fetch
          world urlString options with
  | None => False
  | Some (result, calls, world') =>
      Forall (guarded URL_new URL_toString) calls
      ∧ match validateUrl URL_new urlString with
        | inl error => result = inl error ∧ calls = [] ∧ world' = world
        | inr url => ∃ init rest,
            calls = {| call_url := URL_toString url; call_init := init |} :: rest
        end
  end.
Proof.
  unfold safeFetch. fold (redirects_allowed options).
  destruct (safeFetch_steps_spec (S (Z.to_nat (redirects_allowed options)))
              world urlString options)
    as (result & calls & world' & -> & _ & Hguard & _ & Hfirst & _); [lia|done].
Qed.

(** X14.  [safeFetch] calls [fetch] exactly when [isUrlSafe] holds of the
    address it is given; when it does not hold, the result is the error
    of [validateUrl] and the network is left as it was. *)
Theorem safeFetch_fetches_iff_safe world urlString options :
  match safeFetch URL_new URL_toString URL_resolve World fetch
          world urlString options with
  | None => False
  | Some (result, calls, world') =>
      (calls ≠ [] ↔ isUrlSafe URL_new urlString = true)
      ∧ (calls = [] ↔ ∃ error, validateUrl URL_new urlString = inl error
                               ∧ result = inl error ∧ world' = world)
  end.
Proof.
  unfold safeFetch, isUrlSafe. fold (redirects_allowed options).
  destruct (safeFetch_steps_spec (S (Z.to_nat (redirects_allowed options)))
              world urlString options)
    as (result & calls & world' & -> & _ & _ & _ & Hfirst & _); [lia|].
  destruct (validateUrl URL_new urlString) as [error|url].
  - destruct Hfirst as (-> & -> & ->). split; [by split|].
    split; [|done]. intros _. by exists error.
  - destruct Hfirst as (init & rest & ->). split; [by split|].
    split; [done|]. by intros (error & [=] & _).
Qed.



(** X17.  When the headers that the caller passes have no [Accept] member,
    every call of [fetch] made by [safeFetchJson] is given headers with
    [Accept: application/json]. *)
Theorem safeFetchJson_accept world urlString options :
  (∀ init, fetchOptions options = Some init →
     js "Accept" ∉ (own_properties (get_property (js "headers") init)).*1) →
  match safeFetchJson URL_new URL_toString URL_resolve World fetch
          world urlString options with
  | None => False
  | Some (_, calls, _) =>
      Forall (λ call, ∃ headers,
                get_property (js "headers") (call_init call) = JObject headers
                ∧ get_property (js "Accept") headers
                  = JString (js "application/json")) calls
  end.
Proof.
  intros Hcaller. unfold safeFetchJson, safeFetch.
  fold (redirects_allowed (json_options options)).
  destruct (safeFetch_steps_spec
              (S (Z.to_nat (redirects_allowed (json_options options))))
              world urlString (json_options options))
    as (result & calls & world' & -> & _ & _ & Hinit & _); [lia|].
  assert (Hcalls : Forall (λ call, ∃ headers,
            get_property (js "headers") (call_init call) = JObject headers
            ∧ get_property (js "Accept") headers
              = JString (js "application/json")) calls).
  { eapply Forall_impl; [exact Hinit|]. intros call ->.
    eexists. split.
    - unfold init_of, fetch_init, json_options.
      cbn [fetchOptions merge from_option default].
      unfold logger.spread at 1. cbn [fold_left fst snd].
      rewrite get_property_set_other by discriminate.
      rewrite get_property_filter by discriminate.
      unfold logger.spread at 1. cbn [fold_left fst snd].
      apply get_set_property.
    - rewrite get_property_spread_absent; [reflexivity|].
      destruct (fetchOptions options) as [init|] eqn:Hgiven.
      + by apply Hcaller.
      + apply not_elem_of_nil. }
  destruct result as [error|response]; [done|].
  by destruct (negb (ok response)).
Qed.

End SafeFetchProperties.

Section SafeFetchExamples.

Import JSNumber JSObject ssrf safe_fetch.

Lemma safeFetchJson_accept_witness :
  match safeFetchJson URL_plain (λ _, js "https://example.com/")
          (λ _ _, inl []) unit (λ world _ _ _, (inl ThrownValue, world))
          tt (js "https://example.com/")
          {| timeout := None; maxSize := None; maxRedirects := None;
             fetchOptions := Some [(js "method", JString (js "GET"))] |} with
  | None => False
  | Some (_, calls, _) =>
      Forall (λ call, ∃ headers,
                get_property (js "headers") (call_init call) = JObject headers
                ∧ get_property (js "Accept") headers
                  = JString (js "application/json")) calls
  end.
Proof.
  apply (safeFetchJson_accept URL_plain (λ _, js "https://example.com/")
           (λ _ _, inl []) unit (λ world _ _ _, (inl ThrownValue, world))).
  intros init [= <-]. intros Hin. vm_compute in Hin. by apply elem_of_nil in Hin.
Defined.

End SafeFetchExamples.

(** ** Logger: what is written *)

Section LoggerLines.

Import JSObject logger analysis.

Implicit Types (s x : jsstring) (q : matcher).

(** A text in which no pattern matches is left as it is. *)
Lemma redactSecrets_of_clean s :
  Forall (λ q, clean q s) SENSITIVE_MATCHERS → redactSecrets s = s.
Proof.
  intros Hclean. rewrite redactSecrets_possessive.
  apply redact_with_clean_id.
  pose proof patterns_consuming as Hcons.
  rewrite Forall_forall in Hcons, Hclean. apply Forall_forall.
  intros q Hq. split; [by apply Hcons|by apply Hclean].
Qed.

(** A text that always starts a match of [q] does not occur in a text
    that is clean of [q]. *)
Lemma clean_excludes q (sub : jsstring) s :
  (∀ rest, q (sub ++ rest) ≠ None) → clean q s → includes sub s = false.
Proof.
  intros Hq Hclean. destruct (includes sub s) eqn:Hin; [exfalso|done].
  apply includes_app in Hin as (pre & post & ->).
  apply (Hq post), Hclean. by exists pre.
Qed.

(** No pattern of the code matches anywhere in a redacted text. *)
Lemma redactSecrets_no_match s :
  Forall (λ re, ∀ x, x `suffix_of` redactSecrets s → exec re x = None)
    SENSITIVE_PATTERNS.
Proof.
  pose proof (redactSecrets_clean s) as Hclean.
  unfold SENSITIVE_MATCHERS in Hclean. rewrite Forall_fmap in Hclean.
  pose proof sensitive_patterns_follow as Hfollow.
  rewrite Forall_forall in Hclean, Hfollow. apply Forall_forall.
  intros re Hre x Hx. rewrite exec_possessive by by apply Hfollow.
  by apply (Hclean re Hre).
Qed.

Lemma redactSecrets_no_key s (key : jsstring) :
  key ∈ [js "password="; js "token="; js "api_key="; js "secret="] →
  includes key (redactSecrets s) = false.
Proof.
  intros Hkey. pose proof (redactSecrets_clean s) as Hclean.
  rewrite SENSITIVE_MATCHERS_eq in Hclean.
  repeat (apply elem_of_cons in Hkey as [->|Hkey]).
  - apply (clean_excludes
             (cat [lit true (js "password"); plus is_sep; star is_value]));
      [done|]. by apply Forall_cons in Hclean as [? _].
  - apply (clean_excludes
             (cat [lit true (js "token"); plus is_sep; star is_value]));
      [done|]. by apply Forall_cons in Hclean as [_ [? _]%Forall_cons].
  - apply (clean_excludes
             (cat [lit true (js "api"); opt (one is_joiner);
                   lit true (js "key"); plus is_sep; star is_value]));
      [done|].
    by apply Forall_cons in Hclean as [_ [_ [? _]%Forall_cons]%Forall_cons].
  - apply (clean_excludes
             (cat [lit true (js "secret"); plus is_sep; star is_value]));
      [done|].
    by apply Forall_cons in Hclean
      as [_ [_ [_ [? _]%Forall_cons]%Forall_cons]%Forall_cons].
  - by apply elem_of_nil in Hkey.
Qed.

(** X18.  Whatever is logged, and in whatever environment, every line that
    [info], [warn], [error] and [debug] write is a redacted text: no
    sensitive pattern matches anywhere in it, none of [password=],
    [token=], [api_key=] and [secret=] occurs in it, and redacting it
    again changes nothing. *)
Theorem logged_lines_are_redacted
    (JSON_stringify : LogContext → jsstring) (isoNow : jsstring)
    (NODE_ENV : Env) (this : Logger) (message : jsstring) (meta : JSValue) :
  Forall (λ call,
            Forall (λ re, ∀ x, x `suffix_of` line call → exec re x = None)
              SENSITIVE_PATTERNS
            ∧ Forall (λ key, includes key (line call) = false)
                [js "password="; js "token="; js "api_key="; js "secret="]
            ∧ redactSecrets (line call) = line call)
    (info JSON_stringify isoNow this message meta
     ++ warn JSON_stringify isoNow this message meta
     ++ error JSON_stringify isoNow this message meta
     ++ debug JSON_stringify isoNow NODE_ENV this message meta).
Proof.
  assert (Hline : ∀ s,
    Forall (λ re, ∀ x, x `suffix_of` redactSecrets s → exec re x = None)
      SENSITIVE_PATTERNS
    ∧ Forall (λ key, includes key (redactSecrets s) = false)
        [js "password="; js "token="; js "api_key="; js "secret="]
    ∧ redactSecrets (redactSecrets s) = redactSecrets s).
  { intros s. split; [apply redactSecrets_no_match|]. split.
    - apply Forall_forall. intros key Hkey. by apply redactSecrets_no_key.
    - apply redactSecrets_of_clean, redactSecrets_clean. }
  unfold info, warn, error, debug, format.
  destruct (negb (is_production NODE_ENV));
    repeat (constructor; [apply Hline|]); constructor.
Qed.

End LoggerLines.

Section LoggerContext.

Import JSObject logger.

Implicit Types (o extra : LogContext) (k : jsstring).

(** What [{ ...o, ...extra }] holds under a key. *)
Lemma get_property_spread k extra : ∀ o,
  NoDup extra.*1 →
  get_property k (spread o extra) =
  if bool_decide (k ∈ extra.*1) then get_property k extra else get_property k o.
Proof.
  unfold spread. induction extra as [|[k' v'] extra IH]; intros o Hdup; [done|].
  cbn [fmap list_fmap fst] in Hdup. apply NoDup_cons in Hdup as [Hk' Hdup].
  cbn [fold_left fst snd]. rewrite IH by done.
  cbn [fmap list_fmap fst].
  destruct (decide (k = k')) as [->|Hne].
  - rewrite (bool_decide_eq_false_2 (k' ∈ extra.*1)) by done.
    rewrite bool_decide_eq_true_2 by by left.
    rewrite get_set_property. unfold get_property. cbn.
    by rewrite bool_decide_eq_true_2.
  - assert (Hhead : get_property k ((k', v') :: extra) = get_property k extra).
    { unfold get_property. cbn. by rewrite bool_decide_eq_false_2 by congruence. }
    rewrite Hhead, get_property_set_other by done.
    destruct (bool_decide_reflect (k ∈ extra.*1)) as [Hin|Hout].
    + rewrite bool_decide_eq_true_2 by by right. done.
    + rewrite bool_decide_eq_false_2; [done|].
      intros [?|?]%elem_of_cons; done.
Qed.

Lemma keys_set_property k (v : JSValue) o :
  (set_property k v o).*1 = if bool_decide (k ∈ o.*1) then o.*1 else o.*1 ++ [k].
Proof.
  induction o as [|[k' v'] o IH]; [done|]. cbn.
  destruct (bool_decide_reflect (k = k')) as [->|Hne]; cbn.
  - by rewrite bool_decide_eq_true_2 by by left.
  - rewrite IH. destruct (bool_decide_reflect (k ∈ o.*1)) as [Hin|Hout].
    + by rewrite bool_decide_eq_true_2 by by right.
    + rewrite bool_decide_eq_false_2; [done|].
      intros [?|?]%elem_of_cons; done.
Qed.

Lemma keys_spread extra : ∀ o,
  NoDup o.*1 →
  NoDup (spread o extra).*1
  ∧ ∀ k, k ∈ (spread o extra).*1 ↔ k ∈ o.*1 ∨ k ∈ extra.*1.
Proof.
  unfold spread. induction extra as [|[k' v'] extra IH]; intros o Hdup.
  - split; [done|]. intros k. cbn. split; [by left|].
    intros [?|?%elem_of_nil]; done.
  - cbn [fold_left fst snd].
    assert (Hset : NoDup (set_property k' v' o).*1
              ∧ ∀ k, k ∈ (set_property k' v' o).*1 ↔ k ∈ o.*1 ∨ k = k').
    { rewrite keys_set_property.
      destruct (bool_decide_reflect (k' ∈ o.*1)) as [Hin|Hout].
      - split; [done|]. intros k. split; [by left|]. by intros [?| ->].
      - split.
        + apply NoDup_app. split; [done|]. split; [|apply NoDup_singleton].
          intros x Hx ->%list_elem_of_singleton. done.
        + intros k. rewrite elem_of_app, list_elem_of_singleton. done. }
    destruct Hset as [Hdup' Hkeys].
    destruct (IH _ Hdup') as [Hdup'' Hkeys'']. split; [done|].
    intros k. rewrite Hkeys'', Hkeys. cbn [fmap list_fmap fst].
    rewrite elem_of_cons. tauto.
Qed.

(** X19.  The entry that a child logger formats takes each member from the
    first of these that has it: the [meta] argument, the additional
    context of the child, the context of its parent, and last the
    timestamp, level and message of the call.  So a member of [meta] or
    of a context that is named [message], [level] or [timestamp]
    replaces the one of the call. *)
Theorem log_entry_precedence
    (JSON_stringify : LogContext → jsstring) (isoNow : jsstring)
    (this : Logger) (additionalContext : LogContext)
    (level : LogLevel) (message : jsstring) (meta : JSValue) :
  NoDup (context this).*1 →
  NoDup additionalContext.*1 →
  NoDup (meta_members meta).*1 →
  ∃ entry,
    format JSON_stringify isoNow (child this additionalContext) level message meta
    = redactSecrets (JSON_stringify entry)
    ∧ ∀ k, get_property k entry =
           first_of k [meta_members meta; additionalContext; context this;
                       [(js "timestamp", JString isoNow);
                        (js "level", JString (toUpperCase (level_name level)));
                        (js "message", JString message)]].
Proof.
  intros Hthis Hadd Hmeta. unfold format, child. cbn [context].
  fold (meta_members meta). eexists. split; [reflexivity|].
  intros k. cbn [first_of].
  destruct (keys_spread additionalContext (context this) Hthis) as [Hchild Hkeys].
  rewrite get_property_spread by done.
  destruct (bool_decide (k ∈ (meta_members meta).*1)); [done|].
  rewrite get_property_spread by done.
  rewrite (get_property_spread k additionalContext) by done.
  destruct (bool_decide_reflect (k ∈ additionalContext.*1)) as [Hin|Hout].
  - rewrite bool_decide_eq_true_2; [done|]. apply Hkeys. by right.
  - destruct (bool_decide_reflect (k ∈ (context this).*1)) as [Hin'|Hout'].
    + rewrite bool_decide_eq_true_2; [done|]. apply Hkeys. by left.
    + rewrite bool_decide_eq_false_2; [|by intros [?|?]%Hkeys].
      set (base := [(js "timestamp", _); _; _]).
      destruct (bool_decide_reflect (k ∈ base.*1)) as [Hb|Hb]; [done|].
      by apply get_property_absent.
Qed.

End LoggerContext.

Section LoggerExamples.

Import JSObject logger.

Lemma log_entry_precedence_witness :
  ∃ entry,
    format (λ _, js "{}") (js "2026-01-01T00:00:00.000Z")
      (child (createLogger [(js "requestId", JString (js "r1"))])
         [(js "module", JString (js "db"))])
      level_info (js "started") (JObject [(js "message", JString (js "other"))])
    = redactSecrets (js "{}")
    ∧ get_property (js "message") entry = JString (js "other").
Proof.
  destruct (log_entry_precedence (λ _, js "{}") (js "2026-01-01T00:00:00.000Z")
              (createLogger [(js "requestId", JString (js "r1"))])
              [(js "module", JString (js "db"))]
              level_info (js "started")
              (JObject [(js "message", JString (js "other"))]))
    as (entry & Hformat & Hentry).
  - cbn. apply NoDup_singleton.
  - cbn. apply NoDup_singleton.
  - cbn. apply NoDup_singleton.
  - exists entry. split; [exact Hformat|]. rewrite Hentry. reflexivity.
Defined.

End LoggerExamples.

Section RedactionFixedPoints.

Import logger analysis.

Implicit Types (s x : jsstring).

(** X25.  [redactSecrets] leaves a text as it is exactly when no
    sensitive pattern matches anywhere in it: a text without a match is
    never altered, and a text with a match is always changed. *)
Theorem redactSecrets_fixed_iff s :
  redactSecrets s = s ↔
  Forall (λ re, ∀ x, x `suffix_of` s → exec re x = None) SENSITIVE_PATTERNS.
Proof.
  split.
  - intros Hfixed. rewrite <- Hfixed. apply redactSecrets_no_match.
  - intros Hnone. apply redactSecrets_of_clean.
    unfold SENSITIVE_MATCHERS. rewrite Forall_fmap.
    pose proof sensitive_patterns_follow as Hfollow.
    rewrite Forall_forall in Hnone, Hfollow. apply Forall_forall.
    intros re Hre x Hx. cbn. rewrite <- exec_possessive by by apply Hfollow.
    by apply (Hnone re Hre).
Qed.

End RedactionFixedPoints.

(** ** Error shortcuts and input validation *)

Section ErrorShortcuts.

Import errors error_helpers.

(** X20.  The responses of [AppError.toResponse] and of the shortcuts
    [unauthorized], [forbidden], [notFound] and [internal] are the same
    in every environment: their body has the code and the message and
    never has details, whatever [NODE_ENV] is. *)
Theorem text_errors_carry_no_details
    (JSON_stringify : ErrorResponse → jsstring) (NODE_ENV : Env)
    (randomUUID : jsstring) (this : AppError) (message requestId : option jsstring) :
  let plain code text status id :=
    {| status := status;
       headers := [(js "Content-Type", js "application/json");
                   (js "X-Request-ID", effective_id randomUUID id)];
       body := JSON_stringify
                 {| error := {| code := code; errors.message := text;
                                errors.requestId := effective_id randomUUID id;
                                details := None |} |} |} in
  toResponse JSON_stringify NODE_ENV randomUUID this requestId
  = plain (app_code this) (app_message this) (statusCode this) requestId
  ∧ Errors_unauthorized JSON_stringify NODE_ENV randomUUID message
    = plain ErrorCodes.UNAUTHORIZED
        (default (js "Authentication required") message) 401 None
  ∧ Errors_forbidden JSON_stringify NODE_ENV randomUUID message
    = plain ErrorCodes.FORBIDDEN (default (js "Access denied") message) 403 None
  ∧ Errors_notFound JSON_stringify NODE_ENV randomUUID message
    = plain ErrorCodes.NOT_FOUND
        (default (js "Resource not found") message) 404 None
  ∧ Errors_internal JSON_stringify NODE_ENV randomUUID requestId
    = plain ErrorCodes.INTERNAL_ERROR (js "An unexpected error occurred")
        500 requestId.
Proof.
  cbv zeta.
  unfold toResponse, Errors_unauthorized, Errors_forbidden, Errors_notFound,
    Errors_internal, createErrorResponse.
  cbn [is_string negb andb]. rewrite !andb_false_r.
  repeat split; try done; by destruct requestId as [[|c r]|].
Qed.

(** X21.  [Errors.validation] answers 400 with the code [VALIDATION_ERROR].
    Details that are not a text reach the body outside production only;
    in production the body has the fixed message and no details, so that
    it is the same for all such details. *)
Theorem validation_details_hidden_in_production
    (JSON_stringify : ErrorResponse → jsstring) (NODE_ENV : Env)
    (randomUUID : jsstring) (details : JSValue) :
  is_string details = false →
  Errors_validation JSON_stringify NODE_ENV randomUUID details
  = {| status := 400;
       headers := [(js "Content-Type", js "application/json");
                   (js "X-Request-ID", randomUUID)];
       body := JSON_stringify
                 {| error := {| code := ErrorCodes.VALIDATION_ERROR;
                                errors.message := js "An error occurred";
                                errors.requestId := randomUUID;
                                errors.details :=
                                  if is_production NODE_ENV then None
                                  else Some details |} |} |}.
Proof.
  intros Hdetails. unfold Errors_validation, createErrorResponse.
  rewrite Hdetails. cbn [negb andb]. rewrite andb_true_r.
  by destruct details, (is_production NODE_ENV).
Qed.

End ErrorShortcuts.

Section ErrorExamples.

Import errors error_helpers.

Lemma validation_details_hidden_in_production_witness :
  body (Errors_validation (λ r, match details (error r) with
                                 | Some _ => js "with details"
                                 | None => js "no details"
                                 end)
          (Some (js "production")) (js "id")
          (JObject [(js "email", JString (js "Invalid email"))]))
  = js "no details".
Proof.
  rewrite (validation_details_hidden_in_production _ (Some (js "production"))
             (js "id") (JObject [(js "email", JString (js "Invalid email"))])).
  - reflexivity.
  - reflexivity.
Defined.

End ErrorExamples.

Section ValidationProperties.

Import errors error_helpers validation.

Implicit Types (issues : list ZodIssue) (formatted : Formatted).

Lemma messages_at_app path issues issues' :
  messages_at path (issues ++ issues')
  = messages_at path issues ++ messages_at path issues'.
Proof. unfold messages_at. by rewrite filter_app, fmap_app. Qed.

Lemma messages_at_snoc path issues issue :
  messages_at path (issues ++ [issue]) =
  messages_at path issues
  ++ (if decide (issue_key issue = path) then [message issue] else []).
Proof.
  rewrite messages_at_app. f_equal. unfold messages_at.
  destruct (decide (issue_key issue = path)).
  - by rewrite filter_cons_True.
  - by rewrite filter_cons_False.
Qed.

Lemma messages_at_elem path issues :
  messages_at path issues ≠ [] → ∃ issue, issue ∈ issues ∧ issue_key issue = path.
Proof.
  unfold messages_at. destruct (filter _ issues) as [|issue rest] eqn:Hf; [done|].
  intros _. exists issue.
  assert (Hin : issue ∈ filter (λ issue, issue_key issue = path) issues)
    by (rewrite Hf; by left).
  by apply list_elem_of_filter in Hin as [? ?].
Qed.

Lemma formatZodErrors_issue_groups seen formatted issue :
  groups seen formatted →
  Forall (λ issue, issue_key issue ∉ Object_prototype_names) seen →
  match formatZodErrors_issue formatted issue with
  | Some formatted' =>
      (issue_key issue ∉ Object_prototype_names)
      ∧ groups (seen ++ [issue]) formatted'
  | None => issue_key issue ∈ Object_prototype_names
  end.
Proof.
  intros Hgroups Hseen. unfold formatZodErrors_issue.
  pose proof (Hgroups (issue_key issue)) as Hhere.
  assert (Hother : ∀ path messages, path ≠ issue_key issue →
    <[issue_key issue := messages]> formatted !! path =
    if decide (messages_at path (seen ++ [issue]) = []) then None
    else Some (messages_at path (seen ++ [issue]))).
  { intros path messages Hne. rewrite lookup_insert_ne by done.
    rewrite messages_at_snoc.
    destruct (decide (issue_key issue = path)) as [Heq|_]; [by destruct Hne|].
    rewrite app_nil_r. apply Hgroups. }
  destruct (formatted !! issue_key issue) as [messages|] eqn:Hlookup.
  - case_decide as Hnone; [done|]. injection Hhere as ->. split.
    + destruct (messages_at_elem _ _ Hnone) as (earlier & Hin & <-).
      rewrite Forall_forall in Hseen. by apply Hseen.
    + intros path. destruct (decide (path = issue_key issue)) as [->|Hne];
        [|by apply Hother].
      rewrite lookup_insert_eq, messages_at_snoc.
      destruct (decide (issue_key issue = issue_key issue)) as [_|?]; [|done].
      rewrite decide_False; [done|]. by intros [_ [=]]%app_eq_nil.
  - case_decide as Hnone; [|done].
    destruct (bool_decide_reflect (issue_key issue ∈ Object_prototype_names));
      [done|].
    split; [done|]. intros path.
    destruct (decide (path = issue_key issue)) as [->|Hne]; [|by apply Hother].
    rewrite lookup_insert_eq, messages_at_snoc.
    destruct (decide (issue_key issue = issue_key issue)) as [_|?]; [|done].
    rewrite Hnone. cbn [app]. by rewrite decide_False.
Qed.

Lemma formatZodErrors_from_groups issues : ∀ seen formatted,
  groups seen formatted →
  Forall (λ issue, issue_key issue ∉ Object_prototype_names) seen →
  match formatZodErrors_from formatted issues with
  | Some formatted' =>
      Forall (λ issue, issue_key issue ∉ Object_prototype_names) issues
      ∧ groups (seen ++ issues) formatted'
  | None =>
      Exists (λ issue, issue_key issue ∈ Object_prototype_names) issues
  end.
Proof.
  induction issues as [|issue issues IH]; intros seen formatted Hgroups Hseen.
  - cbn. split; [done|]. by rewrite app_nil_r.
  - cbn [formatZodErrors_from].
    pose proof (formatZodErrors_issue_groups seen formatted issue Hgroups Hseen)
      as Hstep.
    destruct (formatZodErrors_issue formatted issue) as [formatted'|];
      [|by left].
    destruct Hstep as [Hok Hgroups'].
    specialize (IH (seen ++ [issue]) formatted' Hgroups').
    rewrite <- app_assoc in IH. cbn [app] in IH.
    destruct (formatZodErrors_from formatted' issues) as [formatted''|].
    + destruct IH as [Hrest Hall]; [|by split; [constructor|]].
      apply Forall_app. split; [done|]. by constructor.
    + right. apply IH. apply Forall_app. split; [done|]. by constructor.
Qed.

(** X22.  [formatZodErrors] files the message of every issue under the
    path of the issue, joined with dots, or under [value] for an empty
    path: the record has a member for exactly the paths that occur, and
    each member lists the messages of the issues with that path in
    their order.  It throws instead exactly when the path of some issue
    is the name of a member that objects inherit, such as
    [constructor] or [toString]. *)
Theorem formatZodErrors_groups issues :
  match formatZodErrors issues with
  | Some formatted =>
      Forall (λ issue, issue_key issue ∉ Object_prototype_names) issues
      ∧ ∀ path, formatted !! path =
                if decide (messages_at path issues = []) then None
                else Some (messages_at path issues)
  | None =>
      Exists (λ issue, issue_key issue ∈ Object_prototype_names) issues
  end.
Proof.
  unfold formatZodErrors.
  pose proof (formatZodErrors_from_groups issues [] ∅) as Hall.
  destruct (formatZodErrors_from ∅ issues) as [formatted|]; apply Hall; try done.
Qed.

Section Validate.

Variable JSON_stringify : ErrorResponse → jsstring.
Variable NODE_ENV : Env.
Variable randomUUID : jsstring.
Variable members : Formatted → list (jsstring * JSValue).
Context {T : Type}.
Variable schema_parse : JSValue → ParseOutcome T.

(** X23.  When the schema throws a [ZodError], the three validators give
    the same answer: failure with a 400 response whose code is
    [VALIDATION_ERROR] and whose message is the fixed text.  The
    formatted issues are the details of the body outside production; in
    production the body has no details and says nothing about the
    issues.  When [formatZodErrors] throws, no answer is given: the
    [TypeError] leaves the validator. *)
Theorem validators_on_zod_error (params : JSValue) issues :
  schema_parse params = ThrowsZodError issues →
  let answer :=
    match formatZodErrors issues with
    | Some formatted =>
        Some (Failure
          {| status := 400;
             headers := [(js "Content-Type", js "application/json");
                         (js "X-Request-ID", randomUUID)];
             body := JSON_stringify
               {| error := {| code := ErrorCodes.VALIDATION_ERROR;
                              errors.message := js "An error occurred";
                              errors.requestId := randomUUID;
                              errors.details :=
                                if is_production NODE_ENV then None
                                else Some (JObject (members formatted)) |} |} |})
    | None => None
    end in
  validateParams JSON_stringify NODE_ENV randomUUID members schema_parse params
  = answer
  ∧ validateQuery JSON_stringify NODE_ENV randomUUID members schema_parse
      (Some params) = answer
  ∧ validateBody JSON_stringify NODE_ENV randomUUID members schema_parse
      (BodyJson params) = answer.
Proof.
  intros Hparse. cbv zeta.
  unfold validateParams, validateQuery, validateBody. rewrite Hparse.
  unfold zod_failure, createErrorResponse.
  destruct (formatZodErrors issues) as [formatted|]; [|done].
  cbn [is_string negb andb]. rewrite andb_true_r.
  by destruct (is_production NODE_ENV).
Qed.

End Validate.

End ValidationProperties.

Section ValidationExamples.

Import errors error_helpers validation.

Lemma validators_on_zod_error_witness :
  validateParams (λ _, js "{}") (Some (js "production")) (js "id") (λ _, [])
    (λ _ : JSValue,
       ThrowsZodError (T := unit)
         [{| path := [PathKey (js "constructor")]; message := js "Required" |}])
    JNull
  = None.
Proof.
  apply (proj1 (validators_on_zod_error (λ _, js "{}") (Some (js "production"))
                  (js "id") (λ _, [])
                  (λ _ : JSValue,
                     ThrowsZodError (T := unit)
                       [{| path := [PathKey (js "constructor")];
                           message := js "Required" |}])
                  JNull
                  [{| path := [PathKey (js "constructor")];
                      message := js "Required" |}] eq_refl)).
Defined.

End ValidationExamples.
